(** * Blood-pressure reading extraction: [extractDataFromText]

    A shallow embedding of [src/services/aiService.ts] (the function
    [extractDataFromText] and its local helper [preprocessText]) together
    with the fragment of the JavaScript runtime it relies on: strings as
    sequences of UTF-16 code units, numbers produced by [Number(...)],
    and backtracking regular expressions with capture groups.  The code
    around the extractor is embedded as well where it is pure: the
    payload of [fileToBase64], the badge [getBPCategory] of the table
    components, and the table entries and the export of [pages/Index.tsx]. *)

From Stdlib Require Import List NArith ZArith Bool Lia String Ascii.
Import ListNotations.

Set Implicit Arguments.
Open Scope string_scope.
Open Scope list_scope.

(** ** JavaScript strings *)

(** A JavaScript string is a sequence of 16-bit code units; a code unit is
    modelled by its numeric value. *)
Definition char := N.
Definition jsstring := list char.

(** Literals of the source are written as Rocq strings and converted. *)
Definition str (s : string) : jsstring :=
  List.map N_of_ascii (list_ascii_of_string s).

Module Js.

(** *** Character classes of the regular-expression engine *)

Definition isDigit (c : char) : bool := ((48 <=? c) && (c <=? 57))%N.
Definition isUpper (c : char) : bool := ((65 <=? c) && (c <=? 90))%N.
Definition isLower (c : char) : bool := ((97 <=? c) && (c <=? 122))%N.

(** [\w] : ASCII letters, digits and underscore. *)
Definition isWordChar (c : char) : bool :=
  isDigit c || isUpper c || isLower c || (c =? 95)%N.

(** [\s] : the WhiteSpace and LineTerminator code points of ECMAScript. *)
Definition isSpace (c : char) : bool :=
  (((9 <=? c) && (c <=? 13)) || (c =? 32) || (c =? 160) || (c =? 5760)
   || ((8192 <=? c) && (c <=? 8202)) || (c =? 8232) || (c =? 8233)
   || (c =? 8239) || (c =? 8287) || (c =? 12288) || (c =? 65279))%N.

(** ASCII case mapping.  [toLowerCase] and [toUpperCase] are only ever
    applied to the rewritten text and to pieces of the normalized text,
    which are made of ASCII code units (see [preprocessText_alphabet] and
    [normalized_alphabet] below); there the Unicode mapping coincides with
    this one. *)
Definition lowerChar (c : char) : char := if isUpper c then (c + 32)%N else c.
Definition upperChar (c : char) : char := if isLower c then (c - 32)%N else c.

Definition toLowerCase (s : jsstring) : jsstring := List.map lowerChar s.
Definition toUpperCase (s : jsstring) : jsstring := List.map upperChar s.

(** *** String methods *)

Fixpoint eqs (a b : jsstring) : bool :=
  match a, b with
  | [], [] => true
  | x :: a', y :: b' => (x =? y)%N && eqs a' b'
  | _, _ => false
  end.

Fixpoint startsWith (s p : jsstring) : bool :=
  match p, s with
  | [], _ => true
  | y :: p', x :: s' => (x =? y)%N && startsWith s' p'
  | _ :: _, [] => false
  end.

Definition endsWith (s p : jsstring) : bool := startsWith (rev s) (rev p).

Fixpoint includes (s p : jsstring) : bool :=
  startsWith s p || match s with [] => false | _ :: s' => includes s' p end.

(** [s.indexOf(p)]: index of the first occurrence, or -1. *)
Fixpoint indexOfFrom (i : Z) (s p : jsstring) : Z :=
  if startsWith s p then i
  else match s with
       | [] => (-1)%Z
       | _ :: s' => indexOfFrom (i + 1) s' p
       end.

Definition indexOf (s p : jsstring) : Z := indexOfFrom 0 s p.

(** [s.substring(a, b)]: arguments are clamped to [0, length] and swapped
    when out of order. *)
Definition clampIdx (s : jsstring) (i : Z) : nat :=
  Nat.min (Z.to_nat i) (List.length s).

Definition substring (s : jsstring) (a b : Z) : jsstring :=
  let a' := clampIdx s a in
  let b' := clampIdx s b in
  let lo := Nat.min a' b' in
  let hi := Nat.max a' b' in
  firstn (hi - lo) (skipn lo s).

(** [s.slice(-1)]: the last code unit, as a string. *)
Definition sliceLast (s : jsstring) : jsstring :=
  match rev s with
  | [] => []
  | x :: _ => [x]
  end.

(** [s.split(sep)] for a one-character separator. *)
Fixpoint splitOn (sep : char) (s : jsstring) : list jsstring :=
  match s with
  | [] => [[]]
  | x :: s' =>
      if (x =? sep)%N then [] :: splitOn sep s'
      else match splitOn sep s' with
           | [] => [[x]]
           | w :: ws => (x :: w) :: ws
           end
  end.

(** [s.padStart(n, "0")]. *)
Definition padStart0 (n : nat) (s : jsstring) : jsstring :=
  repeat 48%N (n - List.length s) ++ s.

(** *** Numbers

    Every finite number this program manipulates is a non-negative decimal
    with a handful of digits (it is read from at most two decimal digits
    before and two after a point, or from at most three digits), so the
    binary double that JavaScript stores is determined by, and prints back
    as, that decimal.  A number is therefore [NaN] or the decimal
    [m * 10^-e], kept with [e] minimal. *)

Inductive number : Type :=
| NaN
| Dec (m : N) (e : nat).

Definition int (n : N) : number := Dec n 0.

Definition pow10 (e : nat) : N := (10 ^ N.of_nat e)%N.

Fixpoint normalize (m : N) (e : nat) : number :=
  match e with
  | O => Dec m 0
  | S e' => if (m mod 10 =? 0)%N then normalize (m / 10) e' else Dec m e
  end.

(** Comparisons; every comparison with [NaN] is false. *)
Definition leb (a b : number) : bool :=
  match a, b with
  | Dec m1 e1, Dec m2 e2 => (m1 * pow10 e2 <=? m2 * pow10 e1)%N
  | _, _ => false
  end.

Definition ltb (a b : number) : bool :=
  match a, b with
  | Dec m1 e1, Dec m2 e2 => (m1 * pow10 e2 <? m2 * pow10 e1)%N
  | _, _ => false
  end.

Definition geb (a b : number) : bool := leb b a.
Definition gtb (a b : number) : bool := ltb b a.

(** [a === b] on numbers. *)
Definition strictEq (a b : number) : bool :=
  match a, b with
  | Dec m1 e1, Dec m2 e2 => (m1 * pow10 e2 =? m2 * pow10 e1)%N
  | _, _ => false
  end.

(** SameValueZero, the equality of [Array.prototype.includes]. *)
Definition sameValueZero (a b : number) : bool :=
  match a, b with
  | NaN, NaN => true
  | _, _ => strictEq a b
  end.

Definition arrIncludes (l : list number) (x : number) : bool :=
  existsb (sameValueZero x) l.

(** Truthiness of a number: neither [NaN] nor zero. *)
Definition truthy (a : number) : bool :=
  match a with
  | NaN => false
  | Dec m _ => negb (m =? 0)%N
  end.

Definition falsy (a : number) : bool := negb (truthy a).

(** [lo <= v && v <= hi] with integer bounds. *)
Definition between (lo hi : N) (v : number) : bool :=
  geb v (int lo) && leb v (int hi).

(** Sign of [a - b] as used by sort comparators ([NaN] counts as 0). *)
Definition subSign (a b : number) : Z :=
  match a, b with
  | Dec m1 e1, Dec m2 e2 => (Z.of_N (m1 * pow10 e2) - Z.of_N (m2 * pow10 e1))%Z
  | _, _ => 0%Z
  end.

(** *** [Number(string)]

    Leading and trailing white space is dropped; the empty string is 0;
    [digits], [digits.], [.digits] and [digits.digits] are decimals; any
    other text is [NaN].  Signs, exponents, radix prefixes and [Infinity]
    are not modelled: every argument the program passes to [Number] is a
    regular-expression match made of digits, letters and separators in
    which those forms cannot occur. *)

Fixpoint dropWhile (p : char -> bool) (s : jsstring) : jsstring :=
  match s with
  | [] => []
  | x :: s' => if p x then dropWhile p s' else s
  end.

Definition trim (s : jsstring) : jsstring :=
  rev (dropWhile isSpace (rev (dropWhile isSpace s))).

Fixpoint span (p : char -> bool) (s : jsstring) : jsstring * jsstring :=
  match s with
  | [] => ([], [])
  | x :: s' => if p x then let (a, b) := span p s' in (x :: a, b)
               else ([], s)
  end.

Definition digitsValue (s : jsstring) : N :=
  fold_left (fun acc c => (acc * 10 + (c - 48))%N) s 0%N.

Definition Number (s : jsstring) : number :=
  match trim s with
  | [] => int 0
  | t =>
      let (ip, rest) := span isDigit t in
      match rest with
      | [] => int (digitsValue ip)
      | dot :: fp =>
          if (dot =? 46)%N && forallb isDigit fp
             && negb (Nat.eqb (List.length ip + List.length fp) 0)
          then normalize (digitsValue (ip ++ fp)) (List.length fp)
          else NaN
      end
  end.

(** [Number(x)] where [x] may be [undefined]. *)
Definition NumberOpt (o : option jsstring) : number :=
  match o with
  | Some s => Number s
  | None => NaN
  end.

(** *** [Number.prototype.toString] *)

Fixpoint uintChars (u : Decimal.uint) : jsstring :=
  match u with
  | Decimal.Nil => []
  | Decimal.D0 u' => 48%N :: uintChars u'
  | Decimal.D1 u' => 49%N :: uintChars u'
  | Decimal.D2 u' => 50%N :: uintChars u'
  | Decimal.D3 u' => 51%N :: uintChars u'
  | Decimal.D4 u' => 52%N :: uintChars u'
  | Decimal.D5 u' => 53%N :: uintChars u'
  | Decimal.D6 u' => 54%N :: uintChars u'
  | Decimal.D7 u' => 55%N :: uintChars u'
  | Decimal.D8 u' => 56%N :: uintChars u'
  | Decimal.D9 u' => 57%N :: uintChars u'
  end.

Definition natString (n : N) : jsstring := uintChars (N.to_uint n).

Definition toString (a : number) : jsstring :=
  match a with
  | NaN => str "NaN"
  | Dec m O => natString m
  | Dec m e =>
      natString (m / pow10 e) ++ [46%N]
        ++ padStart0 e (natString (m mod pow10 e))
  end.

(** *** Array helpers *)

(** Stable sort by a comparator, as [Array.prototype.sort] performs for a
    consistent comparator. *)
Fixpoint insertBy (cmp : number -> number -> Z) (x : number)
    (l : list number) : list number :=
  match l with
  | [] => [x]
  | y :: l' => if (0 <? cmp x y)%Z then y :: insertBy cmp x l' else x :: l
  end.

Fixpoint sortBy (cmp : number -> number -> Z) (l : list number)
    : list number :=
  match l with
  | [] => []
  | x :: l' => insertBy cmp x (sortBy cmp l')
  end.

(** [a[i]]: [undefined] ([None]) outside the array. *)
Definition idx {A} (l : list A) (i : nat) : option A := nth_error l i.

(** Reading a number out of an array slot; [undefined] compares as [NaN]
    and is falsy, which is all the program does with such a slot. *)
Definition numAt (l : list number) (i : nat) : number :=
  match nth_error l i with
  | Some v => v
  | None => NaN
  end.

End Js.

(** ** Regular expressions

    The fragment of ECMAScript regular expressions the program uses:
    character classes, greedy quantifiers over a character class,
    concatenation, ordered alternation, capture groups and the word
    boundary [\b].  Matching is the backtracking search of the language
    definition, written in continuation-passing style: alternatives are
    tried left to right, quantifiers take as much as they can and give
    back one character at a time. *)

Module Regex.

Inductive regex : Type :=
| Eps
| Chr (p : char -> bool)
| Seq (r1 r2 : regex)
| Alt (r1 r2 : regex)
| Rep (lo : nat) (hi : option nat) (p : char -> bool)
| Grp (i : nat) (r : regex)
| Bnd.

(** A position in the subject: the text before it (nearest character
    first) and the text after it. *)
Record cursor : Type := Cur { before : jsstring; after : jsstring }.

Definition captures := list (nat * jsstring).

Definition wordAt (s : jsstring) : bool :=
  match s with
  | x :: _ => Js.isWordChar x
  | [] => false
  end.

Definition atBoundary (c : cursor) : bool :=
  xorb (wordAt (before c)) (wordAt (after c)).

(** Text between two positions of the same subject. *)
Definition textBetween (c c' : cursor) : jsstring :=
  rev (firstn (List.length (before c') - List.length (before c)) (before c')).

Section Matcher.

Variable A : Type.

Fixpoint rep (p : char -> bool) (lo : nat) (hi : option nat)
    (l r : jsstring) (k : cursor -> option A) {struct r} : option A :=
  let stop := match lo with O => k (Cur l r) | S _ => None end in
  match hi with
  | Some O => stop
  | _ =>
      match r with
      | x :: r' =>
          if p x then
            match rep p (Nat.pred lo) (option_map Nat.pred hi) (x :: l) r' k with
            | Some a => Some a
            | None => stop
            end
          else stop
      | [] => stop
      end
  end.

Fixpoint run (r : regex) (c : cursor) (cs : captures)
    (k : cursor -> captures -> option A) {struct r} : option A :=
  match r with
  | Eps => k c cs
  | Chr p =>
      match after c with
      | x :: xs => if p x then k (Cur (x :: before c) xs) cs else None
      | [] => None
      end
  | Seq r1 r2 => run r1 c cs (fun c' cs' => run r2 c' cs' k)
  | Alt r1 r2 =>
      match run r1 c cs k with
      | Some a => Some a
      | None => run r2 c cs k
      end
  | Rep lo hi p => rep p lo hi (before c) (after c) (fun c' => k c' cs)
  | Grp i r1 => run r1 c cs (fun c' cs' => k c' ((i, textBetween c c') :: cs'))
  | Bnd => if atBoundary c then k c cs else None
  end.

End Matcher.

(** One successful match: where it starts, where it ends, what the groups
    captured. *)
Record found : Type :=
  Found { mstart : cursor; mend : cursor; mcaps : captures }.

Definition matchAt (r : regex) (c : cursor) : option found :=
  run r c [] (fun c' cs => Some (Found c c' cs)).

Definition mtext (m : found) : jsstring := textBetween (mstart m) (mend m).
Definition mlen (m : found) : nat := List.length (mtext m).

Fixpoint lookupCap (i : nat) (cs : captures) : option jsstring :=
  match cs with
  | [] => None
  | (j, s) :: cs' => if Nat.eqb i j then Some s else lookupCap i cs'
  end.

(** Number of capture groups of a pattern. *)
Fixpoint groups (r : regex) : nat :=
  match r with
  | Seq r1 r2 | Alt r1 r2 => Nat.max (groups r1) (groups r2)
  | Grp i r1 => Nat.max i (groups r1)
  | _ => O
  end.

(** The match array [[whole, group 1, ..., group n]]; a group that took no
    part in the match is [undefined]. *)
Definition marray := list (option jsstring).

Definition toArray (r : regex) (m : found) : marray :=
  Some (mtext m) :: List.map (fun i => lookupCap i (mcaps m)) (seq 1 (groups r)).

(** [m[i]], [undefined] when absent. *)
Definition grp (m : marray) (i : nat) : option jsstring :=
  match nth_error m i with
  | Some o => o
  | None => None
  end.

(** Leftmost match at or after a position. *)
Fixpoint search (r : regex) (l rt : jsstring) {struct rt} : option found :=
  match matchAt r (Cur l rt) with
  | Some m => Some m
  | None =>
      match rt with
      | [] => None
      | x :: rt' => search r (x :: l) rt'
      end
  end.

(** [s.match(re)] for a pattern without the [g] flag. *)
Definition exec (r : regex) (s : jsstring) : option marray :=
  option_map (toArray r) (search r [] s).

(** Successive matches of a pattern with the [g] flag.  After a match of
    [n > 0] characters the next attempt starts where it ended ([skip]
    counts the characters still to step over); after an empty match the
    search resumes one character further. *)
Fixpoint scan (r : regex) (skip : nat) (l rt : jsstring) {struct rt}
    : list found :=
  match skip with
  | S n =>
      match rt with
      | [] => []
      | x :: rt' => scan r n (x :: l) rt'
      end
  | O =>
      match matchAt r (Cur l rt) with
      | Some m =>
          m :: match rt with
               | [] => []
               | x :: rt' => scan r (Nat.pred (mlen m)) (x :: l) rt'
               end
      | None =>
          match rt with
          | [] => []
          | x :: rt' => scan r O (x :: l) rt'
          end
      end
  end.

(** [s.match(re)] for a pattern with the [g] flag: the matched texts, or
    [null]. *)
Definition matchG (r : regex) (s : jsstring) : option (list jsstring) :=
  match scan r O [] s with
  | [] => None
  | ms => Some (List.map mtext ms)
  end.

(** [s.match(re) || []]. *)
Definition matchGOr (r : regex) (s : jsstring) : list jsstring :=
  match matchG r s with
  | Some l => l
  | None => []
  end.

(** [[...s.matchAll(re)]]. *)
Definition matchAll (r : regex) (s : jsstring) : list marray :=
  List.map (toArray r) (scan r O [] s).

(** [s.replace(re, f)] for a pattern with the [g] flag; [f] builds the
    replacement text from the match. *)
Fixpoint replaceFrom (r : regex) (f : marray -> jsstring) (skip : nat)
    (l rt : jsstring) {struct rt} : jsstring :=
  match skip with
  | S n =>
      match rt with
      | [] => []
      | x :: rt' => replaceFrom r f n (x :: l) rt'
      end
  | O =>
      match matchAt r (Cur l rt) with
      | Some m =>
          f (toArray r m)
            ++ match rt with
               | [] => []
               | x :: rt' =>
                   (if Nat.eqb (mlen m) 0 then [x] else [])
                     ++ replaceFrom r f (Nat.pred (mlen m)) (x :: l) rt'
               end
      | None =>
          match rt with
          | [] => []
          | x :: rt' => x :: replaceFrom r f O (x :: l) rt'
          end
      end
  end.

Definition replaceG (r : regex) (f : marray -> jsstring) (s : jsstring)
    : jsstring :=
  replaceFrom r f O [] s.

(** [s.replace(re, f)] without the [g] flag: only the first match. *)
Definition replace1 (r : regex) (f : marray -> jsstring) (s : jsstring)
    : jsstring :=
  match search r [] s with
  | Some m =>
      rev (before (mstart m)) ++ f (toArray r m) ++ after (mend m)
  | None => s
  end.

(** *** Pattern syntax *)

Definition isChar (a : char) : char -> bool := fun c => (c =? a)%N.

(** A letter of a pattern with the [i] flag matches both cases; other
    characters match themselves. *)
Definition isCharI (a : char) : char -> bool :=
  fun c => (Js.lowerChar c =? Js.lowerChar a)%N.

Definition oneOf (l : jsstring) : char -> bool :=
  fun c => existsb (N.eqb c) l.

Definition oneOfI (l : jsstring) : char -> bool :=
  fun c => existsb (fun a => isCharI a c) l.

Fixpoint seqOf (rs : list regex) : regex :=
  match rs with
  | [] => Eps
  | [r] => r
  | r :: rs' => Seq r (seqOf rs')
  end.

Fixpoint altOf (rs : list regex) : regex :=
  match rs with
  | [] => Eps
  | [r] => r
  | r :: rs' => Alt r (altOf rs')
  end.

(** Literal text, case-sensitive and case-insensitive. *)
Definition lit (s : string) : regex := seqOf (List.map (fun a => Chr (isChar a)) (str s)).
Definition ilit (s : string) : regex := seqOf (List.map (fun a => Chr (isCharI a)) (str s)).

(** [(?:a|b|c)] with the [i] flag. *)
Definition ialt (l : list string) : regex := altOf (List.map ilit l).

Definition digit := Js.isDigit.
Definition space := Js.isSpace.

(** [\d{1,2}], [\d{2,3}], [\d{2}], [\d{3}], [\d], [\s*], [\s+]. *)
Definition d12 : regex := Rep 1 (Some 2) digit.
Definition d23 : regex := Rep 2 (Some 3) digit.
Definition d2 : regex := Rep 2 (Some 2) digit.
Definition d3 : regex := Rep 3 (Some 3) digit.
Definition d1 : regex := Chr digit.
Definition ws : regex := Rep 0 None space.
Definition ws1 : regex := Rep 1 None space.

(** [p?] for a character class. *)
Definition opt (p : char -> bool) : regex := Rep 0 (Some 1) p.

End Regex.

Import Regex.

Infix "+>" := Seq (at level 61, right associativity).

(** ** The normalizer: [preprocessText] *)

(** Replacement text [$1]: the first group, empty when it is undefined. *)
Definition dollar1 (m : marray) : jsstring :=
  match grp m 1 with
  | Some s => s
  | None => []
  end.

Definition constant (s : string) : marray -> jsstring := fun _ => str s.

(** [[^\w\s\/\-\:\.]] *)
Definition noiseChar (c : char) : bool :=
  negb (Js.isWordChar c || Js.isSpace c || oneOf (str "/-:.") c).

Definition reSpaces : regex := ws1.
Definition reNoise : regex := Chr noiseChar.
Definition reLeadingZero : regex := Bnd +> lit "0" +> Grp 1 d1 +> Bnd.
Definition reSysNum : regex := Bnd +> ilit "sys" +> Grp 1 d23 +> Bnd.
Definition reDiaNum : regex := Bnd +> ilit "dia" +> Grp 1 d23 +> Bnd.
Definition reSNum : regex := Bnd +> ilit "s" +> Grp 1 d23 +> Bnd.
Definition reDNum : regex := Bnd +> ilit "d" +> Grp 1 d23 +> Bnd.
Definition reMinig : regex := Bnd +> ilit "minig" +> Bnd.
Definition reOnePlus : regex := Bnd +> lit "1+" +> Bnd.
Definition rePlus : regex := Bnd +> lit "+" +> Bnd.
Definition rePercent : regex := Bnd +> lit "%" +> Bnd.
Definition reCm : regex := Bnd +> ilit "cm" +> Bnd.
Definition reC1 : regex := Bnd +> ilit "c1" +> Bnd.
Definition reC9 : regex := Bnd +> ilit "c9" +> Bnd.
Definition reMid : regex := Bnd +> ilit "mid" +> Bnd.

(** The chain of [replace] calls of the source, in order (the first rule
    is applied first), followed by [toLowerCase]. *)
Definition rewriteRules : list (regex * (marray -> jsstring)) :=
  [ (reSpaces, constant " ");
    (reNoise, constant " ");
    (reLeadingZero, dollar1);
    (reSysNum, fun m => str "sys " ++ dollar1 m);
    (reDiaNum, fun m => str "dia " ++ dollar1 m);
    (reSNum, fun m => str "s " ++ dollar1 m);
    (reDNum, fun m => str "d " ++ dollar1 m);
    (reMinig, constant "mmhg");
    (reOnePlus, constant "");
    (rePlus, constant "");
    (rePercent, constant "");
    (reCm, constant "7m");
    (reC1, constant "7m");
    (reC9, constant "7m");
    (reMid, constant "7m") ].

Definition applyRules (rules : list (regex * (marray -> jsstring)))
    (text : jsstring) : jsstring :=
  fold_left (fun t rule => replaceG (fst rule) (snd rule) t) rules text.

Definition preprocessText (text : jsstring) : jsstring :=
  Js.toLowerCase (applyRules rewriteRules text).

(** ** The pattern tables of [extractDataFromText] *)

(** A pattern keeps its source text, which the month loop inspects
    ([pattern.source]). *)
Record pattern : Type := Pat { source : string; re : regex }.

Definition slash : regex := lit "/".
Definition dash : regex := lit "-".
Definition colon : regex := lit ":".
Definition dot : regex := lit ".".

(** [[:-]?] *)
Definition sepOpt : regex := opt (oneOf (str ":-")).

Module patterns.

Definition month : list pattern :=
  [ Pat "\b(\d{1,2})\s*(?:month|mo|m)\b"
      (Bnd +> Grp 1 d12 +> ws +> ialt ["month"; "mo"; "m"] +> Bnd);
    Pat "\b(?:month|mo|m)\s*(\d{1,2})\b"
      (Bnd +> ialt ["month"; "mo"; "m"] +> ws +> Grp 1 d12 +> Bnd);
    Pat "\b(\d{1,2})m\b"
      (Bnd +> Grp 1 d12 +> ilit "m" +> Bnd);
    Pat "\b(?:cm|7m|mid)\b"
      (Bnd +> ialt ["cm"; "7m"; "mid"] +> Bnd);
    Pat "\b(\d{1,2})\s*\/\s*\d{1,2}\b"
      (Bnd +> Grp 1 d12 +> ws +> slash +> ws +> d12 +> Bnd);
    Pat "\b(\d{1,2})\s*-\s*\d{1,2}\b"
      (Bnd +> Grp 1 d12 +> ws +> dash +> ws +> d12 +> Bnd) ].

Definition day : list pattern :=
  [ Pat "\b(\d{1,2})\s*(?:day|d)\b"
      (Bnd +> Grp 1 d12 +> ws +> ialt ["day"; "d"] +> Bnd);
    Pat "\b(?:day|d)\s*(\d{1,2})\b"
      (Bnd +> ialt ["day"; "d"] +> ws +> Grp 1 d12 +> Bnd);
    Pat "\b(\d{1,2})d\b"
      (Bnd +> Grp 1 d12 +> ilit "d" +> Bnd);
    Pat "\b(\d{1,2})\s*\/\s*\d{1,2}\b"
      (Bnd +> Grp 1 d12 +> ws +> slash +> ws +> d12 +> Bnd);
    Pat "\b(\d{1,2})\s*-\s*\d{1,2}\b"
      (Bnd +> Grp 1 d12 +> ws +> dash +> ws +> d12 +> Bnd) ].

Definition time : list pattern :=
  [ Pat "\b(\d{1,2}):(\d{2})\s*(am|pm)\b"
      (Bnd +> Grp 1 d12 +> colon +> Grp 2 d2 +> ws
           +> Grp 3 (ialt ["am"; "pm"]) +> Bnd);
    Pat "\b(\d{1,2}):(\d{2})\b"
      (Bnd +> Grp 1 d12 +> colon +> Grp 2 d2 +> Bnd);
    Pat "\b(\d{1,2})\s*(am|pm)\b"
      (Bnd +> Grp 1 d12 +> ws +> Grp 2 (ialt ["am"; "pm"]) +> Bnd);
    Pat "\b(am|pm)\s*(\d{1,2}):(\d{2})\b"
      (Bnd +> Grp 1 (ialt ["am"; "pm"]) +> ws +> Grp 2 d12 +> colon
           +> Grp 3 d2 +> Bnd);
    Pat "\b(\d{1,2})\.(\d{2})\s*(am|pm)\b"
      (Bnd +> Grp 1 d12 +> dot +> Grp 2 d2 +> ws
           +> Grp 3 (ialt ["am"; "pm"]) +> Bnd) ].

Definition systolic : list pattern :=
  [ Pat "\b(?:systolic|sys|s)\s*[:-]?\s*(\d{2,3})\b"
      (Bnd +> ialt ["systolic"; "sys"; "s"] +> ws +> sepOpt +> ws
           +> Grp 1 d23 +> Bnd);
    Pat "\b(?:systolic|sys|s)(\d{2,3})\b"
      (Bnd +> ialt ["systolic"; "sys"; "s"] +> Grp 1 d23 +> Bnd);
    Pat "\b(\d{2,3})\s*\/\s*\d{2,3}\b"
      (Bnd +> Grp 1 d23 +> ws +> slash +> ws +> d23 +> Bnd);
    Pat "\b(\d{2,3})\s*(?:systolic|sys|s)\b"
      (Bnd +> Grp 1 d23 +> ws +> ialt ["systolic"; "sys"; "s"] +> Bnd);
    Pat "\b(?:bp|blood pressure)\s*(\d{2,3})\s*\/\s*\d{2,3}\b"
      (Bnd +> ialt ["bp"; "blood pressure"] +> ws +> Grp 1 d23 +> ws
           +> slash +> ws +> d23 +> Bnd);
    Pat "\b(?:top|upper)\s*(\d{2,3})\b"
      (Bnd +> ialt ["top"; "upper"] +> ws +> Grp 1 d23 +> Bnd) ].

Definition diastolic : list pattern :=
  [ Pat "\b(?:diastolic|dia|d)\s*[:-]?\s*(\d{2,3})\b"
      (Bnd +> ialt ["diastolic"; "dia"; "d"] +> ws +> sepOpt +> ws
           +> Grp 1 d23 +> Bnd);
    Pat "\b(?:diastolic|dia|d)(\d{2,3})\b"
      (Bnd +> ialt ["diastolic"; "dia"; "d"] +> Grp 1 d23 +> Bnd);
    Pat "\b\d{2,3}\s*\/\s*(\d{2,3})\b"
      (Bnd +> d23 +> ws +> slash +> ws +> Grp 1 d23 +> Bnd);
    Pat "\b(\d{2,3})\s*(?:diastolic|dia|d)\b"
      (Bnd +> Grp 1 d23 +> ws +> ialt ["diastolic"; "dia"; "d"] +> Bnd);
    Pat "\b(?:bp|blood pressure)\s*\d{2,3}\s*\/\s*(\d{2,3})\b"
      (Bnd +> ialt ["bp"; "blood pressure"] +> ws +> d23 +> ws
           +> slash +> ws +> Grp 1 d23 +> Bnd);
    Pat "\b(?:bottom|lower)\s*(\d{2,3})\b"
      (Bnd +> ialt ["bottom"; "lower"] +> ws +> Grp 1 d23 +> Bnd) ].

Definition pulse : list pattern :=
  [ Pat "\b(?:pulse|pul|p)\s*[:-]?\s*(\d{2,3})\s*(?:bpm|min|\/min)\b"
      (Bnd +> ialt ["pulse"; "pul"; "p"] +> ws +> sepOpt +> ws
           +> Grp 1 d23 +> ws +> ialt ["bpm"; "min"; "/min"] +> Bnd);
    Pat "\b(\d{2,3})\s*(?:bpm|pulse|pul|p)\b"
      (Bnd +> Grp 1 d23 +> ws +> ialt ["bpm"; "pulse"; "pul"; "p"] +> Bnd);
    Pat "\b(?:heart rate|hr)\s*[:-]?\s*(\d{2,3})\b"
      (Bnd +> ialt ["heart rate"; "hr"] +> ws +> sepOpt +> ws
           +> Grp 1 d23 +> Bnd);
    Pat "\b(\d{2,3})\s*(?:bpm|\/min)\b"
      (Bnd +> Grp 1 d23 +> ws +> ialt ["bpm"; "/min"] +> Bnd);
    Pat "\b(?:rate|r)\s*(\d{2,3})\b"
      (Bnd +> ialt ["rate"; "r"] +> ws +> Grp 1 d23 +> Bnd) ].

Definition period : list pattern :=
  [ Pat "\b(am|pm)\b"
      (Bnd +> Grp 1 (ialt ["am"; "pm"]) +> Bnd);
    Pat "\b(?:morning|am)\b"
      (Bnd +> ialt ["morning"; "am"] +> Bnd);
    Pat "\b(?:afternoon|pm)\b"
      (Bnd +> ialt ["afternoon"; "pm"] +> Bnd);
    Pat "\b(?:a\.m\.|p\.m\.)\b"
      (Bnd +> ialt ["a.m."; "p.m."] +> Bnd) ].

End patterns.

(** Regular expressions written inline in the body. *)

(** [/\b(\d{1,2})\b/g], [/\b(\d{2,3})\b/g] (also written without the
    group), [/\b(\d{3})\b/g], [/\b(\d{2})\b/g], [/\b\d{1,2}:\d{2}\b/g]. *)
Definition reNum12 : regex := Bnd +> Grp 1 d12 +> Bnd.
Definition reNum23 : regex := Bnd +> Grp 1 d23 +> Bnd.
Definition reNum23' : regex := Bnd +> d23 +> Bnd.
Definition reNum3 : regex := Bnd +> Grp 1 d3 +> Bnd.
Definition reNum2 : regex := Bnd +> Grp 1 d2 +> Bnd.
Definition reClock : regex := Bnd +> d12 +> colon +> d2 +> Bnd.

(** [/\b(\d{1,2})[md]\b/gi] and [/[md]/i]. *)
Definition reDateToken : regex :=
  Bnd +> Grp 1 d12 +> Chr (oneOfI (str "md")) +> Bnd.
Definition reMD : regex := Chr (oneOfI (str "md")).

Definition combinedDatePatterns : list regex :=
  [ (* /\b(\d{1,2})m\s*(\d{1,2})d\b/gi *)
    Bnd +> Grp 1 d12 +> ilit "m" +> ws +> Grp 2 d12 +> ilit "d" +> Bnd;
    (* /\b(\d{1,2})m(\d{1,2})d\b/gi *)
    Bnd +> Grp 1 d12 +> ilit "m" +> Grp 2 d12 +> ilit "d" +> Bnd;
    (* /\b(\d{1,2})\s*\/\s*(\d{1,2})\b/gi *)
    Bnd +> Grp 1 d12 +> ws +> slash +> ws +> Grp 2 d12 +> Bnd;
    (* /\b(\d{1,2})-(\d{1,2})\b/gi *)
    Bnd +> Grp 1 d12 +> dash +> Grp 2 d12 +> Bnd;
    (* /\b(\d{1,2})\s+(\d{1,2})\b/gi *)
    Bnd +> Grp 1 d12 +> ws1 +> Grp 2 d12 +> Bnd ].

Definition dateLikePatterns : list regex :=
  [ (* /\b(\d{1,2})[\/\-](\d{1,2})\b/gi *)
    Bnd +> Grp 1 d12 +> Chr (oneOf (str "/-")) +> Grp 2 d12 +> Bnd;
    (* /\b(\d{1,2})\s+(\d{1,2})\b/gi *)
    Bnd +> Grp 1 d12 +> ws1 +> Grp 2 d12 +> Bnd ].

Definition combinedPatterns : list regex :=
  [ (* /(\d{1,2})m(\d{1,2})d/i *)
    Grp 1 d12 +> ilit "m" +> Grp 2 d12 +> ilit "d";
    (* /(\d{1,2})m\s*(\d{1,2})d/i *)
    Grp 1 d12 +> ilit "m" +> ws +> Grp 2 d12 +> ilit "d";
    (* /(\d{1,2})\s*m\s*(\d{1,2})\s*d/i *)
    Grp 1 d12 +> ws +> ilit "m" +> ws +> Grp 2 d12 +> ws +> ilit "d" ].

(** [/\b(\d{1,2})\s*m\s*(\d{1,2})\s*d\b/i] *)
Definition monthDayPattern : regex :=
  Bnd +> Grp 1 d12 +> ws +> ilit "m" +> ws +> Grp 2 d12 +> ws +> ilit "d"
      +> Bnd.

Definition timeLikePatterns : list regex :=
  [ (* /\b(\d{1,2}):(\d{2})\b/gi *)
    Bnd +> Grp 1 d12 +> colon +> Grp 2 d2 +> Bnd;
    (* /\b(\d{1,2})\.(\d{2})\b/gi *)
    Bnd +> Grp 1 d12 +> dot +> Grp 2 d2 +> Bnd;
    (* /\b(\d{1,2})\s+(\d{2})\b/gi *)
    Bnd +> Grp 1 d12 +> ws1 +> Grp 2 d2 +> Bnd;
    (* /\b(\d{1,2})h(\d{2})m\b/gi *)
    Bnd +> Grp 1 d12 +> ilit "h" +> Grp 2 d2 +> ilit "m" +> Bnd ].

Definition sysPatterns : list regex :=
  [ (* /sys(\d{2,3})\b/i *)
    ilit "sys" +> Grp 1 d23 +> Bnd;
    (* /sys\s*(\d{2,3})\b/i *)
    ilit "sys" +> ws +> Grp 1 d23 +> Bnd;
    (* /sys:(\d{2,3})\b/i *)
    ilit "sys" +> colon +> Grp 1 d23 +> Bnd;
    (* /sys\s*:\s*(\d{2,3})\b/i *)
    ilit "sys" +> ws +> colon +> ws +> Grp 1 d23 +> Bnd ].

Definition diaPatterns : list regex :=
  [ (* /dia(\d{2,3})\b/i *)
    ilit "dia" +> Grp 1 d23 +> Bnd;
    (* /dia\s*(\d{2,3})\b/i *)
    ilit "dia" +> ws +> Grp 1 d23 +> Bnd;
    (* /dia:(\d{2,3})\b/i *)
    ilit "dia" +> colon +> Grp 1 d23 +> Bnd;
    (* /dia\s*:\s*(\d{2,3})\b/i *)
    ilit "dia" +> ws +> colon +> ws +> Grp 1 d23 +> Bnd ].

(** [/\b(\d{2,3})\s*%\b/i] *)
Definition percentagePattern : regex :=
  Bnd +> Grp 1 d23 +> ws +> lit "%" +> Bnd.

(** The constant lookup tables, in [Object.entries] order (insertion
    order: no key is an array index). *)
Definition monthMisreads : list (string * Js.number) :=
  [ ("tm", Js.int 7); ("t1", Js.int 7); ("t2", Js.int 7) ]%string.

Definition ocrDateCorrections : list (string * Js.number) :=
  [ ("cm", Js.int 7); ("c1", Js.int 7); ("c9", Js.int 7); ("mid", Js.int 7);
    ("1d", Js.int 1); ("9d", Js.int 9); ("13d", Js.int 13) ]%string.

Definition ocrMisreads : list (string * Js.number) :=
  [ ("coc", Js.int 71); ("c0c", Js.int 70); ("c1c", Js.int 71) ]%string.

(** ** The body of [extractDataFromText] *)

Import Js.

(** [`${hour.toString().padStart(2, '0')}:${minute.toString().padStart(2, '0')}`] *)
Definition formatTime (hour minute : number) : jsstring :=
  padStart0 2 (toString hour) ++ str ":" ++ padStart0 2 (toString minute).

(** [time.split(':').map(Number)] destructured into [[hours, minutes]]. *)
Definition clockParts (time : jsstring) : list number :=
  let parts := List.map Number (splitOn 58%N time) in
  [numAt parts 0; numAt parts 1].

(** The comparator that sorts month-sized values first. *)
Definition dateCmp (a b : number) : Z :=
  let aIsMonth := between 1 12 a in
  let bIsMonth := between 1 12 b in
  if aIsMonth && negb bIsMonth then (-1)%Z
  else if negb aIsMonth && bIsMonth then 1%Z
  else subSign a b.

(** [x || ""] on a possibly undefined string. *)
Definition orEmpty (o : option jsstring) : jsstring :=
  match o with
  | Some s => s
  | None => []
  end.

Definition nonEmpty (s : jsstring) : bool :=
  match s with
  | [] => false
  | _ => true
  end.

Section Body.

(** The normalized text every stage closes over. *)
Variable processedText : jsstring.

(** [[...].filter(n => n > 0)] *)
Definition positive (l : list number) : list number :=
  filter (fun n => gtb n (int 0)) l.

(** [(processedText.match(re) || []).map(n => Number(n))] *)
Definition numbersOf (r : regex) : list number :=
  List.map Number (matchGOr r processedText).

(** [(processedText.match(/\b\d{1,2}:\d{2}\b/g) || []).flatMap(...)] *)
Definition timeValues : list number :=
  flat_map clockParts (matchGOr reClock processedText).

(** *** Month and day *)

Fixpoint monthLoop (ps : list pattern) (month : number) : number :=
  match ps with
  | [] => month
  | p :: ps' =>
      match exec (re p) processedText with
      | Some m =>
          if includes (str (source p)) (str "cm|7m|mid") then int 7
          else
            let month := NumberOpt (grp m 1) in
            if between 1 12 month then month else monthLoop ps' month
      | None => monthLoop ps' month
      end
  end.

Fixpoint dayLoop (ps : list pattern) (day : number) : number :=
  match ps with
  | [] => day
  | p :: ps' =>
      match exec (re p) processedText with
      | Some m =>
          let day := NumberOpt (grp m 1) in
          if between 1 31 day then day else dayLoop ps' day
      | None => dayLoop ps' day
      end
  end.

(** First pass: explicit [Nm] / [Nd] tokens. *)
Definition datePass1 (md : number * number) : number * number :=
  match matchG reDateToken processedText with
  | Some dateMatches =>
      fold_left
        (fun (acc : number * number) (mt : jsstring) =>
           let (month, day) := acc in
           let number := replace1 reMD (constant "") mt in
           let type := toLowerCase (sliceLast mt) in
           let value := Number number in
           if eqs type (str "m") && between 1 12 value && falsy month
           then (value, day)
           else if eqs type (str "d") && between 1 31 value && falsy day
           then (month, value)
           else (month, day))
        dateMatches md
  | None => md
  end.

(** Second pass: combined date patterns.  The patterns carry the [g]
    flag, so [match[1]] and [match[2]] are the second and third matched
    texts, not capture groups. *)
Fixpoint datePass2Loop (ps : list regex) (month day : number)
    : number * number :=
  match ps with
  | [] => (month, day)
  | p :: ps' =>
      match matchG p processedText with
      | Some mt =>
          let first := NumberOpt (idx mt 1) in
          let second := NumberOpt (idx mt 2) in
          if between 1 12 first && between 1 31 second then
            ((if falsy month then first else month),
             (if falsy day then second else day))
          else if between 1 12 second && between 1 31 first then
            ((if falsy month then second else month),
             (if falsy day then first else day))
          else datePass2Loop ps' month day
      | None => datePass2Loop ps' month day
      end
  end.

Definition datePass2 (md : number * number) : number * number :=
  let (month, day) := md in
  if falsy day || falsy month then datePass2Loop combinedDatePatterns month day
  else md.

(** Third and sixth pass share their shape: leftover one- or two-digit
    numbers, minus time components (and minus [excluded]), sorted so that
    a month-sized value comes first. *)
Definition dateFromNumbers (excluded : list number) (md : number * number)
    : number * number :=
  let (month, day) := md in
  if falsy day || falsy month then
    let potentialDates := filter (between 1 31) (numbersOf reNum12) in
    let available :=
      filter (fun n => negb (arrIncludes timeValues n)
                       && negb (arrIncludes excluded n)) potentialDates in
    if (2 <=? List.length available)%nat then
      let sorted := sortBy dateCmp available in
      let month :=
        if falsy month && between 1 12 (numAt sorted 0)
        then numAt sorted 0 else month in
      let day :=
        if falsy day && between 1 31 (numAt sorted 1)
        then numAt sorted 1 else day in
      (month, day)
    else md
  else md.

Definition datePass3 : number * number -> number * number :=
  dateFromNumbers [].

(** Fourth pass: date-like patterns (again with the [g] flag). *)
Fixpoint datePass4Loop (ps : list regex) (month day : number)
    : number * number :=
  match ps with
  | [] => (month, day)
  | p :: ps' =>
      match matchG p processedText with
      | Some mt =>
          let first := NumberOpt (idx mt 1) in
          let second := NumberOpt (idx mt 2) in
          if between 1 12 first && between 1 31 second then
            ((if falsy month then first else month),
             (if falsy day then second else day))
          else datePass4Loop ps' month day
      | None => datePass4Loop ps' month day
      end
  end.

Definition datePass4 (md : number * number) : number * number :=
  let (month, day) := md in
  if falsy day || falsy month then datePass4Loop dateLikePatterns month day
  else md.

(** Fifth pass, entered only while the month is missing. *)
Fixpoint misreadLoop (table : list (string * number)) (month : number)
    : number :=
  match table with
  | [] => month
  | (misread, value) :: table' =>
      if includes processedText (str misread) && between 1 12 value
      then value
      else misreadLoop table' month
  end.

Definition monthFrom4d (month : number) : number :=
  if falsy month && includes processedText (str "4d") then
    let potentialMonths := filter (between 1 12) (numbersOf reNum12) in
    if (0 <? List.length potentialMonths)%nat then numAt potentialMonths 0
    else int 7
  else month.

Fixpoint combinedLoop (ps : list regex) (month day : number)
    : number * number :=
  match ps with
  | [] => (month, day)
  | p :: ps' =>
      match exec p processedText with
      | Some combinedMatch =>
          let monthValue := NumberOpt (grp combinedMatch 1) in
          let dayValue := NumberOpt (grp combinedMatch 2) in
          let month := if between 1 12 monthValue then monthValue else month in
          let day := if between 1 31 dayValue then dayValue else day in
          if truthy month && truthy day then (month, day)
          else combinedLoop ps' month day
      | None => combinedLoop ps' month day
      end
  end.

Definition monthDayProximity (md : number * number) : number * number :=
  let (month, day) := md in
  if falsy month || falsy day then
    match exec monthDayPattern processedText with
    | Some monthDayMatch =>
        let monthValue := NumberOpt (grp monthDayMatch 1) in
        let dayValue := NumberOpt (grp monthDayMatch 2) in
        ((if falsy month && between 1 12 monthValue then monthValue else month),
         (if falsy day && between 1 31 dayValue then dayValue else day))
    | None => md
    end
  else md.

Definition ocrDateLoop (md : number * number) : number * number :=
  let (month, day) := md in
  if falsy month || falsy day then
    fold_left
      (fun (acc : number * number) (entry : string * number) =>
         let (month, day) := acc in
         let (misread, value) := entry in
         if includes processedText (str misread) then
           if (startsWith (str misread) (str "c") || eqs (str misread) (str "mid"))
              && falsy month
           then (value, day)
           else if endsWith (str misread) (str "d") && falsy day
           then (month, value)
           else (month, day)
         else (month, day))
      ocrDateCorrections md
  else md.

Definition datePass5 (md : number * number) : number * number :=
  let (month, day) := md in
  if falsy month then
    let month := misreadLoop monthMisreads month in
    let month := monthFrom4d month in
    let md :=
      if falsy month && falsy day then combinedLoop combinedPatterns month day
      else (month, day) in
    ocrDateLoop (monthDayProximity md)
  else md.

(** Sixth pass; [sys], [dia] and [pulse] still hold their initial 0 here. *)
Definition datePass6 (sys dia pulse : number)
    : number * number -> number * number :=
  dateFromNumbers (positive [sys; dia; pulse]).

Definition dateRecovery (sys dia pulse : number) (md : number * number)
    : number * number :=
  let (month, day) := md in
  if falsy day || falsy month then
    datePass6 sys dia pulse
      (datePass5 (datePass4 (datePass3 (datePass2 (datePass1 md)))))
  else md.

(** *** Time *)

Fixpoint timeLoop (ps : list pattern) (time period : jsstring)
    : jsstring * jsstring :=
  match ps with
  | [] => (time, period)
  | p :: ps' =>
      match exec (re p) processedText with
      | Some m =>
          if (4 <=? List.length m)%nat then
            let hour := NumberOpt (grp m 1) in
            let minute := NumberOpt (grp m 2) in
            let ampm := option_map toLowerCase (grp m 3) in
            (formatTime hour minute, orEmpty (option_map toUpperCase ampm))
          else if (3 <=? List.length m)%nat then
            let hour := NumberOpt (grp m 1) in
            let minute := NumberOpt (grp m 2) in
            (formatTime hour minute, period)
          else (time, period)
      | None => timeLoop ps' time period
      end
  end.

(** Fallback over time-like patterns; they carry the [g] flag. *)
Fixpoint timeLikeLoop (ps : list regex) (time : jsstring) : jsstring :=
  match ps with
  | [] => time
  | p :: ps' =>
      match matchG p processedText with
      | Some mt =>
          let hour := NumberOpt (idx mt 1) in
          let minute := NumberOpt (idx mt 2) in
          if geb hour (int 0) && leb hour (int 23)
             && geb minute (int 0) && leb minute (int 59)
          then formatTime hour minute
          else timeLikeLoop ps' time
      | None => timeLikeLoop ps' time
      end
  end.

Definition timeFallback (time : jsstring) : jsstring :=
  if nonEmpty time then time else timeLikeLoop timeLikePatterns time.

(** Adjacent small numbers taken as hour and minute. *)
Fixpoint pairLoop (timeCandidates : list number) (time : jsstring)
    : jsstring :=
  match timeCandidates with
  | hour :: ((minute :: _) as rest) =>
      if geb hour (int 0) && leb hour (int 23)
         && geb minute (int 0) && leb minute (int 59)
      then formatTime hour minute
      else pairLoop rest time
  | _ => time
  end.

Definition timeFromNumbers (time : jsstring) : jsstring :=
  if nonEmpty time then time
  else
    let timeCandidates :=
      filter (fun n => geb n (int 0) && leb n (int 23)) (numbersOf reNum12) in
    if (2 <=? List.length timeCandidates)%nat then pairLoop timeCandidates time
    else time.

(** *** Systolic, diastolic and pulse cascades

    The three loops have one shape: the first pattern that matches with
    its first group inside the acceptance range gives the value. *)
Fixpoint cascade (lo hi : N) (ps : list regex) (current : number) : number :=
  match ps with
  | [] => current
  | p :: ps' =>
      match exec p processedText with
      | Some m =>
          let value := NumberOpt (grp m 1) in
          if between lo hi value then value else cascade lo hi ps' current
      | None => cascade lo hi ps' current
      end
  end.

Definition sysLoop (sys : number) : number :=
  cascade 70 250 (List.map re patterns.systolic) sys.

Definition diaLoop (dia : number) : number :=
  cascade 40 150 (List.map re patterns.diastolic) dia.

Definition pulseLoop (pulse : number) : number :=
  cascade 40 200 (List.map re patterns.pulse) pulse.

(** Two- or three-digit numbers ([digits] picks the pattern) in the ten
    characters before and after the first occurrence of a label of length
    [len]. *)
Definition nearby (digits : regex) (label : string) (len width : Z)
    : list number :=
  let i := indexOf processedText (str label) in
  let beforeL := substring processedText (Z.max 0 (i - width)) i in
  let afterL := substring processedText (i + len) (i + len + width) in
  List.map (fun m => NumberOpt (grp m 1))
    (matchAll digits beforeL ++ matchAll digits afterL).

(** [!x || x < bound] *)
Definition needsCorrection (bound : N) (x : number) : bool :=
  falsy x || ltb x (int bound).

Definition sysCorrection (sys : number) : number :=
  if needsCorrection 100 sys then
    let sys :=
      if includes processedText (str "sys") then
        let sys := cascade 100 250 sysPatterns sys in
        if needsCorrection 100 sys then
          let potentialSystolic :=
            filter (between 100 250) (nearby reNum23 "sys" 3 10) in
          if (0 <? List.length potentialSystolic)%nat
          then numAt potentialSystolic 0 else sys
        else sys
      else sys in
    let systolicCandidates := filter (between 100 250) (numbersOf reNum23) in
    if (0 <? List.length systolicCandidates)%nat then
      let largeSystolic := filter (between 100 250) (numbersOf reNum3) in
      if (0 <? List.length largeSystolic)%nat then numAt largeSystolic 0
      else if (0 <? List.length systolicCandidates)%nat
      then numAt systolicCandidates 0
      else sys
    else sys
  else sys.

Definition diaCorrection (dia : number) : number :=
  if needsCorrection 40 dia then
    if includes processedText (str "dia") then
      let dia := cascade 40 150 diaPatterns dia in
      if needsCorrection 40 dia then
        let potentialDiastolic :=
          filter (between 40 150) (nearby reNum23 "dia" 3 10) in
        let dia :=
          if (0 <? List.length potentialDiastolic)%nat
          then numAt potentialDiastolic 0 else dia in
        if needsCorrection 40 dia then
          match exec percentagePattern processedText with
          | Some percentageMatch =>
              let value := NumberOpt (grp percentageMatch 1) in
              if between 40 150 value then value else dia
          | None => dia
          end
        else dia
      else dia
    else dia
  else dia.

(** *** The "coc" misread of the pulse *)

Fixpoint cocTable (table : list (string * number)) (pulse : number)
    : number :=
  match table with
  | [] => pulse
  | (misread, value) :: table' =>
      if includes processedText (str misread) && between 40 200 value
      then value
      else cocTable table' pulse
  end.

Definition hasAllLabels : bool :=
  includes processedText (str "sys")
  && includes processedText (str "dia")
  && includes processedText (str "pulse").

(** Numbers not claimed by the blood-pressure fields. *)
Definition unclaimed (sys dia : number) (l : list number) : list number :=
  let bpNumbers := positive [sys; dia] in
  filter (fun n => negb (arrIncludes bpNumbers n)) l.

(** Two-digit numbers around "coc". *)
Definition cocWindow (sys dia pulse : number) : number :=
  let potentialPulse := filter (between 40 200) (nearby reNum2 "coc" 3 10) in
  let pulseCandidates := unclaimed sys dia potentialPulse in
  if (0 <? List.length pulseCandidates)%nat then numAt pulseCandidates 0
  else if (0 <? List.length potentialPulse)%nat then numAt potentialPulse 0
  else pulse.

(** Standalone two- or three-digit numbers of the display, in text order,
    within [[lo, hi]] and not a component of a clock token. *)
Definition standaloneNumbers (lo hi : N) : list number :=
  let numbers := filter (between lo hi) (numbersOf reNum23') in
  filter (fun n => negb (arrIncludes timeValues n)) numbers.

Definition cocPositional (sys dia pulse : number) : number :=
  if falsy pulse && hasAllLabels then
    let standalone := standaloneNumbers 40 200 in
    let pulse :=
      if (3 <=? List.length standalone)%nat then
        let thirdNumber := numAt standalone 2 in
        if negb (strictEq thirdNumber sys) && negb (strictEq thirdNumber dia)
           && between 40 200 thirdNumber
        then thirdNumber else pulse
      else pulse in
    if falsy pulse then
      let pulseLabelIndex := indexOf processedText (str "pulse") in
      if negb (pulseLabelIndex =? -1)%Z then
        let potentialPulse :=
          filter (between 40 200) (nearby reNum2 "pulse" 5 20) in
        let pulseCandidates := unclaimed sys dia potentialPulse in
        if (0 <? List.length pulseCandidates)%nat then numAt pulseCandidates 0
        else pulse
      else pulse
    else pulse
  else pulse.

Definition cocCorrection (sys dia pulse : number) : number :=
  if falsy pulse && includes processedText (str "coc") then
    let pulse := cocTable ocrMisreads pulse in
    if falsy pulse then cocPositional sys dia (cocWindow sys dia pulse)
    else pulse
  else pulse.

(** *** Period *)

Fixpoint periodLoop (ps : list pattern) (period : jsstring) : jsstring :=
  match ps with
  | [] => period
  | p :: ps' =>
      match exec (re p) processedText with
      | Some m => orEmpty (option_map toUpperCase (grp m 1))
      | None => periodLoop ps' period
      end
  end.

(** *** Layout override and magnitude fallback *)

(** The blood-pressure triple [(sys, dia, pulse)]. *)
Definition reading : Type := (number * number * number)%type.

(** Positional extraction for the LCD layout. *)
Definition lcdOverride (r : reading) : reading :=
  let '(sys, dia, pulse) := r in
  let standalone := standaloneNumbers 40 250 in
  if (2 <=? List.length standalone)%nat then
    (numAt standalone 0, numAt standalone 1,
     if (3 <=? List.length standalone)%nat then numAt standalone 2 else pulse)
  else r.

(** [bpNumbers.find(n => n !== sys)] *)
Definition findNot (sys : number) (l : list number) : option number :=
  find (fun n => negb (strictEq n sys)) l.

(** Largest values taken as systolic, then diastolic. *)
Definition bpFallback (r : reading) : reading :=
  let '(sys, dia, pulse) := r in
  if falsy sys || falsy dia then
    let bpNumbers := filter (between 70 250) (numbersOf reNum23') in
    if (2 <=? List.length bpNumbers)%nat then
      let bpNumbers := sortBy (fun a b => subSign b a) bpNumbers in
      let sys := if falsy sys then numAt bpNumbers 0 else sys in
      let dia :=
        if falsy dia then
          match findNot sys bpNumbers with
          | Some secondLargest =>
              if truthy secondLargest then secondLargest else dia
          | None => dia
          end
        else dia in
      (sys, dia, pulse)
    else r
  else r.

(** Smallest unclaimed value taken as pulse. *)
Definition pulseFallback (r : reading) : reading :=
  let '(sys, dia, pulse) := r in
  if falsy pulse then
    let pulseNumbers := filter (between 40 200) (numbersOf reNum23') in
    let pulseCandidates := unclaimed sys dia pulseNumbers in
    if (0 <? List.length pulseCandidates)%nat then
      (sys, dia, numAt (sortBy subSign pulseCandidates) 0)
    else r
  else r.

Definition layoutStage (r : reading) : reading :=
  if hasAllLabels then lcdOverride r
  else pulseFallback (bpFallback r).

End Body.

(** *** Validation and the entry point *)

Record result : Type := Result {
  day : number;
  month : number;
  time : jsstring;
  period : jsstring;
  sys : number;
  dia : number;
  pulse : number
}.

(** [v >= lo && v <= hi ? v : 0] *)
Definition inRangeOrZero (lo hi : N) (v : number) : number :=
  if between lo hi v then v else int 0.

Definition validate (day month : number) (time period : jsstring)
    (r : reading) : result :=
  let '(sys, dia, pulse) := r in
  {| day := inRangeOrZero 1 31 day;
     month := inRangeOrZero 1 12 month;
     time := time;
     period := period;
     sys := inRangeOrZero 70 250 sys;
     dia := inRangeOrZero 40 150 dia;
     pulse := inRangeOrZero 40 200 pulse |}.

(** The values of the three measurement variables when the layout stage
    is reached. *)
Definition cascades (processedText : jsstring) : reading :=
  let sys := sysCorrection processedText (sysLoop processedText (int 0)) in
  let dia := diaCorrection processedText (diaLoop processedText (int 0)) in
  let pulse := cocCorrection processedText sys dia
                 (pulseLoop processedText (int 0)) in
  (sys, dia, pulse).

Definition extractDataFromText (text : jsstring) : result :=
  let safeText := text in
  let processedText := preprocessText safeText in
  let month := monthLoop processedText patterns.month (int 0) in
  let day := dayLoop processedText patterns.day (int 0) in
  let (month, day) :=
    dateRecovery processedText (int 0) (int 0) (int 0) (month, day) in
  let (time, period) := timeLoop processedText patterns.time [] [] in
  let time := timeFromNumbers processedText (timeFallback processedText time) in
  let r := cascades processedText in
  let period := periodLoop processedText patterns.period period in
  validate day month time period (layoutStage processedText r).

(** ** Vocabulary of the specification *)

(** A time of the form "HH:MM" with hour 00-23 and minute 00-59. *)
Definition validClock (s : jsstring) : bool :=
  match s with
  | [h1; h2; c; m1; m2] =>
      isDigit h1 && isDigit h2 && (c =? 58)%N && isDigit m1 && isDigit m2
      && (digitsValue [h1; h2] <=? 23)%N && (digitsValue [m1; m2] <=? 59)%N
  | _ => false
  end.

Unset Implicit Arguments.

(** ** Around the extractor

    The callers of [extractDataFromText] and the consumers of its record:
    the payload of the uploaded image, the category badge of a reading,
    and the table of readings with its export. *)

(** ** [fileToBase64]

    The callback of [fileToBase64] receives the data URL the file reader
    produced and resolves with [result.split(',')[1]]: the text after the
    first comma, [undefined] when there is none. *)
Definition fileToBase64 (result : jsstring) : option jsstring :=
  idx (splitOn 44%N result) 1.

(** ** [getBPCategory] (DataTable.tsx and MobileDataCard.tsx) *)

Record badge : Type := Badge { category : jsstring; color : jsstring }.

Definition getBPCategory (sys dia : number) : badge :=
  if ltb sys (int 120) && ltb dia (int 80)
  then Badge (str "Normal") (str "bg-green-100 text-green-800")
  else if ltb sys (int 130) && ltb dia (int 80)
  then Badge (str "Elevated") (str "bg-yellow-100 text-yellow-800")
  else if ltb sys (int 140) || ltb dia (int 90)
  then Badge (str "High Stage 1") (str "bg-orange-100 text-orange-800")
  else if ltb sys (int 180) || ltb dia (int 120)
  then Badge (str "High Stage 2") (str "bg-red-100 text-red-800")
  else Badge (str "Crisis") (str "bg-red-200 text-red-900").

(** ** The table of readings (Index.tsx) *)

(** [a.join(sep)] on an array of strings. *)
Fixpoint join (sep : jsstring) (a : list jsstring) : jsstring :=
  match a with
  | [] => []
  | [x] => x
  | x :: a' => x ++ sep ++ join sep a'
  end.

Module Index.

Record BloodPressureData : Type := {
  id : jsstring;
  day : number;
  month : number;
  time : jsstring;
  period : jsstring;
  sys : number;
  dia : number;
  pulse : number;
  imageUrl : jsstring;
  processed : bool
}.

(** The entry [handleImageUpload] pushes for a processed image:
    [{ id, ...extractedData, imageUrl, processed: true }]. *)
Definition processedEntry (id : jsstring) (extractedData : result)
    (imageUrl : jsstring) : BloodPressureData :=
  let 'Result d mo tm p s di pu := extractedData in
  {| id := id;
     day := d;
     month := mo;
     time := tm;
     period := p;
     sys := s;
     dia := di;
     pulse := pu;
     imageUrl := imageUrl;
     processed := true |}.

(** The entry pushed when processing threw: a blank reading to be filled
    in by hand. *)
Definition failedEntry (id imageUrl : jsstring) : BloodPressureData :=
  {| id := id;
     day := int 0;
     month := int 0;
     time := [];
     period := [];
     sys := int 0;
     dia := int 0;
     pulse := int 0;
     imageUrl := imageUrl;
     processed := false |}.

Definition headers : list jsstring :=
  [str "Day"; str "Month"; str "Time"; str "PM-AM"; str "SYS"; str "DIA";
   str "Pulse"].

(** [[item.day, item.month, item.time, item.period, item.sys, item.dia,
    item.pulse]]; [join] prints the numbers with [toString]. *)
Definition cells (item : BloodPressureData) : list jsstring :=
  [toString (day item); toString (month item); time item; period item;
   toString (sys item); toString (dia item); toString (pulse item)].

Definition csvContent (data : list BloodPressureData) : jsstring :=
  join [10%N]
    (join (str ",") headers
       :: List.map (fun item => join (str ",") (cells item)) data).

(** [exportData]: nothing is exported ([None]) while the table is empty;
    otherwise the text of the file offered for download. *)
Definition exportData (data : list BloodPressureData) : option jsstring :=
  if (List.length data =? 0)%nat then None else Some (csvContent data).

End Index.

(** ** Vocabulary of the proofs

    Positions and runs of the matcher, the token structure of a text, and
    the alphabet of normalized text. *)

(** [steps c w c']: position [c'] is [c] moved forward over the text [w]. *)
Definition steps (c : cursor) (w : jsstring) (c' : cursor) : Prop :=
  after c = w ++ after c' /\ before c' = rev w ++ before c.

(** Every character a pattern can consume satisfies [P]. *)
Fixpoint consumes (P : char -> Prop) (r : regex) : Prop :=
  match r with
  | Eps | Bnd => True
  | Chr p | Rep _ _ p => forall x, p x = true -> P x
  | Seq r1 r2 | Alt r1 r2 => consumes P r1 /\ consumes P r2
  | Grp _ r1 => consumes P r1
  end.

(** Every group of a pattern captures text satisfying [P]. *)
Fixpoint captureOnly (P : char -> Prop) (r : regex) : Prop :=
  match r with
  | Eps | Bnd | Chr _ | Rep _ _ _ => True
  | Seq r1 r2 | Alt r1 r2 => captureOnly P r1 /\ captureOnly P r2
  | Grp _ r1 => consumes P r1 /\ captureOnly P r1
  end.

(** Least number of characters a match consumes. *)
Fixpoint minLen (r : regex) : nat :=
  match r with
  | Eps | Bnd => 0
  | Chr _ => 1
  | Seq r1 r2 => minLen r1 + minLen r2
  | Alt r1 r2 => Nat.min (minLen r1) (minLen r2)
  | Rep lo _ _ => lo
  | Grp _ r1 => minLen r1
  end.

(** The pattern begins, respectively ends, with a word boundary. *)
Definition startsBnd (r : regex) : bool :=
  match r with
  | Seq Bnd _ => true
  | _ => false
  end.

Fixpoint endsBnd (r : regex) : bool :=
  match r with
  | Bnd => true
  | Seq _ r2 => endsBnd r2
  | _ => false
  end.

(** [cs'] extends [cs] with captures whose text satisfies [P]. *)
Definition capsExt (P : char -> Prop) (cs cs' : captures) : Prop :=
  exists new, cs' = new ++ cs /\ Forall (fun e => Forall P (snd e)) new.

(** What a successful run guarantees about the call of its continuation. *)
Definition reached (A : Type) (G P : char -> Prop) (r : regex) (c : cursor)
    (cs : captures) (k : cursor -> captures -> option A) (a : A) : Prop :=
  exists w c' cs',
    steps c w c' /\ Forall P w /\ (minLen r <= List.length w)%nat
    /\ capsExt G cs cs'
    /\ (endsBnd r = true -> atBoundary c' = true)
    /\ k c' cs' = Some a.

Definition stepBy (p : char -> bool) (c : cursor) : option cursor :=
  match after c with
  | x :: xs => if p x then Some (Cur (x :: before c) xs) else None
  | [] => None
  end.

(** Two optional results agree: both absent, or both present and
    related. *)
Inductive optRel {X Y : Type} (Q : X -> Y -> Prop)
    : option X -> option Y -> Prop :=
| optRel_none : optRel Q None None
| optRel_some x y : Q x y -> optRel Q (Some x) (Some y).

(** Captures of two runs that differ by the text transformation [phi]. *)
Definition capRel (phi : jsstring -> jsstring) (cs1 cs2 : captures) : Prop :=
  cs2 = List.map (fun e => (fst e, phi (snd e))) cs1.

(** A character class steps two related positions alike. *)
Definition stepOK (R : cursor -> cursor -> Prop) (p : char -> bool) : Prop :=
  forall c1 c2, R c1 c2 -> optRel R (stepBy p c1) (stepBy p c2).

Fixpoint predsOK (R : cursor -> cursor -> Prop) (r : regex) : Prop :=
  match r with
  | Eps | Bnd => True
  | Chr p | Rep _ _ p => stepOK R p
  | Seq r1 r2 | Alt r1 r2 => predsOK R r1 /\ predsOK R r2
  | Grp _ r1 => predsOK R r1
  end.

(** A text is a sequence of tokens (maximal runs of word characters) and
    separators (the other characters). *)
Inductive item : Type :=
| Tok (w : jsstring)
| Sep (x : char).

Definition flushTok (acc : jsstring) : list item :=
  match acc with
  | [] => []
  | _ => [Tok (rev acc)]
  end.

Fixpoint itemsFrom (acc : jsstring) (s : jsstring) : list item :=
  match s with
  | [] => flushTok acc
  | x :: s' =>
      if isWordChar x then itemsFrom (x :: acc) s'
      else flushTok acc ++ Sep x :: itemsFrom [] s'
  end.

Definition items (s : jsstring) : list item := itemsFrom [] s.

Definition render (g : jsstring -> jsstring) (it : item) : jsstring :=
  match it with
  | Tok w => g w
  | Sep x => [x]
  end.

(** Rewriting every token of a text by [g]. *)
Definition mapTokens (g : jsstring -> jsstring) (s : jsstring) : jsstring :=
  flat_map (render g) (items s).

Definition tokenOf (it : item) : list jsstring :=
  match it with
  | Tok w => [w]
  | Sep _ => []
  end.

Definition tokens (s : jsstring) : list jsstring := flat_map tokenOf (items s).

Definition isWord (x : char) : Prop := isWordChar x = true.

(** A token rule is a pattern [\b ... \b] that consumes word characters
    only and at least one: it can only match a whole token. *)
Definition tokenRule (r : regex) : Prop :=
  startsBnd r = true /\ endsBnd r = true
  /\ consumes isWord r /\ (1 <= minLen r)%nat.

(** The match of a token does not depend on what surrounds it. *)
Definition framed (l rest : jsstring) (c1 c2 : cursor) : Prop :=
  c2 = Cur (before c1 ++ l) (after c1 ++ rest).

(** The rewriting a rule performs on one token. *)
Definition rewriteTok (r : regex) (f : marray -> jsstring) (w : jsstring)
    : jsstring :=
  match matchAt r (Cur [] w) with
  | Some m => f (toArray r m)
  | None => w
  end.

Definition lowered (c1 c2 : cursor) : Prop :=
  c2 = Cur (toLowerCase (before c1)) (toLowerCase (after c1)).

(** Every character class of the pattern is closed under lower-casing. *)
Fixpoint lowerInv (r : regex) : Prop :=
  match r with
  | Eps | Bnd => True
  | Chr p | Rep _ _ p => forall x, p (lowerChar x) = p x
  | Seq r1 r2 | Alt r1 r2 => lowerInv r1 /\ lowerInv r2
  | Grp _ r1 => lowerInv r1
  end.

Fixpoint firstClass (r : regex) : option (char -> bool) :=
  match r with
  | Chr p => Some p
  | Seq r1 r2 =>
      match r1 with
      | Eps | Bnd => firstClass r2
      | _ => firstClass r1
      end
  | Grp _ r1 => firstClass r1
  | _ => None
  end.

Definition isDigitP (x : char) : Prop := isDigit x = true.

(** The rules whose matches are whole tokens. *)
Definition labelRules : list regex :=
  [reSysNum; reDiaNum; reSNum; reDNum; reMinig; reCm; reC1; reC9; reMid].

(** No label rule rewrites the token. *)
Definition noMatch (J : list regex) (w : jsstring) : Prop :=
  Forall (fun r => matchAt r (Cur [] w) = None) J.

Definition settled : jsstring -> Prop := noMatch labelRules.

Definition labelWords : list jsstring :=
  [str "sys"; str "dia"; str "s"; str "d"; str "mmhg"; str "7m"].

(** Word characters, the space, and [/ - : .]. *)
Definition allowedChar (x : char) : bool :=
  isWordChar x || (x =? 32)%N || oneOf (str "/-:.") x.

Definition allowed (x : char) : Prop := allowedChar x = true.

(** The only white space is the plain space. *)
Definition plainSpace (x : char) : Prop := isSpace x = true -> x = 32%N.

(** Integer values: a number that is an integer, a number that is an
    integer unless it is [NaN], and the shapes of the variables the stages
    pass along. *)
Definition isInt (v : number) : Prop := exists n, v = int n.
Definition intOrNaN (v : number) : Prop := v = NaN \/ isInt v.
Definition noDot (x : char) : Prop := x <> 46%N.

Definition digitGroups (r : regex) : Prop := captureOnly isDigitP r.

Definition intPair (md : number * number) : Prop :=
  intOrNaN (fst md) /\ intOrNaN (snd md).

Definition intReading (r : reading) : Prop :=
  intOrNaN (fst (fst r)) /\ intOrNaN (snd (fst r)) /\ intOrNaN (snd r).

(** ** Vocabulary of the further properties *)

(** A pass keeps a month, respectively a day, that is already set. *)
Definition keepsSet (f : number * number -> number * number) : Prop :=
  forall month day,
    (truthy month = true -> fst (f (month, day)) = month)
    /\ (truthy day = true -> snd (f (month, day)) = day).

(** The match of [/\b(\d{2,3})\b/] is the match of [/\b\d{2,3}\b/] with
    its text recorded as group 1. *)
Definition withGroup (m : found) : found :=
  Found (mstart m) (mend m) [(1%nat, mtext m)].

(** [0, 1, ..., n - 1] *)
Definition upto (n : nat) : list N := List.map N.of_nat (seq 0 n).

(** [/\b(am|pm)\b/i], the first period pattern. *)
Definition reAmPm : regex := Bnd +> Grp 1 (ialt ["am"; "pm"]) +> Bnd.

(** Every match of the pattern consumes a character of class [q]. *)
Fixpoint needs (q : char -> bool) (r : regex) : Prop :=
  match r with
  | Eps | Bnd => False
  | Chr p => forall x, p x = true -> q x = true
  | Rep lo _ p => (1 <= lo)%nat /\ forall x, p x = true -> q x = true
  | Seq r1 r2 => needs q r1 \/ needs q r2
  | Alt r1 r2 => needs q r1 /\ needs q r2
  | Grp _ r1 => needs q r1
  end.

(** A text none of whose characters is of class [q]. *)
Definition lacks (q : char -> bool) (s : jsstring) : Prop :=
  Forall (fun x => q x = false) s.

Definition needsDigit (r : regex) : Prop := needs isDigit r.

(** The values the correction tables can produce for a date. *)
Definition zeroOrSeven (v : number) : Prop := v = int 0 \/ v = int 7.

(** Lower-case letters, digits, the underscore, the space, and
    [/ - : .]. *)
Definition normalChar (c : char) : bool :=
  isLower c || isDigit c || (c =? 95)%N || (c =? 32)%N
  || oneOf (str "/-:.") c.

(** The token, taken alone, is matched by the pattern. *)
Definition accepts (r : regex) (w : jsstring) : bool :=
  match matchAt r (Cur [] w) with
  | Some _ => true
  | None => false
  end.

(** [/\b\d{lo,hi}\b/] and [/\b(\d{lo,hi})\b/]. *)
Definition numRule (lo hi : nat) : regex := Bnd +> Rep lo (Some hi) digit +> Bnd.
Definition numRuleG (lo hi : nat) : regex :=
  Bnd +> Grp 1 (Rep lo (Some hi) digit) +> Bnd.

(** A token made of [lo] to [hi] digits. *)
Definition numTok (lo hi : nat) (w : jsstring) : bool :=
  forallb isDigit w && (lo <=? List.length w)%nat && (List.length w <=? hi)%nat.

(** The badges in increasing order of severity. *)
Definition severity (b : badge) : nat :=
  if eqs (category b) (str "Normal") then 0
  else if eqs (category b) (str "Elevated") then 1
  else if eqs (category b) (str "High Stage 1") then 2
  else if eqs (category b) (str "High Stage 2") then 3
  else 4.

(** Letters, digits, the underscore, the colon and the point. *)
Definition fieldChar (x : char) : Prop :=
  isWordChar x || (x =? 58)%N || (x =? 46)%N = true.

Definition wordGroups (r : regex) : Prop := captureOnly isWord r.

(** A cell that holds neither a comma nor a line break. *)
Definition plainCell (s : jsstring) : Prop :=
  Forall (fun x => x <> 44%N /\ x <> 10%N) s.

(** The entries [handleImageUpload] adds to the table. *)
Definition uploaded (item : Index.BloodPressureData) : Prop :=
  (exists id text imageUrl,
     item = Index.processedEntry id (extractDataFromText text) imageUrl)
  \/ (exists id imageUrl, item = Index.failedEntry id imageUrl).

(** The match array of the lower-cased subject. *)
Definition lowerArray (a : marray) : marray :=
  List.map (option_map toLowerCase) a.

(** Two matches of one pattern, found in a text and in its lower-cased
    form. *)
Definition loweredMatch (m1 m2 : found) : Prop :=
  lowered (mstart m1) (mstart m2) /\ lowered (mend m1) (mend m2)
  /\ capRel toLowerCase (mcaps m1) (mcaps m2).

(** A replacement that commutes with lower-casing. *)
Definition lowerStable (f : marray -> jsstring) : Prop :=
  forall a, f (lowerArray a) = toLowerCase (f a).

(** [/\b(\d{1,2}):(\d{2})\s*(am|pm)\b/i] and [/\b(\d{1,2}):(\d{2})\b/i],
    the first two time patterns. *)
Definition periodTail : regex := Grp 3 (ialt ["am"; "pm"]) +> Bnd.
Definition reClockPeriod : regex :=
  Bnd +> Grp 1 d12 +> colon +> Grp 2 d2 +> ws +> periodTail.
Definition reClockToken : regex :=
  Bnd +> Grp 1 d12 +> colon +> Grp 2 d2 +> Bnd.

(** The hour and minute groups of a match array: one or two digits, and
    two digits. *)
Definition clockGroups (a : marray) : Prop :=
  exists w1 w2,
    grp a 1 = Some w1 /\ grp a 2 = Some w2
    /\ Forall isDigitP w1 /\ Forall isDigitP w2
    /\ (1 <= List.length w1 <= 2)%nat /\ List.length w2 = 2%nat.

(** * Properties *)

Unset Implicit Arguments.

(** Case analysis on the test of the outermost conditional of the goal. *)
Ltac case_if :=
  match goal with
  | |- context [if ?c then _ else _] => destruct c eqn:?
  end.

(** ** Numbers and ranges *)

(** [v] denotes a number between the integers [lo] and [hi]. *)
Definition InRange (lo hi : N) (v : number) : Prop :=
  match v with
  | NaN => False
  | Dec m e => (lo * pow10 e <= m /\ m <= hi * pow10 e)%N
  end.

Lemma between_spec (lo hi : N) (v : number) :
  between lo hi v = true <-> InRange lo hi v.
Proof.
  unfold between, geb, leb, int, InRange.
  destruct v as [|m e]; simpl.
  - split; [discriminate | tauto].
  - change (pow10 0) with 1%N.
    rewrite andb_true_iff, !N.leb_le. lia.
Qed.

Lemma InRange_int (lo hi n : N) : InRange lo hi (int n) <-> (lo <= n <= hi)%N.
Proof. unfold InRange, int. change (pow10 0) with 1%N. lia. Qed.

Lemma between_int (lo hi n : N) :
  (lo <= n <= hi)%N -> between lo hi (int n) = true.
Proof. intros H. now apply between_spec, InRange_int. Qed.

Lemma between_not_NaN (lo hi : N) (v : number) :
  between lo hi v = true -> v <> NaN.
Proof. destruct v; [discriminate | discriminate]. Qed.

Lemma inRangeOrZero_cases (lo hi : N) (v : number) :
  inRangeOrZero lo hi v = int 0
  \/ (inRangeOrZero lo hi v = v /\ InRange lo hi v).
Proof.
  unfold inRangeOrZero.
  destruct (between lo hi v) eqn:E; [right | left]; auto.
  split; [reflexivity | now apply between_spec].
Qed.

Lemma inRangeOrZero_not_NaN (lo hi : N) (v : number) :
  inRangeOrZero lo hi v <> NaN.
Proof.
  unfold inRangeOrZero.
  destruct (between lo hi v) eqn:E; [now apply between_not_NaN in E | discriminate].
Qed.

Lemma inRangeOrZero_keep (lo hi : N) (v : number) :
  between lo hi v = true -> inRangeOrZero lo hi v = v.
Proof. unfold inRangeOrZero. now intros ->. Qed.

Lemma pow10_pos (e : nat) : (0 < pow10 e)%N.
Proof. unfold pow10. apply N.neq_0_lt_0, N.pow_nonzero. discriminate. Qed.

Lemma between_weaken (lo lo' hi hi' : N) (v : number) :
  (lo' <= lo)%N -> (hi <= hi')%N ->
  between lo hi v = true -> between lo' hi' v = true.
Proof.
  intros Hlo Hhi H. apply between_spec in H. apply between_spec.
  destruct v as [|m e]; simpl in *; [assumption|].
  pose proof (pow10_pos e). nia.
Qed.

Lemma between_truthy (lo hi : N) (v : number) :
  (0 < lo)%N -> between lo hi v = true -> truthy v = true.
Proof.
  intros Hlo H. apply between_spec in H.
  destruct v as [|m e]; simpl in *; [contradiction|].
  pose proof (pow10_pos e).
  apply negb_true_iff, N.eqb_neq. nia.
Qed.

(** ** Projections of a validated record *)

Lemma validate_fields (d mo : number) (t p : jsstring) (s di pu : number) :
  validate d mo t p (s, di, pu)
  = Result (inRangeOrZero 1 31 d) (inRangeOrZero 1 12 mo) t p
      (inRangeOrZero 70 250 s) (inRangeOrZero 40 150 di)
      (inRangeOrZero 40 200 pu).
Proof. reflexivity. Qed.

(** The record is the validation of the variables as they stand after the
    layout stage. *)
Lemma extract_shape (text : jsstring) :
  exists d mo t p,
    extractDataFromText text
    = validate d mo t p
        (layoutStage (preprocessText text) (cascades (preprocessText text))).
Proof.
  unfold extractDataFromText.
  destruct (dateRecovery _ _ _ _ _) as [mo d].
  destruct (timeLoop _ _ _ _) as [t p].
  eauto.
Qed.

(** The three measurement fields of the record. *)
Lemma extract_measurements (text : jsstring) (s di pu : number) :
  layoutStage (preprocessText text) (cascades (preprocessText text))
  = (s, di, pu) ->
  sys (extractDataFromText text) = inRangeOrZero 70 250 s
  /\ dia (extractDataFromText text) = inRangeOrZero 40 150 di
  /\ pulse (extractDataFromText text) = inRangeOrZero 40 200 pu.
Proof.
  intros H. destruct (extract_shape text) as (d & mo & t & p & E).
  rewrite E, H. repeat split.
Qed.

(** ** Ranges of the validated fields *)

(** Each numeric field is the sentinel or lies in its final range. *)
Lemma extract_ranges_num (text : jsstring) (r : result) :
  r = extractDataFromText text ->
  (day r = int 0 \/ InRange 1 31 (day r))
  /\ (month r = int 0 \/ InRange 1 12 (month r))
  /\ (sys r = int 0 \/ InRange 70 250 (sys r))
  /\ (dia r = int 0 \/ InRange 40 150 (dia r))
  /\ (pulse r = int 0 \/ InRange 40 200 (pulse r)).
Proof.
  intros ->.
  destruct (extract_shape text) as (d & mo & t & p & E).
  destruct (layoutStage _ _) as [[s di] pu].
  rewrite validate_fields in E. rewrite E. simpl.
  assert (K : forall lo hi v,
             inRangeOrZero lo hi v = int 0
             \/ InRange lo hi (inRangeOrZero lo hi v)).
  { intros lo hi v.
    destruct (inRangeOrZero_cases lo hi v) as [H | [H1 H2]]; [now left|].
    right. now rewrite H1. }
  repeat split; apply K.
Qed.

(** ** Layout override (C3, C10) *)

Lemma layoutStage_override (t : jsstring) (r : reading) (a b c : number)
    (rest : list number) :
  hasAllLabels t = true ->
  standaloneNumbers t 40 250 = a :: b :: c :: rest ->
  layoutStage t r = (a, b, c).
Proof.
  intros HL HS. unfold layoutStage, lcdOverride.
  rewrite HL, HS. now destruct r as [[s d] p].
Qed.

(** C3. If the normalized text contains the three labels, its standalone
    two- or three-digit numbers are exactly 144, 72, 76 in that order and
    none of them is the hour or minute of a clock token, then the record
    has sys = 144, dia = 72, pulse = 76, whatever the cascades found. *)
Theorem layout_override_precedence (text : jsstring) :
  let t := preprocessText text in
  hasAllLabels t = true ->
  matchGOr reNum23' t = [str "144"; str "72"; str "76"] ->
  arrIncludes (timeValues t) (int 144) = false ->
  arrIncludes (timeValues t) (int 72) = false ->
  arrIncludes (timeValues t) (int 76) = false ->
  let r := extractDataFromText text in
  sys r = int 144 /\ dia r = int 72 /\ pulse r = int 76.
Proof.
  intros t HL HN H144 H72 H76 r. subst r.
  assert (HS : standaloneNumbers t 40 250 = [int 144; int 72; int 76]).
  { unfold standaloneNumbers, numbersOf. rewrite HN.
    change (List.map Number [str "144"; str "72"; str "76"])
      with [int 144; int 72; int 76].
    change (filter (between 40 250) [int 144; int 72; int 76])
      with [int 144; int 72; int 76].
    cbn [filter]. now rewrite H144, H72, H76. }
  pose proof (layoutStage_override t (cascades t) _ _ _ _ HL HS) as E.
  apply extract_measurements in E.
  exact E.
Qed.

Lemma layout_override_precedence_witness :
  let r := extractDataFromText (str "144 sys 72 dia 76 pulse") in
  sys r = int 144 /\ dia r = int 72 /\ pulse r = int 76.
Proof.
  apply (layout_override_precedence (str "144 sys 72 dia 76 pulse"));
    vm_compute; reflexivity.
Defined.

(** C10. The positional override and the magnitude fallback exclude each
    other.  When the normalized text contains "sys", "dia" and "pulse",
    the layout stage is the positional override alone and the record is
    the validation of its result: neither the descending-magnitude
    systolic/diastolic fallback nor the smallest-candidate pulse fallback
    contributes.  When a label is missing, the stage is the two fallbacks
    alone and the positional override does not contribute. *)
Theorem layout_mutually_exclusive (text : jsstring) :
  let t := preprocessText text in
  (hasAllLabels t = true ->
   (forall r, layoutStage t r = lcdOverride t r)
   /\ exists d mo tm p,
        extractDataFromText text
        = validate d mo tm p (lcdOverride t (cascades t)))
  /\ (hasAllLabels t = false ->
      (forall r, layoutStage t r = pulseFallback t (bpFallback t r))
      /\ exists d mo tm p,
           extractDataFromText text
           = validate d mo tm p (pulseFallback t (bpFallback t (cascades t)))).
Proof.
  intros t.
  destruct (extract_shape text) as (d & mo & tm & p & E). fold t in E.
  split; intros HL.
  - assert (K : forall r, layoutStage t r = lcdOverride t r)
      by (intros r; unfold layoutStage; now rewrite HL).
    split; [exact K|]. exists d, mo, tm, p. now rewrite <- K.
  - assert (K : forall r, layoutStage t r = pulseFallback t (bpFallback t r))
      by (intros r; unfold layoutStage; now rewrite HL).
    split; [exact K|]. exists d, mo, tm, p. now rewrite <- K.
Qed.

Lemma layout_mutually_exclusive_witness :
  (forall r,
     layoutStage (preprocessText (str "144 sys 72 dia 76 pulse")) r
     = lcdOverride (preprocessText (str "144 sys 72 dia 76 pulse")) r)
  /\ (forall r,
        layoutStage (preprocessText (str "120 80 75")) r
        = pulseFallback (preprocessText (str "120 80 75"))
            (bpFallback (preprocessText (str "120 80 75")) r)).
Proof.
  split.
  - apply (proj1 (layout_mutually_exclusive (str "144 sys 72 dia 76 pulse"))).
    vm_compute; reflexivity.
  - apply (proj2 (layout_mutually_exclusive (str "120 80 75"))).
    vm_compute; reflexivity.
Defined.

(** ** Label priority (C5) *)

Lemma leb_not_ltb (a b : number) : leb a b = true -> ltb b a = false.
Proof.
  destruct a as [|m1 e1], b as [|m2 e2]; simpl; try discriminate.
  rewrite N.leb_le, N.ltb_ge. lia.
Qed.

Lemma needsCorrection_false (lo hi : N) (v : number) :
  (0 < lo)%N -> between lo hi v = true -> needsCorrection lo v = false.
Proof.
  intros Hlo H. unfold needsCorrection, falsy.
  rewrite (between_truthy lo hi v Hlo H). simpl.
  apply leb_not_ltb. unfold between in H.
  now apply andb_true_iff in H as [H _].
Qed.


Lemma bpFallback_sys (t : jsstring) (s d p : number) :
  truthy s = true -> fst (fst (bpFallback t (s, d, p))) = s.
Proof.
  intros H. unfold bpFallback, falsy. rewrite H. simpl.
  destruct (negb (truthy d)); [|reflexivity].
  now case_if.
Qed.

Lemma pulseFallback_bp (t : jsstring) (r : reading) :
  fst (pulseFallback t r) = fst r.
Proof.
  destruct r as [[s d] p]. unfold pulseFallback.
  destruct (falsy p); [|reflexivity].
  now case_if.
Qed.

Lemma numAt_head_In (l : list number) :
  (0 <? List.length l)%nat = true -> In (numAt l 0) l.
Proof. destruct l; simpl; [discriminate | auto]. Qed.













(** ** Exclusion of claimed values from the pulse (C6) *)

Lemma insertBy_In (cmp : number -> number -> Z) (x y : number)
    (l : list number) :
  In x (insertBy cmp y l) -> x = y \/ In x l.
Proof.
  induction l as [|z l IH]; simpl.
  - intros [H | []]; auto.
  - case_if; simpl; intros [H | H]; auto.
    destruct (IH H); auto.
Qed.

Lemma sortBy_In (cmp : number -> number -> Z) (x : number) (l : list number) :
  In x (sortBy cmp l) -> In x l.
Proof.
  induction l as [|y l IH]; simpl; [tauto|].
  intros H. apply insertBy_In in H as [H | H]; auto.
Qed.

Lemma sortBy_length (cmp : number -> number -> Z) (l : list number) :
  List.length (sortBy cmp l) = List.length l.
Proof.
  assert (K : forall x l', List.length (insertBy cmp x l') = S (List.length l')).
  { intros x l'. induction l' as [|z l' IH]; simpl; [reflexivity|].
    case_if; simpl; [now rewrite IH | reflexivity]. }
  induction l as [|y l IH]; simpl; [reflexivity|].
  now rewrite K, IH.
Qed.

Lemma falsy_not_between (lo hi : N) (v : number) :
  (0 < lo)%N -> falsy v = true -> between lo hi v = false.
Proof.
  intros Hlo Hf. destruct (between lo hi v) eqn:E; [|reflexivity].
  apply (between_truthy lo hi v Hlo) in E. unfold falsy in Hf.
  now rewrite E in Hf.
Qed.

Lemma strictEq_zero (x : number) : truthy x = true -> strictEq x (int 0) = false.
Proof.
  destruct x as [|m e]; [discriminate|].
  unfold truthy, strictEq, int. change (pow10 0) with 1%N.
  rewrite negb_true_iff, !N.eqb_neq. lia.
Qed.

(** A value kept by [unclaimed] differs from both blood-pressure values. *)
Lemma unclaimed_distinct (s d x : number) (l : list number) :
  In x (unclaimed s d l) -> truthy x = true ->
  strictEq x s = false /\ strictEq x d = false.
Proof.
  unfold unclaimed. intros H Hx.
  apply filter_In in H as [_ H]. apply negb_true_iff in H.
  assert (K : forall y, In y [s; d] -> strictEq x y = false).
  { intros y Hy.
    destruct (gtb y (int 0)) eqn:Ey.
    - assert (Hin : In y (positive [s; d]))
        by (apply filter_In; split; assumption).
      unfold arrIncludes in H.
      destruct (strictEq x y) eqn:E; [|reflexivity].
      assert (existsb (sameValueZero x) (positive [s; d]) = true).
      { apply existsb_exists. exists y. split; [assumption|].
        destruct x, y; simpl in *; auto. }
      congruence.
    - destruct y as [|m e]; [now destruct x|].
      destruct x as [|m1 e1]; [discriminate|].
      unfold gtb, ltb, int in Ey. simpl in *.
      change (pow10 0) with 1%N in Ey.
      apply N.ltb_ge in Ey. apply negb_true_iff, N.eqb_neq in Hx.
      apply N.eqb_neq. pose proof (pow10_pos e). nia. }
  split; apply K; simpl; auto.
Qed.

Lemma bpFallback_pulse (t : jsstring) (r : reading) :
  snd (bpFallback t r) = snd r.
Proof.
  destruct r as [[s d] p]. unfold bpFallback.
  repeat (case_if; try reflexivity).
Qed.

(** What the generic fallback does to a reading whose pulse is missing. *)
Lemma pulseFallback_excludes (t : jsstring) (s d p : number) :
  exists p',
    pulseFallback t (s, d, p) = (s, d, p')
    /\ (p' = p
        \/ (between 40 200 p' = true
            /\ strictEq p' s = false /\ strictEq p' d = false)).
Proof.
  unfold pulseFallback.
  destruct (falsy p); [|eauto].
  case_if; [|eauto].
  eexists. split; [reflexivity|]. right.
  match goal with |- context [numAt ?l 0] => set (cands := l) end.
  assert (Hin : In (numAt cands 0)
                  (unclaimed s d
                     (filter (between 40 200) (numbersOf t reNum23')))).
  { apply (sortBy_In subSign). apply numAt_head_In.
    subst cands. now rewrite sortBy_length. }
  assert (Hb : between 40 200 (numAt cands 0) = true).
  { unfold unclaimed in Hin. apply filter_In in Hin as [Hin _].
    now apply filter_In in Hin as [_ Hin]. }
  split; [exact Hb|].
  apply (unclaimed_distinct s d _ _ Hin).
  now apply (between_truthy 40 200).
Qed.

(** The table look-up settles the "coc" correction: its first entry is
    the very token that guards the block, so the window search and the
    positional inference behind it are never reached. *)
Lemma cocCorrection_table (t : jsstring) (s d p : number) :
  cocCorrection t s d p
  = if falsy p && includes t (str "coc") then int 71 else p.
Proof.
  unfold cocCorrection.
  destruct (falsy p); [|reflexivity].
  destruct (includes t (str "coc")) eqn:E; [|reflexivity].
  cbn [andb]. unfold ocrMisreads. cbn [cocTable].
  rewrite E. reflexivity.
Qed.

Lemma strictEq_refl (v : number) : v <> NaN -> strictEq v v = true.
Proof.
  destruct v as [|m e]; [congruence|]. intros _. simpl. apply N.eqb_refl.
Qed.

Lemma strictEq_false_neq (a b : number) :
  a <> NaN -> strictEq a b = false -> a <> b.
Proof.
  intros Ha H ->. rewrite strictEq_refl in H; [discriminate | assumption].
Qed.

(** C6.  No fallback pass gives the pulse a number held by systolic or
    diastolic.  The "coc" correction takes no number from the text at
    all: whatever the text and the values of sys, dia and pulse, it leaves
    the pulse as it is or sets it to the constant 71 of the misread table,
    so its window search assigns nothing.  The generic fallback, whatever
    the values of sys and dia, leaves the pulse as it is or sets it to a
    number in [40,200] that differs from both.  In the record, when this
    fallback is what fills the pulse (no display layout, pulse still
    missing), the pulse is 0 or it lies in [40,200] and differs from the
    record's sys and dia. *)
Theorem pulse_fallback_exclusion (text : jsstring) :
  let t := preprocessText text in
  let r := extractDataFromText text in
  (forall s d p,
     cocCorrection t s d p
     = if falsy p && includes t (str "coc") then int 71 else p)
  /\ (forall s d p,
        exists p',
          pulseFallback t (s, d, p) = (s, d, p')
          /\ (p' = p \/ (InRange 40 200 p' /\ p' <> s /\ p' <> d)))
  /\ (hasAllLabels t = false ->
      falsy (snd (cascades t)) = true ->
      pulse r = int 0
      \/ (InRange 40 200 (pulse r) /\ pulse r <> sys r /\ pulse r <> dia r)).
Proof.
  intros t r. split; [intros s d p; apply cocCorrection_table|].
  split.
  { intros s d p.
    destruct (pulseFallback_excludes t s d p) as (p' & Ef & Hcase).
    exists p'. split; [exact Ef|].
    destruct Hcase as [-> | (Hb & Hs & Hd)]; [now left | right].
    assert (Hn : p' <> NaN) by now apply (between_not_NaN 40 200).
    split; [now apply between_spec|].
    split; now apply strictEq_false_neq. }
  intros HL Hp. subst r.
  destruct (cascades t) as [[s d] p] eqn:Ec. simpl in Hp.
  destruct (bpFallback t (s, d, p)) as [[s1 d1] p1] eqn:Eb.
  pose proof (bpFallback_pulse t (s, d, p)) as K.
  rewrite Eb in K. simpl in K. subst p1.
  destruct (pulseFallback_excludes t s1 d1 p) as (p' & Ef & Hcase).
  assert (El : layoutStage t (cascades t) = (s1, d1, p')).
  { unfold layoutStage. now rewrite HL, Ec, Eb. }
  apply extract_measurements in El. destruct El as (Es & Ed & Epu).
  rewrite Es, Ed, Epu.
  destruct Hcase as [-> | (Hb & Hs & Hd)].
  - left. unfold inRangeOrZero.
    now rewrite (falsy_not_between 40 200 p).
  - right. rewrite (inRangeOrZero_keep 40 200 p' Hb).
    assert (Ht : truthy p' = true) by now apply (between_truthy 40 200).
    assert (Hn : p' <> NaN) by now apply (between_not_NaN 40 200).
    split; [now apply between_spec|].
    split; apply strictEq_false_neq; try assumption.
    + destruct (inRangeOrZero_cases 70 250 s1) as [-> | [-> _]];
        [now apply strictEq_zero | assumption].
    + destruct (inRangeOrZero_cases 40 150 d1) as [-> | [-> _]];
        [now apply strictEq_zero | assumption].
Qed.

Lemma pulse_fallback_exclusion_witness :
  let r := extractDataFromText (str "120 80 75") in
  pulse r = int 0
  \/ (InRange 40 200 (pulse r) /\ pulse r <> sys r /\ pulse r <> dia r).
Proof.
  apply (proj2 (proj2 (pulse_fallback_exclusion (str "120 80 75"))));
    vm_compute; reflexivity.
Defined.

(** ** Time and period (C7, C9) and the worked example (C8) *)

(** C7, at the failing inputs.  The time field is not always a valid
    "HH:MM": the pattern "H am/pm" has two groups, so its period lands in
    the minute slot, and the patterns with a colon accept any digits. *)
Theorem time_not_validated :
  time (extractDataFromText (str "7 am")) = str "07:NaN"
  /\ validClock (time (extractDataFromText (str "7 am"))) = false
  /\ time (extractDataFromText (str "25:61")) = str "25:61"
  /\ validClock (time (extractDataFromText (str "25:61"))) = false.
Proof. vm_compute. repeat split. Qed.

(** C9, at the failing inputs.  "morning" and "afternoon" are matched by
    patterns without a capture group, so the period stays empty. *)
Theorem period_words_unmapped :
  period (extractDataFromText (str "morning")) = str ""
  /\ period (extractDataFromText (str "afternoon")) = str "".
Proof. vm_compute. split; reflexivity. Qed.

(** C8. For "7m 15d 12:30 pm sys 130 dia 85 pulse 70" the record is
    month 7, day 15, time "12:30", period "PM", sys 130, dia 85,
    pulse 70. *)
Theorem date_fallback_example :
  extractDataFromText (str "7m 15d 12:30 pm sys 130 dia 85 pulse 70")
  = {| day := int 15; month := int 7; time := str "12:30";
       period := str "PM"; sys := int 130; dia := int 85;
       pulse := int 70 |}.
Proof. vm_compute. reflexivity. Qed.

(** * Normalization *)

(** ** Meta-theory of the matcher *)

Lemma steps_refl c : steps c [] c.
Proof. split; reflexivity. Qed.

Lemma steps_trans c1 w1 c2 w2 c3 :
  steps c1 w1 c2 -> steps c2 w2 c3 -> steps c1 (w1 ++ w2) c3.
Proof.
  intros [A1 B1] [A2 B2]. split.
  - now rewrite A1, A2, app_assoc.
  - now rewrite B2, B1, rev_app_distr, app_assoc.
Qed.

Lemma steps_one l x xs : steps (Cur l (x :: xs)) [x] (Cur (x :: l) xs).
Proof. split; reflexivity. Qed.

Lemma textBetween_steps c w c' : steps c w c' -> textBetween c c' = w.
Proof.
  intros [_ B]. unfold textBetween. rewrite B.
  rewrite length_app, length_rev.
  replace (List.length w + List.length (before c) - List.length (before c))%nat
    with (List.length (rev w) + 0)%nat by (rewrite length_rev; lia).
  rewrite firstn_app_2. simpl. rewrite app_nil_r. apply rev_involutive.
Qed.

Lemma capsExt_refl P cs : capsExt P cs cs.
Proof. exists []. split; [reflexivity | constructor]. Qed.

Lemma capsExt_trans P cs1 cs2 cs3 :
  capsExt P cs1 cs2 -> capsExt P cs2 cs3 -> capsExt P cs1 cs3.
Proof.
  intros (n1 & -> & F1) (n2 & -> & F2). exists (n2 ++ n1).
  split; [now rewrite app_assoc | now apply Forall_app].
Qed.

Lemma capsExt_cons P cs i s : Forall P s -> capsExt P cs ((i, s) :: cs).
Proof. intros H. exists [(i, s)]. split; [reflexivity | now repeat constructor]. Qed.

Lemma consumes_and (P Q : char -> Prop) r :
  consumes P r -> consumes Q r -> consumes (fun x => P x /\ Q x) r.
Proof.
  induction r; simpl; intros; intuition auto.
Qed.

Lemma Forall_and_l {X} (P Q : X -> Prop) l :
  Forall (fun x => P x /\ Q x) l -> Forall P l.
Proof. apply Forall_impl. tauto. Qed.

Lemma Forall_and_r {X} (P Q : X -> Prop) l :
  Forall (fun x => P x /\ Q x) l -> Forall Q l.
Proof. apply Forall_impl. tauto. Qed.

Section Steps.

Variable A : Type.

(** A successful quantifier hands its continuation a position reached
    over at least [lo] characters, all in the class. *)
Lemma rep_steps (P : char -> Prop) p lo hi :
  (forall x, p x = true -> P x) ->
  forall (r l : jsstring) (k : cursor -> option A) (a : A),
    rep p lo hi l r k = Some a ->
    exists w c', steps (Cur l r) w c' /\ Forall P w
                 /\ (lo <= List.length w)%nat /\ k c' = Some a.
Proof.
  intros Hp r. revert lo hi.
  induction r as [|x r IH]; intros lo hi l k a H.
  - assert (lo = 0%nat /\ k (Cur l []) = Some a) as [-> Hk].
    { destruct hi as [[|h]|]; destruct lo; simpl in H; try discriminate; auto. }
    exists [], (Cur l []). repeat split; auto.
  - assert (Hstop : (match lo with O => k (Cur l (x :: r)) | S _ => None end) = Some a ->
              exists w c', steps (Cur l (x :: r)) w c' /\ Forall P w
                 /\ (lo <= List.length w)%nat /\ k c' = Some a).
    { destruct lo; [|discriminate]. intros Hk.
      exists [], (Cur l (x :: r)). repeat split; auto. }
    assert (Hgo : p x = true ->
              forall hi',
              rep p (Nat.pred lo) hi' (x :: l) r k = Some a ->
              exists w c', steps (Cur l (x :: r)) w c' /\ Forall P w
                 /\ (lo <= List.length w)%nat /\ k c' = Some a).
    { intros Hx hi' Hr. apply IH in Hr as (w & c' & S1 & F & L & Hk).
      exists (x :: w), c'. repeat split.
      - destruct S1 as [S1 _]. simpl in *. now rewrite S1.
      - destruct S1 as [_ S1]. simpl in *. now rewrite S1, <- app_assoc.
      - constructor; auto.
      - simpl. lia.
      - assumption. }
    simpl in H.
    destruct hi as [[|h]|]; auto.
    + destruct (p x) eqn:Ex; auto.
      destruct (rep p (Nat.pred lo) _ (x :: l) r k) eqn:Er; auto.
      inversion H; subst. eapply Hgo; eauto.
    + destruct (p x) eqn:Ex; auto.
      destruct (rep p (Nat.pred lo) _ (x :: l) r k) eqn:Er; auto.
      inversion H; subst. eapply Hgo; eauto.
Qed.

Variable G : char -> Prop.

Lemma reached_intro P r c cs k a w c' cs' :
  steps c w c' -> Forall P w -> (minLen r <= List.length w)%nat ->
  capsExt G cs cs' -> (endsBnd r = true -> atBoundary c' = true) ->
  k c' cs' = Some a -> reached A G P r c cs k a.
Proof. intros. exists w, c', cs'. auto 10. Qed.

(** A successful run hands its continuation a position reached over
    text the pattern may consume, with captures the groups may take; when
    the pattern ends with a word boundary, that position is on one. *)
Lemma run_steps r :
  forall P, consumes P r -> captureOnly G r ->
  forall (c : cursor) (cs : captures)
         (k : cursor -> captures -> option A) (a : A),
    run r c cs k = Some a -> reached A G P r c cs k a.
Proof.
  induction r as [|p|r1 IH1 r2 IH2|r1 IH1 r2 IH2|lo hi p|i r1 IH1|];
    intros P HP HG c cs k a H; simpl in *.
  - apply (reached_intro P Eps c cs k a [] c cs);
      [ apply steps_refl | constructor | simpl; lia | apply capsExt_refl
      | discriminate | exact H ].
  - destruct c as [l [|x xs]]; simpl in H; [discriminate|].
    destruct (p x) eqn:Ex; [|discriminate].
    apply (reached_intro P (Chr p) (Cur l (x :: xs)) cs k a [x]
             (Cur (x :: l) xs) cs);
      [ apply steps_one | repeat constructor; auto | simpl; lia
      | apply capsExt_refl | discriminate | exact H ].
  - destruct HP as [HP1 HP2], HG as [HG1 HG2].
    apply (IH1 P) in H as (w1 & c1 & cs1 & S1 & F1 & L1 & E1 & _ & H); auto.
    apply (IH2 P) in H as (w2 & c2 & cs2 & S2 & F2 & L2 & E2 & B2 & H); auto.
    apply (reached_intro P (Seq r1 r2) c cs k a (w1 ++ w2) c2 cs2);
      [ eapply steps_trans; eassumption
      | now apply Forall_app
      | rewrite length_app; simpl; lia
      | eapply capsExt_trans; eauto
      | exact B2
      | exact H ].
  - destruct HP as [HP1 HP2], HG as [HG1 HG2].
    destruct (run r1 c cs k) eqn:E1.
    + inversion H; subst.
      apply (IH1 P) in E1 as (w & c' & cs' & S1 & F & L & E & _ & Hk); auto.
      apply (reached_intro P (Alt r1 r2) c cs k a w c' cs');
        [ exact S1 | exact F | simpl; lia | exact E | discriminate | exact Hk ].
    + apply (IH2 P) in H as (w & c' & cs' & S1 & F & L & E & _ & Hk); auto.
      apply (reached_intro P (Alt r1 r2) c cs k a w c' cs');
        [ exact S1 | exact F | simpl; lia | exact E | discriminate | exact Hk ].
  - apply (rep_steps P p lo hi HP) in H as (w & c' & S1 & F & L & Hk).
    destruct c as [l rt]. simpl in *.
    apply (reached_intro P (Rep lo hi p) (Cur l rt) cs k a w c' cs);
      [ exact S1 | exact F | exact L | apply capsExt_refl
      | discriminate | exact Hk ].
  - destruct HG as [HG1 HG2].
    apply (IH1 (fun x => P x /\ G x)) in H
      as (w & c' & cs' & S1 & F & L & E & _ & Hk);
      auto using consumes_and.
    apply (reached_intro P (Grp i r1) c cs k a w c'
             ((i, textBetween c c') :: cs'));
      [ exact S1
      | eapply Forall_and_l; eauto
      | exact L
      | eapply capsExt_trans; [exact E|]; apply capsExt_cons;
        rewrite (textBetween_steps _ _ _ S1); eapply Forall_and_r; eauto
      | discriminate
      | exact Hk ].
  - destruct (atBoundary c) eqn:Eb; [|discriminate].
    apply (reached_intro P Bnd c cs k a [] c cs);
      [ apply steps_refl | constructor | simpl; lia | apply capsExt_refl
      | intros _; exact Eb | exact H ].
Qed.

End Steps.

(** ** Simulation between two runs of one pattern *)

Lemma optRel_orElse {X Y : Type} (Q : X -> Y -> Prop) a b a' b' :
  optRel Q a b -> optRel Q a' b' ->
  optRel Q (match a with Some v => Some v | None => a' end)
           (match b with Some v => Some v | None => b' end).
Proof. intros [|x y Hxy] H'; [exact H' | now constructor]. Qed.

Section Simulation.

Variables X Y : Type.
Variable R : cursor -> cursor -> Prop.
Variable phi : jsstring -> jsstring.
Variable Q : X -> Y -> Prop.

Hypothesis R_boundary : forall c1 c2, R c1 c2 -> atBoundary c1 = atBoundary c2.
Hypothesis R_text :
  forall c1 c2 c1' c2', R c1 c2 -> R c1' c2' ->
    textBetween c2 c2' = phi (textBetween c1 c1').

Lemma rep_sim p lo hi :
  stepOK R p ->
  forall (r1 l1 : jsstring) (c2 : cursor)
         (k1 : cursor -> option X) (k2 : cursor -> option Y),
    R (Cur l1 r1) c2 ->
    (forall c1' c2', R c1' c2' -> optRel Q (k1 c1') (k2 c2')) ->
    optRel Q (rep p lo hi l1 r1 k1) (rep p lo hi (before c2) (after c2) k2).
Proof.
  intros Hp r1. revert lo hi.
  induction r1 as [|x r1 IH]; intros lo hi l1 c2 k1 k2 HR Hk.
  - pose proof (Hp _ _ HR) as Hs. unfold stepBy in Hs. simpl in Hs.
    assert (Hstop : optRel Q (match lo with O => k1 (Cur l1 []) | S _ => None end)
                      (match lo with O => k2 c2 | S _ => None end)).
    { destruct lo; [now apply Hk | constructor]. }
    destruct c2 as [l2 [|y r2]]; simpl in *.
    + destruct hi as [[|h]|]; exact Hstop.
    + destruct (p y) eqn:Ey; [inversion Hs|].
      destruct hi as [[|h]|]; exact Hstop.
  - pose proof (Hp _ _ HR) as Hs. unfold stepBy in Hs. simpl in Hs.
    assert (Hstop : optRel Q
                      (match lo with O => k1 (Cur l1 (x :: r1)) | S _ => None end)
                      (match lo with O => k2 c2 | S _ => None end)).
    { destruct lo; [now apply Hk | constructor]. }
    destruct c2 as [l2 [|y r2]]; simpl in *.
    + destruct (p x) eqn:Ex; [inversion Hs|].
      destruct hi as [[|h]|]; exact Hstop.
    + destruct (p x) eqn:Ex, (p y) eqn:Ey; try (inversion Hs; fail).
      * inversion Hs as [|? ? HR']; subst.
        assert (Hgo : forall hi',
                  optRel Q (rep p (Nat.pred lo) hi' (x :: l1) r1 k1)
                    (rep p (Nat.pred lo) hi' (y :: l2) r2 k2)).
        { intros hi'. apply (IH (Nat.pred lo) hi' (x :: l1) (Cur (y :: l2) r2)); auto. }
        destruct hi as [[|h]|]; try exact Hstop.
        -- apply optRel_orElse; [apply Hgo | exact Hstop].
        -- apply optRel_orElse; [apply Hgo | exact Hstop].
      * destruct hi as [[|h]|]; exact Hstop.
Qed.

Lemma run_sim r :
  predsOK R r ->
  forall (c1 c2 : cursor) (cs1 cs2 : captures)
         (k1 : cursor -> captures -> option X)
         (k2 : cursor -> captures -> option Y),
    R c1 c2 -> capRel phi cs1 cs2 ->
    (forall c1' c2' cs1' cs2',
        R c1' c2' -> capRel phi cs1' cs2' -> optRel Q (k1 c1' cs1') (k2 c2' cs2')) ->
    optRel Q (run r c1 cs1 k1) (run r c2 cs2 k2).
Proof.
  induction r as [|p|r1 IH1 r2 IH2|r1 IH1 r2 IH2|lo hi p|i r1 IH1|];
    intros HP c1 c2 cs1 cs2 k1 k2 HR HC Hk; simpl in *.
  - now apply Hk.
  - pose proof (HP _ _ HR) as Hs. unfold stepBy in Hs.
    destruct (after c1) as [|x xs], (after c2) as [|y ys].
    + constructor.
    + destruct (p y); [inversion Hs | constructor].
    + destruct (p x); [inversion Hs | constructor].
    + destruct (p x), (p y); try (inversion Hs; fail); [|constructor].
      inversion Hs; subst. now apply Hk.
  - destruct HP as [HP1 HP2].
    apply IH1; auto; intros; apply IH2; auto.
  - destruct HP as [HP1 HP2].
    apply optRel_orElse; [apply IH1 | apply IH2]; auto.
  - destruct c1 as [l1 r1]. simpl.
    apply rep_sim; auto.
  - apply IH1; auto. intros c1' c2' cs1' cs2' HR' HC'.
    apply Hk; auto. unfold capRel in *. simpl.
    now rewrite HC', (R_text c1 c2 c1' c2' HR HR').
  - rewrite <- (R_boundary _ _ HR).
    destruct (atBoundary c1); [now apply Hk | constructor].
Qed.

End Simulation.

(** ** Tokens *)

Lemma itemsFrom_word w : Forall isWord w ->
  forall acc rest, itemsFrom acc (w ++ rest) = itemsFrom (rev w ++ acc) rest.
Proof.
  induction 1 as [|x w Hx _ IH]; intros acc rest; simpl; [reflexivity|].
  rewrite Hx, IH. now rewrite <- app_assoc.
Qed.

Lemma itemsFrom_flush acc rest :
  wordAt rest = false -> itemsFrom acc rest = flushTok acc ++ items rest.
Proof.
  destruct rest as [|x rest]; unfold items; simpl; intros H.
  - now rewrite app_nil_r.
  - now rewrite H.
Qed.

Lemma items_sep x s : isWordChar x = false -> items (x :: s) = Sep x :: items s.
Proof. intros H. unfold items. simpl. rewrite H. reflexivity. Qed.

Lemma items_token w rest :
  Forall isWord w -> w <> [] -> wordAt rest = false ->
  items (w ++ rest) = Tok w :: items rest.
Proof.
  intros Hw Hne Hr. unfold items at 1.
  rewrite (itemsFrom_word w Hw), app_nil_r, (itemsFrom_flush _ _ Hr).
  unfold flushTok. destruct (rev w) eqn:E.
  - apply (f_equal (@rev char)) in E. rewrite rev_involutive in E. now subst.
  - now rewrite <- E, rev_involutive.
Qed.

(** Every text splits into its leading run of word characters and a rest
    that does not begin with one. *)
Lemma word_prefix (s : jsstring) :
  exists w rest, s = w ++ rest /\ Forall isWord w /\ wordAt rest = false.
Proof.
  induction s as [|x s (w & rest & -> & Hw & Hr)].
  - exists [], []. auto.
  - destruct (isWordChar x) eqn:Ex.
    + exists (x :: w), rest. repeat split; auto.
    + exists [], (x :: w ++ rest). repeat split; auto.
Qed.

Lemma word_prefix_unique w1 rest1 w2 rest2 :
  w1 ++ rest1 = w2 ++ rest2 ->
  Forall isWord w1 -> wordAt rest1 = false ->
  Forall isWord w2 -> wordAt rest2 = false ->
  w1 = w2 /\ rest1 = rest2.
Proof.
  intros E H1. revert w2 E.
  induction H1 as [|x w1 Hx _ IH]; intros w2 E R1 H2 R2.
  - destruct H2 as [|y w2 Hy _]; [auto|].
    simpl in E. subst rest1. simpl in R1. unfold isWord in Hy. congruence.
  - destruct H2 as [|y w2 Hy H2].
    + simpl in E. subst rest2. simpl in R2. unfold isWord in Hx. congruence.
    + simpl in E. inversion E; subst.
      destruct (IH w2 H1 R1 H2 R2) as [-> ->]. auto.
Qed.

Lemma wordAt_app b l : wordAt l = false -> wordAt (b ++ l) = wordAt b.
Proof. destruct b; simpl; auto. Qed.

Lemma wordAt_rev_word w l :
  Forall isWord w -> w <> [] -> wordAt (rev w ++ l) = true.
Proof.
  intros Hw Hne. destruct (rev w) as [|x t] eqn:E.
  - apply (f_equal (@rev char)) in E. rewrite rev_involutive in E. now subst.
  - simpl. apply Forall_rev in Hw. rewrite E in Hw. now inversion Hw.
Qed.

(** ** Token rules *)

Lemma captureOnly_True r : captureOnly (fun _ => True) r.
Proof. induction r; simpl; auto. split; auto. clear. induction r; simpl; auto. Qed.

Section TokenRule.

Variable r : regex.
Hypothesis Hrule : tokenRule r.

(** A match of a token rule starts before a token and ends after it. *)
Lemma tokenRule_match l rt m :
  matchAt r (Cur l rt) = Some m ->
  wordAt l = false
  /\ exists w rest,
       rt = w ++ rest /\ w <> [] /\ Forall isWord w /\ wordAt rest = false
       /\ m = Found (Cur l rt) (Cur (rev w ++ l) rest) (mcaps m).
Proof.
  destruct Hrule as (Hs & He & Hc & Hm).
  unfold matchAt. intros H.
  assert (Hb : atBoundary (Cur l rt) = true).
  { destruct r as [| |r1 r2| | | |]; try discriminate.
    destruct r1; try discriminate. simpl in H.
    destruct (atBoundary (Cur l rt)); [reflexivity | discriminate]. }
  apply (run_steps _ (fun _ => True) r isWord Hc (captureOnly_True r)) in H
    as (w & c' & cs' & [S1 S2] & F & L & _ & B & Hk).
  specialize (B He). inversion Hk; subst m. simpl in *.
  destruct c' as [l' rest]. simpl in *. subst l' rt.
  assert (Hne : w <> []) by (destruct w; [simpl in L; lia | discriminate]).
  assert (Hl : wordAt (rev w ++ l) = true) by now apply wordAt_rev_word.
  unfold atBoundary in B, Hb. simpl in B, Hb. rewrite Hl in B.
  assert (Hr : wordAt rest = false) by (destruct (wordAt rest); [discriminate | reflexivity]).
  assert (Hw : wordAt (w ++ rest) = true).
  { destruct w as [|x w]; [congruence|]. simpl. now inversion F. }
  rewrite Hw in Hb.
  split; [destruct (wordAt l); [discriminate | reflexivity]|].
  exists w, rest. auto.
Qed.

Lemma framed_boundary l rest :
  wordAt l = false -> wordAt rest = false ->
  forall c1 c2, framed l rest c1 c2 -> atBoundary c1 = atBoundary c2.
Proof.
  intros Hl Hr c1 c2 ->. unfold atBoundary. simpl.
  now rewrite !wordAt_app.
Qed.

Lemma framed_text l rest c1 c2 c1' c2' :
  framed l rest c1 c2 -> framed l rest c1' c2' ->
  textBetween c2 c2' = textBetween c1 c1'.
Proof.
  intros -> ->. unfold textBetween. simpl. f_equal.
  rewrite !length_app.
  replace (List.length (before c1') + List.length l
           - (List.length (before c1) + List.length l))%nat
    with (List.length (before c1') - List.length (before c1))%nat by lia.
  rewrite firstn_app.
  replace (List.length (before c1') - List.length (before c1)
           - List.length (before c1'))%nat with 0%nat by lia.
  simpl. apply app_nil_r.
Qed.

Lemma framed_step l rest p :
  wordAt rest = false -> (forall x, p x = true -> isWord x) ->
  stepOK (framed l rest) p.
Proof.
  intros Hr Hp c1 c2 ->. unfold stepBy. simpl.
  destruct (after c1) as [|x xs]; simpl.
  - destruct rest as [|y rest]; [constructor|].
    destruct (p y) eqn:Ey; [|constructor].
    apply Hp in Ey. unfold isWord in Ey. simpl in Hr. congruence.
  - destruct (p x); constructor. reflexivity.
Qed.

Lemma framed_preds l rest r0 :
  wordAt rest = false -> consumes isWord r0 -> predsOK (framed l rest) r0.
Proof.
  intros Hr. induction r0; simpl; auto using framed_step; tauto.
Qed.

Lemma capRel_id cs : capRel (fun s => s) cs cs.
Proof.
  unfold capRel. induction cs as [|[i s] cs IH]; simpl; [reflexivity|].
  now rewrite <- IH.
Qed.

Lemma capRel_id_eq cs1 cs2 : capRel (fun s => s) cs1 cs2 -> cs2 = cs1.
Proof. intros ->. symmetry. apply capRel_id. Qed.

Lemma tokenRule_framed l w rest :
  wordAt l = false -> wordAt rest = false ->
  optRel (fun m1 m2 => toArray r m1 = toArray r m2)
    (matchAt r (Cur [] w)) (matchAt r (Cur l (w ++ rest))).
Proof.
  intros Hl Hr. destruct Hrule as (_ & _ & Hc & _).
  unfold matchAt.
  apply (run_sim found found (framed l rest) (fun s => s)
           (fun m1 m2 => toArray r m1 = toArray r m2)
           (framed_boundary l rest Hl Hr)
           (framed_text l rest)
           r (framed_preds l rest r Hr Hc)).
  - reflexivity.
  - reflexivity.
  - intros c1' c2' cs1' cs2' HR HC. constructor.
    apply capRel_id_eq in HC. subst cs2'.
    unfold toArray, mtext. simpl.
    now rewrite (framed_text l rest (Cur [] w) (Cur l (w ++ rest)) c1' c2').
Qed.

(** The rewriting a rule performs on one token. *)
Variable f : marray -> jsstring.

Lemma matchAt_inside l rt : wordAt l = true -> matchAt r (Cur l rt) = None.
Proof.
  intros Hl. destruct (matchAt r (Cur l rt)) eqn:E; [|reflexivity].
  apply tokenRule_match in E as [E _]. congruence.
Qed.

Lemma matchAt_nonword l rt : wordAt rt = false -> matchAt r (Cur l rt) = None.
Proof.
  intros Hr. destruct (matchAt r (Cur l rt)) eqn:E; [|reflexivity].
  apply tokenRule_match in E as [_ (w & rest & -> & Hne & Hw & _)].
  destruct w as [|x w]; [congruence|]. simpl in Hr.
  inversion Hw; subst. unfold isWord in *. congruence.
Qed.

Lemma replaceFrom_skip n : forall a l b,
  List.length a = n ->
  replaceFrom r f n l (a ++ b) = replaceFrom r f 0 (rev a ++ l) b.
Proof.
  induction n as [|n IH]; intros a l b Ha.
  - destruct a; [reflexivity | discriminate].
  - destruct a as [|x a]; [discriminate|]. simpl in Ha.
    simpl. rewrite IH by lia. now rewrite <- app_assoc.
Qed.

(** Inside a token nothing matches: the characters are copied. *)
Lemma replaceFrom_inside w : Forall isWord w ->
  forall l rest, wordAt l = true ->
    replaceFrom r f 0 l (w ++ rest)
    = w ++ replaceFrom r f 0 (rev w ++ l) rest.
Proof.
  induction 1 as [|x w Hx _ IH]; intros l rest Hl; [reflexivity|].
  cbn [app replaceFrom]. rewrite (matchAt_inside _ _ Hl).
  rewrite IH by (simpl; exact Hx).
  simpl. now rewrite <- app_assoc.
Qed.

Lemma replaceG_tokens_aux n : forall rt l,
  (List.length rt <= n)%nat -> wordAt l = false ->
  replaceFrom r f 0 l rt = mapTokens (rewriteTok r f) rt.
Proof.
  induction n as [|n IH]; intros rt l Hn Hl.
  - destruct rt; [|simpl in Hn; lia]. cbn. now rewrite matchAt_nonword.
  - assert (Hafter : forall l' rest,
              (List.length rest <= S n)%nat -> wordAt rest = false ->
              replaceFrom r f 0 l' rest = mapTokens (rewriteTok r f) rest).
    { intros l' [|y rest'] Hlen Hr.
      - cbn. now rewrite matchAt_nonword.
      - cbn [replaceFrom]. rewrite (matchAt_nonword _ _ Hr).
        simpl in Hr. unfold mapTokens. rewrite (items_sep _ _ Hr). simpl.
        f_equal. apply IH; [simpl in Hlen; lia | exact Hr]. }
    destruct (word_prefix rt) as (w & rest & -> & Hw & Hr).
    destruct w as [|x w]; [now apply Hafter|].
    assert (Hlen : (List.length rest <= S n)%nat)
      by (rewrite length_app in Hn; simpl in Hn; lia).
    unfold mapTokens. rewrite (items_token (x :: w) rest Hw); [|discriminate|exact Hr].
    cbn [flat_map render]. fold (mapTokens (rewriteTok r f) rest).
    pose proof (tokenRule_framed l (x :: w) rest Hl Hr) as Hf.
    unfold rewriteTok at 1.
    change ((x :: w) ++ rest) with (x :: (w ++ rest)) in *.
    cbn [replaceFrom].
    inversion Hf as [E1 E2 | m1 m2 Hm E1 E2].
    + inversion Hw; subst.
      rewrite replaceFrom_inside by (auto; simpl; assumption).
      rewrite (Hafter _ rest Hlen Hr). reflexivity.
    + symmetry in E2.
      destruct (tokenRule_match _ _ _ E2)
        as (_ & w2 & rest2 & E & Hne & Hw2 & Hr2 & Em).
      destruct (word_prefix_unique (x :: w) rest w2 rest2 E Hw Hr Hw2 Hr2)
        as [<- <-].
      assert (Hml : mlen m2 = S (List.length w)).
      { rewrite Em. unfold mlen, mtext. simpl.
        rewrite (textBetween_steps (Cur l (x :: w ++ rest)) (x :: w)).
        - reflexivity.
        - split; simpl; [reflexivity|]. now rewrite <- app_assoc. }
      rewrite Hml, <- Hm. cbn [Nat.eqb Nat.pred app].
      rewrite (replaceFrom_skip (List.length w) w (x :: l) rest eq_refl).
      rewrite (Hafter _ rest Hlen Hr). reflexivity.
Qed.

(** Replacing the matches of a token rule rewrites each token. *)
Theorem replaceG_tokens (s : jsstring) :
  replaceG r f s = mapTokens (rewriteTok r f) s.
Proof. apply (replaceG_tokens_aux (List.length s)); auto. Qed.

End TokenRule.

(** ** Tokens of rewritten texts *)

Lemma render_itemsFrom acc s :
  flat_map (render (fun w => w)) (itemsFrom acc s) = rev acc ++ s.
Proof.
  revert acc. induction s as [|x s IH]; intros acc; simpl.
  - destruct acc; simpl; [reflexivity|]. now rewrite !app_nil_r.
  - destruct (isWordChar x).
    + rewrite IH. simpl. now rewrite <- app_assoc.
    + rewrite flat_map_app. simpl. rewrite IH. simpl. f_equal.
      destruct acc; simpl; [reflexivity|]. now rewrite !app_nil_r.
Qed.

Lemma render_items s : flat_map (render (fun w => w)) (items s) = s.
Proof. apply (render_itemsFrom [] s). Qed.

Lemma In_tokens w s : In w (tokens s) <-> In (Tok w) (items s).
Proof.
  unfold tokens. rewrite in_flat_map. split.
  - intros ([w'|x] & Hin & Hw); simpl in Hw; [|contradiction].
    destruct Hw as [-> | []]. exact Hin.
  - intros H. exists (Tok w). simpl. auto.
Qed.

(** A rewriting that fixes every token of a text fixes the text. *)
Lemma mapTokens_id g s :
  (forall w, In w (tokens s) -> g w = w) -> mapTokens g s = s.
Proof.
  intros H. rewrite <- (render_items s) at 2. unfold mapTokens.
  assert (K : forall its, (forall w, In (Tok w) its -> g w = w) ->
              flat_map (render g) its = flat_map (render (fun w => w)) its).
  { induction its as [|[w|x] its IH]; intros Hi; simpl; [reflexivity| |].
    - rewrite Hi by (left; reflexivity). f_equal. apply IH.
      intros w' Hw'. apply Hi. now right.
    - f_equal. apply IH. intros w' Hw'. apply Hi. now right. }
  apply K. intros w Hw. apply H. now apply In_tokens.
Qed.

Lemma itemsFrom_app_sep a x b : isWordChar x = false ->
  forall acc, itemsFrom acc (a ++ x :: b) = itemsFrom acc a ++ Sep x :: items b.
Proof.
  intros Hx. induction a as [|z a IH]; intros acc; simpl.
  - now rewrite Hx.
  - destruct (isWordChar z).
    + apply IH.
    + rewrite IH. now rewrite <- app_assoc.
Qed.

Lemma tokens_app_sep a x b : isWordChar x = false ->
  tokens (a ++ x :: b) = tokens a ++ tokens b.
Proof.
  intros Hx. unfold tokens, items.
  rewrite (itemsFrom_app_sep a x b Hx), flat_map_app. reflexivity.
Qed.

Lemma tokens_sep x s : isWordChar x = false -> tokens (x :: s) = tokens s.
Proof. intros Hx. apply (tokens_app_sep [] x s Hx). Qed.

Lemma tokens_word w : Forall isWord w -> w <> [] -> tokens w = [w].
Proof.
  intros Hw Hne. unfold tokens.
  rewrite <- (app_nil_r w) at 1.
  rewrite (items_token w [] Hw Hne eq_refl). reflexivity.
Qed.

Lemma mapTokens_sep g x s :
  isWordChar x = false -> mapTokens g (x :: s) = x :: mapTokens g s.
Proof. intros Hx. unfold mapTokens. now rewrite (items_sep _ _ Hx). Qed.

Lemma mapTokens_token g w rest :
  Forall isWord w -> w <> [] -> wordAt rest = false ->
  mapTokens g (w ++ rest) = g w ++ mapTokens g rest.
Proof.
  intros Hw Hne Hr. unfold mapTokens. now rewrite (items_token w rest Hw Hne Hr).
Qed.

Lemma tokens_token w rest :
  Forall isWord w -> w <> [] -> wordAt rest = false ->
  tokens (w ++ rest) = w :: tokens rest.
Proof.
  intros Hw Hne Hr. unfold tokens. now rewrite (items_token w rest Hw Hne Hr).
Qed.

(** Induction over a text, token by token. *)
Lemma token_induction (P : jsstring -> Prop) :
  P [] ->
  (forall x s, isWordChar x = false -> P s -> P (x :: s)) ->
  (forall w, Forall isWord w -> w <> [] -> P w) ->
  (forall w x s, Forall isWord w -> w <> [] -> isWordChar x = false ->
                 P s -> P (w ++ x :: s)) ->
  forall s, P s.
Proof.
  intros Hnil Hsep Hlast Htok s.
  assert (K : forall n s, (List.length s <= n)%nat -> P s).
  { induction n as [|n IH]; intros s' Hn.
    - destruct s'; [exact Hnil | simpl in Hn; lia].
    - destruct (word_prefix s') as (w & rest & -> & Hw & Hr).
      rewrite length_app in Hn.
      destruct w as [|y w].
      + destruct rest as [|x rest]; [exact Hnil|].
        apply Hsep; [exact Hr|]. apply IH. simpl in Hn. lia.
      + destruct rest as [|x rest].
        * rewrite app_nil_r. apply Hlast; [exact Hw | discriminate].
        * apply Htok; [exact Hw | discriminate | exact Hr |].
          apply IH. simpl in Hn. lia. }
  apply (K (List.length s)). lia.
Qed.

(** The tokens of a rewritten text are the tokens of the rewritten
    tokens. *)
Lemma tokens_mapTokens g s :
  tokens (mapTokens g s) = flat_map (fun w => tokens (g w)) (tokens s).
Proof.
  induction s as [|x s Hx IH|w Hw Hne|w x s Hw Hne Hx IH] using token_induction.
  - reflexivity.
  - now rewrite (mapTokens_sep g x s Hx), !(tokens_sep _ _ Hx).
  - rewrite <- (app_nil_r w) at 1.
    rewrite (mapTokens_token g w [] Hw Hne eq_refl).
    rewrite (tokens_word w Hw Hne). simpl. unfold mapTokens. simpl.
    now rewrite !app_nil_r.
  - rewrite (mapTokens_token g w (x :: s) Hw Hne Hx).
    rewrite (mapTokens_sep g x s Hx).
    rewrite (tokens_app_sep (g w) x _ Hx).
    rewrite (tokens_token w (x :: s) Hw Hne Hx), (tokens_sep x s Hx).
    simpl. now rewrite IH.
Qed.

Lemma tokens_words s w : In w (tokens s) -> Forall isWord w /\ w <> [].
Proof.
  induction s as [|x s Hx IH|w' Hw Hne|w' x s Hw Hne Hx IH] using token_induction.
  - intros [].
  - rewrite (tokens_sep x s Hx). exact IH.
  - rewrite (tokens_word w' Hw Hne). intros [<- | []]. auto.
  - rewrite (tokens_token w' (x :: s) Hw Hne Hx), (tokens_sep x s Hx).
    intros [<- | H]; auto.
Qed.

(** ** Character facts *)

Ltac bool_to_prop :=
  repeat (rewrite ?andb_true_iff, ?orb_true_iff, ?negb_true_iff,
            ?andb_false_iff, ?orb_false_iff, ?negb_false_iff,
            ?N.leb_le, ?N.leb_gt, ?N.eqb_eq, ?N.eqb_neq in * ).

Ltac char_facts :=
  unfold isWord, isCharI, isChar, lowerChar, isWordChar, isSpace, isDigit,
    isUpper, isLower, digit, space in *;
  repeat match goal with
         | |- context [if ?b then _ else _] => destruct b eqn:?
         | H : context [if ?b then _ else _] |- _ => destruct b eqn:?
         end;
  bool_to_prop; lia.

Lemma digit_word x : isDigit x = true -> isWord x.
Proof. intros H. char_facts. Qed.

Lemma lowerChar_idem x : lowerChar (lowerChar x) = lowerChar x.
Proof. char_facts. Qed.

Lemma lowerChar_word x : isWordChar (lowerChar x) = isWordChar x.
Proof.
  destruct (isWordChar x) eqn:E.
  - char_facts.
  - apply not_true_is_false. intros H. apply not_true_iff_false in E. apply E.
    char_facts.
Qed.

Lemma lowerChar_digit x : isDigit (lowerChar x) = isDigit x.
Proof.
  destruct (isDigit x) eqn:E.
  - char_facts.
  - apply not_true_is_false. intros H. apply not_true_iff_false in E. apply E.
    char_facts.
Qed.

Lemma isCharI_lower a x : isCharI a (lowerChar x) = isCharI a x.
Proof. unfold isCharI. now rewrite lowerChar_idem. Qed.

Lemma isCharI_word a x : isWordChar a = true -> isCharI a x = true -> isWord x.
Proof. intros Ha Hx. char_facts. Qed.

Lemma isCharI_letter_digit a x :
  isLower a = true -> isDigit x = true -> isCharI a x = false.
Proof.
  intros Ha Hx. apply not_true_is_false. intros H. char_facts.
Qed.

(** ** Matching is blind to letter case *)

Lemma wordAt_lower l : wordAt (toLowerCase l) = wordAt l.
Proof. destruct l; simpl; [reflexivity | apply lowerChar_word]. Qed.

Lemma lowered_boundary c1 c2 : lowered c1 c2 -> atBoundary c1 = atBoundary c2.
Proof. intros ->. unfold atBoundary. simpl. now rewrite !wordAt_lower. Qed.

Lemma lowered_text c1 c2 c1' c2' :
  lowered c1 c2 -> lowered c1' c2' ->
  textBetween c2 c2' = toLowerCase (textBetween c1 c1').
Proof.
  intros -> ->. unfold textBetween, toLowerCase. simpl.
  now rewrite !length_map, firstn_map, map_rev.
Qed.

Lemma lowered_step p : (forall x, p (lowerChar x) = p x) -> stepOK lowered p.
Proof.
  intros Hp c1 c2 ->. unfold stepBy. simpl.
  destruct (after c1) as [|x xs]; simpl; [constructor|].
  rewrite Hp. destruct (p x); constructor. reflexivity.
Qed.

Lemma lowered_preds r : lowerInv r -> predsOK lowered r.
Proof. induction r; simpl; auto using lowered_step; tauto. Qed.

Lemma matchAt_lower r w :
  lowerInv r ->
  matchAt r (Cur [] w) = None -> matchAt r (Cur [] (toLowerCase w)) = None.
Proof.
  intros Hr H.
  assert (K : optRel (fun _ _ : found => True)
                (matchAt r (Cur [] w)) (matchAt r (Cur [] (toLowerCase w)))).
  { unfold matchAt.
    apply (run_sim found found lowered toLowerCase (fun _ _ => True)
             lowered_boundary lowered_text r (lowered_preds r Hr)).
    - reflexivity.
    - reflexivity.
    - intros. now constructor. }
  rewrite H in K. now inversion K.
Qed.

Lemma itemsFrom_lower s : forall acc,
  itemsFrom (toLowerCase acc) (toLowerCase s)
  = List.map (fun it => match it with
                        | Tok w => Tok (toLowerCase w)
                        | Sep x => Sep (lowerChar x)
                        end) (itemsFrom acc s).
Proof.
  assert (F : forall acc,
            flushTok (toLowerCase acc)
            = List.map (fun it => match it with
                                  | Tok w => Tok (toLowerCase w)
                                  | Sep x => Sep (lowerChar x)
                                  end) (flushTok acc)).
  { intros [|a acc]; [reflexivity|]. unfold flushTok, toLowerCase.
    simpl. now rewrite map_app, map_rev. }
  induction s as [|x s IH]; intros acc; simpl.
  - apply F.
  - rewrite lowerChar_word. destruct (isWordChar x).
    + apply (IH (x :: acc)).
    + rewrite map_app. simpl. rewrite <- F. f_equal. f_equal. apply (IH []).
Qed.

Lemma tokens_lower s : tokens (toLowerCase s) = List.map toLowerCase (tokens s).
Proof.
  unfold tokens, items.
  change (itemsFrom [] (toLowerCase s))
    with (itemsFrom (toLowerCase []) (toLowerCase s)).
  rewrite (itemsFrom_lower s []).
  induction (itemsFrom [] s) as [|[w|x] its IH]; simpl; [reflexivity| |]; now rewrite IH.
Qed.

(** ** What a match must begin with *)

Lemma run_first (A : Type) r : forall q,
  firstClass r = Some q ->
  forall c cs (k : cursor -> captures -> option A) a,
    run r c cs k = Some a ->
    exists x rt, after c = x :: rt /\ q x = true.
Proof.
  induction r as [|p|r1 IH1 r2 IH2|r1 IH1 r2 IH2|lo hi p|i r1 IH1|];
    intros q Hq c cs k a H; try discriminate.
  - simpl in *. inversion Hq; subst.
    destruct (after c) as [|x xs]; [discriminate|].
    destruct (q x) eqn:E; [eauto | discriminate].
  - destruct r1; simpl in Hq; try discriminate;
      try (eapply IH1; [exact Hq | exact H]; fail).
    + eapply IH2; [exact Hq | exact H].
    + simpl in H. destruct (atBoundary c); [|discriminate].
      eapply IH2; [exact Hq | exact H].
  - eapply IH1; [exact Hq | exact H].
Qed.

(** ** The rewrite rules of the normalizer *)

Lemma rules_shape :
  Forall (fun rule => captureOnly isDigitP (fst rule)
                      /\ (1 <= minLen (fst rule))%nat) rewriteRules.
Proof.
  unfold rewriteRules. repeat constructor; simpl; auto.
Qed.

Lemma labelRules_token : Forall tokenRule (reLeadingZero :: labelRules).
Proof.
  repeat constructor; simpl; try lia;
    intros x Hx;
    first [ now apply digit_word
          | apply (isCharI_word _ x eq_refl Hx)
          | unfold isChar in Hx; char_facts ].
Qed.

Lemma labelRules_lower : Forall lowerInv labelRules.
Proof.
  repeat constructor; simpl; intros x;
    first [ apply isCharI_lower | apply lowerChar_digit ].
Qed.

Lemma labelRules_first :
  Forall (fun r => exists a, isLower a = true
                             /\ firstClass r = Some (isCharI a)) labelRules.
Proof.
  repeat constructor; eexists; (split; [|reflexivity]); reflexivity.
Qed.

(** ** Matches and captures of the rules *)

Lemma matchAt_steps (P G : char -> Prop) r c m :
  consumes P r -> captureOnly G r ->
  matchAt r c = Some m ->
  mstart m = c
  /\ exists w, steps c w (mend m) /\ Forall P w
               /\ (minLen r <= List.length w)%nat
               /\ mlen m = List.length w
               /\ Forall (fun e => Forall G (snd e)) (mcaps m).
Proof.
  intros HP HG H. unfold matchAt in H.
  apply (run_steps found G r P HP HG) in H
    as (w & c' & cs' & S1 & F & L & (new & E & Fn) & _ & Hk).
  inversion Hk; subst m. simpl. split; [reflexivity|].
  exists w. repeat split; try apply S1; auto.
  - unfold mlen, mtext. simpl. now rewrite (textBetween_steps c w c' S1).
  - rewrite app_nil_r in E. now subst cs'.
Qed.

Lemma consumes_True r : consumes (fun _ => True) r.
Proof. induction r; simpl; auto. Qed.

Lemma lookupCap_In i cs s : lookupCap i cs = Some s -> In (i, s) cs.
Proof.
  induction cs as [|[j t] cs IH]; simpl; [discriminate|].
  destruct (Nat.eqb i j) eqn:E.
  - intros H. inversion H; subst. apply Nat.eqb_eq in E. subst. now left.
  - intros H. right. now apply IH.
Qed.

(** The text substituted for [$1] is made of digits. *)
Lemma dollar1_digits r c m :
  captureOnly isDigitP r -> matchAt r c = Some m ->
  Forall isDigitP (dollar1 (toArray r m)).
Proof.
  intros HG H.
  destruct (matchAt_steps (fun _ => True) isDigitP r c m (consumes_True r) HG H)
    as (_ & w & _ & _ & _ & _ & Fc).
  unfold dollar1, grp, toArray. simpl.
  destruct (groups r) as [|n]; simpl; [constructor|].
  destruct (lookupCap 1 (mcaps m)) as [s|] eqn:E; [|constructor].
  apply lookupCap_In in E. rewrite Forall_forall in Fc.
  apply (Fc (1%nat, s) E).
Qed.

(** ** Settled tokens *)

Lemma labelWords_settled : Forall settled labelWords.
Proof. repeat constructor. Qed.

Lemma digits_settled w : Forall isDigitP w -> settled w.
Proof.
  intros Hw. unfold settled, noMatch.
  apply (Forall_impl _ (P := fun r => exists a, isLower a = true
                             /\ firstClass r = Some (isCharI a)));
    [|exact labelRules_first].
  intros r (a & Ha & Hf).
  destruct (matchAt r (Cur [] w)) eqn:E; [|reflexivity].
  unfold matchAt in E.
  apply (run_first found r _ Hf) in E as (x & rt & Ew & Hx).
  simpl in Ew. subst w. inversion Hw; subst.
  rewrite (isCharI_letter_digit a x Ha) in Hx by assumption. discriminate.
Qed.

Lemma noMatch_incl J J' w : incl J J' -> noMatch J' w -> noMatch J w.
Proof.
  unfold noMatch. rewrite !Forall_forall. intros Hi H r Hr. apply H, Hi, Hr.
Qed.

Lemma tokens_digits ds : Forall isDigitP ds -> Forall settled (tokens ds).
Proof.
  intros Hd. destruct ds as [|d ds]; [constructor|].
  rewrite tokens_word.
  - constructor; [now apply digits_settled | constructor].
  - eapply Forall_impl; [|exact Hd]. intros x Hx. now apply digit_word.
  - discriminate.
Qed.

(** The replacement "label $1" consists of settled tokens. *)
Lemma tokens_label_digits lbl ds :
  In lbl labelWords -> Forall isDigitP ds ->
  Forall settled (tokens (lbl ++ 32%N :: ds)).
Proof.
  intros Hl Hd.
  change (Forall settled (tokens (lbl ++ @cons char 32%N ds))).
  rewrite (tokens_app_sep lbl 32%N ds eq_refl).
  apply Forall_app. split; [|now apply tokens_digits].
  pose proof labelWords_settled as Hs. rewrite Forall_forall in Hs.
  assert (Ht : tokens lbl = [lbl]).
  { simpl in Hl.
    repeat (destruct Hl as [<- | Hl]; [reflexivity|]). contradiction. }
  rewrite Ht. constructor; [now apply Hs | constructor].
Qed.

(** One rewriting step keeps the tokens out of reach of the rules already
    applied, provided what it writes is settled. *)
Lemma settle_step (J : list regex) r f x :
  tokenRule r -> incl (r :: J) labelRules ->
  (forall c m, matchAt r c = Some m -> Forall settled (tokens (f (toArray r m)))) ->
  (forall w, In w (tokens x) -> noMatch J w) ->
  forall v, In v (tokens (replaceG r f x)) -> noMatch (r :: J) v.
Proof.
  intros Hr Hi Hf Hx v Hv.
  rewrite (replaceG_tokens r Hr f), tokens_mapTokens in Hv.
  apply in_flat_map in Hv as (w & Hw & Hv).
  unfold rewriteTok in Hv.
  destruct (matchAt r (Cur [] w)) as [m|] eqn:E.
  - specialize (Hf _ _ E). rewrite Forall_forall in Hf.
    apply (noMatch_incl _ labelRules); [exact Hi|]. now apply Hf.
  - destruct (tokens_words x w Hw) as [Hww Hne].
    rewrite (tokens_word w Hww Hne) in Hv. destruct Hv as [<- | []].
    constructor; [exact E | now apply Hx].
Qed.

(** ** The alphabet of normalized text *)

Lemma rep_zero_total (A : Type) p (k : cursor -> option A) :
  (forall c, k c <> None) ->
  forall r hi l, rep p 0 hi l r k <> None.
Proof.
  intros Hk. induction r as [|x r IH]; intros hi l.
  - destruct hi as [[|h]|]; simpl; apply Hk.
  - destruct hi as [[|h]|]; simpl; try apply Hk.
    + destruct (p x); [|apply Hk].
      destruct (rep p 0 (Some h) (x :: l) r k) eqn:E; [discriminate | apply Hk].
    + destruct (p x); [|apply Hk].
      destruct (rep p 0 None (x :: l) r k) eqn:E; [discriminate | apply Hk].
Qed.

Lemma spaces_match l x rt :
  isSpace x = true -> matchAt reSpaces (Cur l (x :: rt)) <> None.
Proof.
  intros Hx. unfold matchAt, reSpaces, ws1. simpl. unfold space. rewrite Hx.
  match goal with
  | |- context [rep ?p 0 ?hi ?l' ?r ?k] =>
      assert (K : rep p 0 hi l' r k <> None)
        by (apply rep_zero_total; intros c; discriminate);
      destruct (rep p 0 hi l' r k); [discriminate | contradiction]
  end.
Qed.

Section ReplaceForall.

Variables P Q : char -> Prop.
Variable r : regex.
Variable f : marray -> jsstring.
Hypothesis Hmin : (1 <= minLen r)%nat.
Hypothesis Hrepl :
  forall c m, matchAt r c = Some m -> Forall P (f (toArray r m)).
Hypothesis Hcopy :
  forall l x rt, matchAt r (Cur l (x :: rt)) = None -> Q x -> P x.

Lemma mlen_pos c m : matchAt r c = Some m -> (1 <= mlen m)%nat.
Proof.
  intros H.
  destruct (matchAt_steps (fun _ => True) (fun _ => True) r c m
              (consumes_True r) (captureOnly_True r) H)
    as (_ & w & _ & _ & L & -> & _).
  lia.
Qed.

(** Every character of the result is written by a replacement or copied
    from a place where the pattern does not match. *)
Lemma replaceFrom_Forall rt : forall skip l,
  Forall Q rt -> Forall P (replaceFrom r f skip l rt).
Proof.
  induction rt as [|x rt IH]; intros skip l HQ.
  - destruct skip; simpl; [|constructor].
    destruct (matchAt r (Cur l [])) eqn:E; [|constructor].
    rewrite app_nil_r. eapply Hrepl; eauto.
  - inversion HQ; subst.
    destruct skip; simpl; [|now apply IH].
    destruct (matchAt r (Cur l (x :: rt))) eqn:E.
    + apply Forall_app. split; [eapply Hrepl; eauto|].
      pose proof (mlen_pos _ _ E) as Hl.
      destruct (mlen f0) as [|n]; [lia|]. simpl. now apply IH.
    + constructor; [eapply Hcopy; eauto | now apply IH].
Qed.

Lemma replaceG_Forall s : Forall Q s -> Forall P (replaceG r f s).
Proof. apply replaceFrom_Forall. Qed.

End ReplaceForall.

Lemma spaces_plain s : Forall plainSpace (replaceG reSpaces (constant " ") s).
Proof.
  apply (replaceG_Forall plainSpace (fun _ => True)).
  - simpl. lia.
  - intros c m _. constructor; [intros _; reflexivity | constructor].
  - intros l x rt H _ Hx. now apply (spaces_match l x rt) in Hx.
  - apply Forall_forall. auto.
Qed.

Lemma allowed_of_not_noise x : plainSpace x -> noiseChar x = false -> allowed x.
Proof.
  unfold plainSpace, noiseChar, allowed, allowedChar. intros Hs Hn.
  apply negb_false_iff in Hn.
  apply orb_true_iff in Hn as [Hn | Hn]; [|now rewrite Hn, orb_true_r].
  apply orb_true_iff in Hn as [Hn | Hn]; [now rewrite Hn|].
  rewrite (Hs Hn). reflexivity.
Qed.

Lemma noise_allowed s :
  Forall plainSpace s -> Forall allowed (replaceG reNoise (constant " ") s).
Proof.
  apply (replaceG_Forall allowed plainSpace).
  - simpl. lia.
  - intros c m _. repeat constructor.
  - intros l x rt H Hx. apply allowed_of_not_noise; [exact Hx|].
    unfold matchAt, reNoise in H. simpl in H.
    destruct (noiseChar x); [discriminate | reflexivity].
Qed.

Lemma digit_allowed x : isDigitP x -> allowed x.
Proof.
  intros H. apply digit_word in H. unfold allowed, allowedChar, isWord in *.
  now rewrite H.
Qed.

(** What the rules write stays inside the alphabet. *)
Lemma rules_write_allowed :
  Forall (fun rule => forall c m,
            matchAt (fst rule) c = Some m ->
            Forall allowed (snd rule (toArray (fst rule) m)))
    rewriteRules.
Proof.
  assert (D : forall r c m, captureOnly isDigitP r -> matchAt r c = Some m ->
                Forall allowed (dollar1 (toArray r m))).
  { intros r c m Hr Hm. eapply Forall_impl; [|eapply dollar1_digits; eauto].
    intros x. apply digit_allowed. }
  unfold rewriteRules.
  repeat (apply Forall_cons;
          [ cbn [fst snd]; intros c m Hm;
            first [ solve [unfold constant; repeat constructor]
                  | solve [apply Forall_app; split;
                           [ repeat constructor
                           | eapply D; [|exact Hm]; simpl; auto ]]
                  | solve [eapply D; [|exact Hm]; simpl; auto] ]
          | ]).
  apply Forall_nil.
Qed.

Lemma applyRules_cons rule rules t :
  applyRules (rule :: rules) t = applyRules rules (replaceG (fst rule) (snd rule) t).
Proof. reflexivity. Qed.

Lemma applyRules_allowed rules :
  Forall (fun rule => (1 <= minLen (fst rule))%nat
                      /\ forall c m,
                           matchAt (fst rule) c = Some m ->
                           Forall allowed (snd rule (toArray (fst rule) m)))
    rules ->
  forall t, Forall allowed t -> Forall allowed (applyRules rules t).
Proof.
  induction 1 as [|rule rules [Hm Hw] _ IH]; intros t Ht; [exact Ht|].
  rewrite applyRules_cons. apply IH.
  apply (replaceG_Forall allowed allowed); auto.
Qed.

Lemma lower_allowed x : allowed x -> allowed (lowerChar x).
Proof.
  unfold allowed, allowedChar. intros H.
  rewrite lowerChar_word.
  destruct (isWordChar x) eqn:E; [reflexivity|]. simpl in *.
  assert (lowerChar x = x) as -> by (clear H; char_facts).
  exact H.
Qed.

(** ** Rules that leave a text unchanged *)

Lemma replace_search_none r f : forall rt l,
  search r l rt = None -> replaceFrom r f 0 l rt = rt.
Proof.
  induction rt as [|x rt IH]; intros l H; simpl in *.
  - destruct (matchAt r (Cur l [])); [discriminate | reflexivity].
  - destruct (matchAt r (Cur l (x :: rt))); [discriminate|].
    f_equal. now apply IH.
Qed.

Lemma replace_unmatched r f :
  (forall l rt m, matchAt r (Cur l rt) = Some m -> ~ Forall allowed rt) ->
  forall rt l, Forall allowed rt -> replaceFrom r f 0 l rt = rt.
Proof.
  intros Hno. induction rt as [|x rt IH]; intros l Ha; simpl.
  - destruct (matchAt r (Cur l [])) eqn:E; [|reflexivity].
    now apply Hno in E.
  - destruct (matchAt r (Cur l (x :: rt))) eqn:E.
    + now apply Hno in E.
    + f_equal. apply IH. now inversion Ha.
Qed.

Lemma replaceG_unmatched r f t :
  (forall l rt m, matchAt r (Cur l rt) = Some m -> ~ Forall allowed rt) ->
  Forall allowed t -> replaceG r f t = t.
Proof. intros H Ht. now apply replace_unmatched. Qed.

(** A pattern that must begin with a character outside the alphabet finds
    nothing in normalized text. *)
Lemma first_unmatched r q :
  firstClass r = Some q -> (forall x, q x = true -> allowedChar x = false) ->
  forall l rt m, matchAt r (Cur l rt) = Some m -> ~ Forall allowed rt.
Proof.
  intros Hf Hq l rt m H Ha. unfold matchAt in H.
  apply (run_first found r q Hf) in H as (x & rt' & E & Hx).
  simpl in E. subst rt. inversion Ha; subst.
  apply Hq in Hx. unfold allowed in *. congruence.
Qed.

Lemma isChar_eq a x : isChar a x = true -> x = a.
Proof. unfold isChar. apply N.eqb_eq. Qed.

Lemma noise_unmatched l rt m :
  matchAt reNoise (Cur l rt) = Some m -> ~ Forall allowed rt.
Proof.
  apply (first_unmatched reNoise noiseChar eq_refl).
  intros x Hx. unfold noiseChar in Hx. apply negb_true_iff in Hx.
  unfold allowedChar.
  apply orb_false_iff in Hx as [Hx Ho]. apply orb_false_iff in Hx as [Hw Hs].
  rewrite Hw, Ho. simpl. rewrite orb_false_r.
  apply N.eqb_neq. intros ->. discriminate.
Qed.

Lemma plus_unmatched l rt m :
  matchAt rePlus (Cur l rt) = Some m -> ~ Forall allowed rt.
Proof.
  apply (first_unmatched rePlus (isChar 43%N) eq_refl).
  intros x Hx. apply isChar_eq in Hx. now subst.
Qed.

Lemma percent_unmatched l rt m :
  matchAt rePercent (Cur l rt) = Some m -> ~ Forall allowed rt.
Proof.
  apply (first_unmatched rePercent (isChar 37%N) eq_refl).
  intros x Hx. apply isChar_eq in Hx. now subst.
Qed.

Lemma onePlus_unmatched l rt m :
  matchAt reOnePlus (Cur l rt) = Some m -> ~ Forall allowed rt.
Proof.
  unfold matchAt, reOnePlus. simpl. intros H Ha.
  destruct (atBoundary (Cur l rt)); [|discriminate].
  destruct rt as [|a [|b rt]]; simpl in H; try discriminate.
  - destruct (isChar 49%N a); discriminate.
  - destruct (isChar 49%N a); [|discriminate].
    destruct (isChar 43%N b) eqn:Eb; [|discriminate].
    apply isChar_eq in Eb. subst b.
    inversion Ha as [|? ? _ Ha']; subst. inversion Ha'; subst. discriminate.
Qed.

Lemma allowed_space x : allowed x -> isSpace x = true -> x = 32%N.
Proof.
  unfold allowed, allowedChar, oneOf. simpl. intros Ha Hs.
  clear - Ha Hs. char_facts.
Qed.

Lemma mlen_one l (x : char) t cs :
  mlen (Found (Cur l (x :: t)) (Cur (x :: l) t) cs) = 1%nat.
Proof.
  unfold mlen, mtext. simpl.
  now rewrite (textBetween_steps _ [x] _ (steps_one l x t)).
Qed.

Lemma startsWith_nil s : startsWith s [] = true.
Proof. now destruct s. Qed.

(** Collapsing white space changes nothing when every white space is a
    single plain space. *)
Lemma spaces_id : forall t l,
  Forall allowed t -> includes t (str "  ") = false ->
  replaceFrom reSpaces (constant " ") 0 l t = t.
Proof.
  induction t as [|x t IH]; intros l Ha Hd.
  - reflexivity.
  - inversion Ha as [|? ? Hx Ht]; subst.
    cbn [includes] in Hd. apply orb_false_iff in Hd as [Hs Hd].
    cbn [replaceFrom].
    destruct (isSpace x) eqn:Ex.
    + pose proof (allowed_space x Hx Ex) as ->.
      assert (Hy : forall k : cursor -> option found,
                 rep space 0 None (32%N :: l) t k = k (Cur (32%N :: l) t)).
      { intros k. destruct t as [|y t]; [reflexivity|].
        simpl. unfold space.
        destruct (isSpace y) eqn:Ey; [|reflexivity].
        inversion Ht; subst.
        pose proof (allowed_space y H1 Ey) as ->.
        change (str "  ") with [32%N; 32%N] in Hs. cbn [startsWith] in Hs.
        rewrite startsWith_nil in Hs. discriminate Hs. }
      unfold matchAt, reSpaces, ws1. cbn [run before after rep Nat.pred option_map].
      change (space 32%N) with true. cbv iota. rewrite Hy.
      match goal with
      | |- context [mlen ?m] =>
          assert (Hl : mlen m = 1%nat) by apply mlen_one; rewrite Hl
      end.
      cbn [Nat.eqb Nat.pred app]. unfold constant at 1.
      change (str " ") with [32%N]. cbn [app]. f_equal. now apply IH.
    + assert (E : matchAt reSpaces (Cur l (x :: t)) = None).
      { unfold matchAt, reSpaces, ws1. simpl. unfold space. now rewrite Ex. }
      rewrite E. f_equal. now apply IH.
Qed.

(** A label rule changes nothing in a text whose tokens are settled. *)
Lemma settled_id r f t :
  In r labelRules -> (forall w, In w (tokens t) -> settled w) ->
  replaceG r f t = t.
Proof.
  intros Hr Ht.
  assert (Htok : tokenRule r).
  { pose proof labelRules_token as K. rewrite Forall_forall in K.
    apply K. now right. }
  rewrite (replaceG_tokens r Htok f). apply mapTokens_id.
  intros w Hw. unfold rewriteTok.
  specialize (Ht w Hw). unfold settled, noMatch in Ht.
  rewrite Forall_forall in Ht. now rewrite (Ht r Hr).
Qed.

Lemma applyRules_id rules t :
  Forall (fun rule => replaceG (fst rule) (snd rule) t = t) rules ->
  applyRules rules t = t.
Proof.
  induction 1 as [|rule rules H _ IH]; [reflexivity|].
  now rewrite applyRules_cons, H.
Qed.

(** ** The normalized text *)

Lemma Forall_tail {X} (P : X -> Prop) x l : Forall P (x :: l) -> Forall P l.
Proof. now inversion 1. Qed.

Lemma toLowerCase_idem s : toLowerCase (toLowerCase s) = toLowerCase s.
Proof.
  unfold toLowerCase. rewrite map_map. apply map_ext. apply lowerChar_idem.
Qed.

Lemma rule_allowed rule t :
  In rule rewriteRules -> Forall allowed t ->
  Forall allowed (replaceG (fst rule) (snd rule) t).
Proof.
  intros Hin Ht.
  pose proof rules_shape as A. pose proof rules_write_allowed as B.
  rewrite Forall_forall in A, B.
  apply (replaceG_Forall allowed allowed (fst rule) (snd rule)).
  - apply (A rule Hin).
  - apply (B rule Hin).
  - auto.
  - exact Ht.
Qed.

(** The text handed to [toLowerCase] is written in the restricted
    alphabet, which is ASCII. *)
Lemma preprocessText_alphabet s : Forall allowed (applyRules rewriteRules s).
Proof.
  unfold rewriteRules. do 2 rewrite applyRules_cons.
  pose proof rules_shape as A. pose proof rules_write_allowed as B.
  unfold rewriteRules in A, B.
  apply applyRules_allowed.
  - apply Forall_tail, Forall_tail in A. apply Forall_tail, Forall_tail in B.
    pose proof (Forall_and A B) as C.
    eapply Forall_impl; [|exact C]. simpl. tauto.
  - apply noise_allowed, spaces_plain.
Qed.

(** So is the normalized text. *)
Lemma normalized_alphabet s : Forall allowed (preprocessText s).
Proof.
  unfold preprocessText, toLowerCase. apply Forall_map.
  eapply Forall_impl; [|exact (preprocessText_alphabet s)].
  apply lower_allowed.
Qed.

Lemma settled_lower w : settled w -> settled (toLowerCase w).
Proof.
  unfold settled, noMatch. intros H.
  pose proof (Forall_and labelRules_lower H) as C.
  eapply Forall_impl; [|exact C]. simpl. intros r [Hr Hm].
  now apply matchAt_lower.
Qed.

Lemma tokenRule_label r : In r labelRules -> tokenRule r.
Proof.
  intros H. pose proof labelRules_token as K. rewrite Forall_forall in K.
  apply K. now right.
Qed.

Lemma captureOnly_rule r f :
  In (r, f) rewriteRules -> captureOnly isDigitP r.
Proof.
  intros H. pose proof rules_shape as A. rewrite Forall_forall in A.
  apply (A (r, f) H).
Qed.

Ltac in_list := simpl; tauto.

Ltac settle_label lbl :=
  eapply settle_step;
  [ apply tokenRule_label; in_list
  | intros z Hz; simpl in Hz |- *; tauto
  | let c := fresh "c" in
    let m := fresh "m" in
    let Hm := fresh "Hm" in
    intros c m Hm; apply (tokens_label_digits (str lbl));
    [ in_list | eapply dollar1_digits; [|exact Hm]; simpl; auto ]
  | ].

Ltac settle_const :=
  eapply settle_step;
  [ apply tokenRule_label; in_list
  | intros z Hz; simpl in Hz |- *; tauto
  | intros; unfold constant; repeat constructor
  | ].

(** Every token of the normalized text is settled: no label rule would
    rewrite it. *)
Lemma normalized_settled s w : In w (tokens (preprocessText s)) -> settled w.
Proof.
  unfold preprocessText. rewrite tokens_lower, in_map_iff.
  intros (w0 & <- & Hw0). apply settled_lower. revert w0 Hw0.
  unfold rewriteRules. rewrite !applyRules_cons. cbn [fst snd applyRules fold_left].
  set (t3 := replaceG reLeadingZero dollar1 _).
  assert (A3 : Forall allowed t3).
  { subst t3. apply (rule_allowed (reLeadingZero, dollar1)); [in_list|].
    apply noise_allowed, spaces_plain. }
  set (f4 := fun m : marray => str "sys " ++ dollar1 m).
  set (f5 := fun m : marray => str "dia " ++ dollar1 m).
  set (f6 := fun m : marray => str "s " ++ dollar1 m).
  set (f7 := fun m : marray => str "d " ++ dollar1 m).
  set (t4 := replaceG reSysNum f4 t3).
  set (t5 := replaceG reDiaNum f5 t4).
  set (t6 := replaceG reSNum f6 t5).
  set (t7 := replaceG reDNum f7 t6).
  set (t8 := replaceG reMinig (constant "mmhg") t7).
  assert (A8 : Forall allowed t8).
  { subst t8 t7 t6 t5 t4.
    apply (rule_allowed (reMinig, constant "mmhg")); [in_list|].
    apply (rule_allowed (reDNum, f7)); [in_list|].
    apply (rule_allowed (reSNum, f6)); [in_list|].
    apply (rule_allowed (reDiaNum, f5)); [in_list|].
    apply (rule_allowed (reSysNum, f4)); [in_list|]. exact A3. }
  rewrite (replaceG_unmatched reOnePlus _ t8 onePlus_unmatched A8).
  rewrite (replaceG_unmatched rePlus _ t8 plus_unmatched A8).
  rewrite (replaceG_unmatched rePercent _ t8 percent_unmatched A8).
  assert (S8 : forall v, In v (tokens t8) ->
                 noMatch [reMinig; reDNum; reSNum; reDiaNum; reSysNum] v).
  { subst t8 t7 t6 t5 t4. settle_const.
    subst f7. settle_label "d".
    subst f6. settle_label "s".
    subst f5. settle_label "dia".
    subst f4. settle_label "sys".
    intros. constructor. }
  intros w0 Hw0.
  apply (noMatch_incl _ [reMid; reC9; reC1; reCm; reMinig; reDNum; reSNum;
                         reDiaNum; reSysNum]);
    [intros z Hz; simpl in Hz |- *; tauto|].
  revert w0 Hw0.
  settle_const. settle_const. settle_const. settle_const. exact S8.
Qed.


(** ** Normalization (C4) *)

(** The normalizer is not idempotent.  Noise characters become spaces
    after runs of white space were collapsed, so "a!!b" normalizes to "a",
    two spaces, "b", and a second pass collapses them.  A zero-led number
    split from its label ("d05" gives "d 05") loses its zero on the second
    pass only. *)
Lemma normalize_idempotent_counterexample :
  (preprocessText (str "a!!b") = str "a  b"
   /\ preprocessText (preprocessText (str "a!!b")) = str "a b"
   /\ preprocessText (preprocessText (str "a!!b"))
      <> preprocessText (str "a!!b"))
  /\ (preprocessText (str "d05") = str "d 05"
      /\ preprocessText (preprocessText (str "d05")) = str "d 5"
      /\ preprocessText (preprocessText (str "d05"))
         <> preprocessText (str "d05")).
Proof. vm_compute. repeat split; discriminate. Qed.

(** ** Conditional idempotence of the normalizer (C4) *)

(** C4, as amended.  Normalizing twice equals normalizing once for every
    input whose normalized text contains no two consecutive spaces and no
    standalone two-character token made of a 0 and a digit. *)
Theorem normalize_idempotent_clean (s : jsstring) :
  includes (preprocessText s) (str "  ") = false ->
  exec reLeadingZero (preprocessText s) = None ->
  preprocessText (preprocessText s) = preprocessText s.
Proof.
  intros Hd Hz. set (t := preprocessText s) in *.
  pose proof (normalized_alphabet s) as A.
  pose proof (normalized_settled s) as S. fold t in A, S.
  assert (L : toLowerCase t = t) by apply toLowerCase_idem.
  unfold preprocessText at 1. rewrite applyRules_id; [exact L|].
  unfold rewriteRules.
  repeat apply Forall_cons; cbn [fst snd];
    try (apply settled_id; [in_list | exact S]).
  - apply spaces_id; assumption.
  - apply (replaceG_unmatched reNoise _ t noise_unmatched A).
  - apply replace_search_none. unfold exec in Hz.
    destruct (search reLeadingZero [] t); [discriminate | reflexivity].
  - apply (replaceG_unmatched reOnePlus _ t onePlus_unmatched A).
  - apply (replaceG_unmatched rePlus _ t plus_unmatched A).
  - apply (replaceG_unmatched rePercent _ t percent_unmatched A).
  - apply Forall_nil.
Qed.

Lemma normalize_idempotent_clean_witness :
  preprocessText (preprocessText (str "SYS120  Dia80 Cm 07"))
  = preprocessText (str "SYS120  Dia80 Cm 07").
Proof.
  apply (normalize_idempotent_clean (str "SYS120  Dia80 Cm 07"));
    vm_compute; reflexivity.
Defined.

(** * Integer-valued fields *)

(** ** Integer values *)

Lemma intOrNaN_int n : intOrNaN (int n).
Proof. right. now exists n. Qed.

Lemma intOrNaN_NaN : intOrNaN NaN.
Proof. now left. Qed.

Lemma dropWhile_In p x s : In x (dropWhile p s) -> In x s.
Proof.
  induction s as [|y s IH]; simpl; [tauto|].
  destruct (p y); simpl; tauto.
Qed.

Lemma trim_In x s : In x (trim s) -> In x s.
Proof.
  unfold trim. intros H. apply in_rev, dropWhile_In, in_rev in H.
  now apply dropWhile_In in H.
Qed.

Lemma span_app p s a b : span p s = (a, b) -> s = a ++ b.
Proof.
  revert a b. induction s as [|x s IH]; simpl; intros a b H.
  - now inversion H.
  - destruct (p x).
    + destruct (span p s) as [a' b'] eqn:E. inversion H; subst.
      simpl. f_equal. now apply IH.
    + now inversion H.
Qed.

(** A text without a decimal point reads as an integer, if as a number
    at all. *)
Lemma Number_noDot s : Forall noDot s -> intOrNaN (Number s).
Proof.
  intros Hs. unfold Number.
  destruct (trim s) as [|c t] eqn:Et; [apply intOrNaN_int|].
  destruct (span isDigit (c :: t)) as [ip rest] eqn:Es.
  destruct rest as [|dot fp]; [apply intOrNaN_int|].
  destruct ((dot =? 46)%N && forallb isDigit fp
            && negb (Nat.eqb (List.length ip + List.length fp) 0)) eqn:Ec;
    [|apply intOrNaN_NaN].
  exfalso. apply andb_true_iff in Ec as [Ec _].
  apply andb_true_iff in Ec as [Ec _]. apply N.eqb_eq in Ec. subst dot.
  apply span_app in Es.
  assert (Hin : In 46%N s).
  { apply trim_In. rewrite Et, Es. apply in_or_app. right. now left. }
  rewrite Forall_forall in Hs. now apply (Hs _ Hin).
Qed.

Lemma digit_noDot x : isDigitP x -> noDot x.
Proof. unfold isDigitP, noDot. intros H ->. discriminate. Qed.

Lemma Number_digits s : Forall isDigitP s -> intOrNaN (Number s).
Proof.
  intros H. apply Number_noDot. eapply Forall_impl; [|exact H].
  apply digit_noDot.
Qed.

(** ** Matches found by the search functions *)

Lemma search_matchAt r : forall rt l m,
  search r l rt = Some m -> exists c, matchAt r c = Some m.
Proof.
  induction rt as [|x rt IH]; intros l m H; simpl in H.
  - destruct (matchAt r (Cur l [])) eqn:E; [|discriminate].
    inversion H; subst. eauto.
  - destruct (matchAt r (Cur l (x :: rt))) eqn:E.
    + inversion H; subst. eauto.
    + eapply IH; eauto.
Qed.

Lemma scan_matchAt r : forall rt skip l m,
  In m (scan r skip l rt) -> exists c, matchAt r c = Some m.
Proof.
  induction rt as [|x rt IH]; intros skip l m H.
  - destruct skip; simpl in H; [|contradiction].
    destruct (matchAt r (Cur l [])) eqn:E; [|contradiction].
    destruct H as [<- | []]. eauto.
  - destruct skip; simpl in H; [|eapply IH; eauto].
    destruct (matchAt r (Cur l (x :: rt))) eqn:E.
    + destruct H as [<- | H]; [eauto | eapply IH; eauto].
    + eapply IH; eauto.
Qed.

Lemma mtext_consumed (P : char -> Prop) r c m :
  consumes P r -> matchAt r c = Some m -> Forall P (mtext m).
Proof.
  intros HP H.
  destruct (matchAt_steps P (fun _ => True) r c m HP (captureOnly_True r) H)
    as (Es & w & S1 & F & _).
  unfold mtext. rewrite Es. now rewrite (textBetween_steps c w _ S1).
Qed.

Lemma group_captured (G : char -> Prop) r c m i s :
  captureOnly G r -> matchAt r c = Some m ->
  grp (toArray r m) (S i) = Some s -> Forall G s.
Proof.
  intros HG H E.
  destruct (matchAt_steps (fun _ => True) G r c m (consumes_True r) HG H)
    as (_ & w & _ & _ & _ & _ & Fc).
  unfold grp, toArray in E. simpl in E.
  destruct (nth_error (List.map (fun j => lookupCap j (mcaps m))
                         (seq 1 (groups r))) i) as [o|] eqn:En;
    [|discriminate].
  subst o. apply nth_error_In in En. apply in_map_iff in En as (j & Ej & _).
  apply lookupCap_In in Ej. rewrite Forall_forall in Fc.
  apply (Fc (j, s) Ej).
Qed.

(** Texts returned by a global match consist of consumable characters. *)
Lemma matchGOr_consumed (P : char -> Prop) r s :
  consumes P r -> Forall (Forall P) (matchGOr r s).
Proof.
  intros HP. unfold matchGOr, matchG.
  destruct (scan r 0 [] s) as [|m0 ms] eqn:E; [constructor|].
  rewrite <- E. apply Forall_forall. intros w Hw.
  apply in_map_iff in Hw as (m & <- & Hm).
  apply scan_matchAt in Hm as (c & Hm). eapply mtext_consumed; eauto.
Qed.

Lemma matchG_consumed (P : char -> Prop) r s mt :
  consumes P r -> matchG r s = Some mt -> Forall (Forall P) mt.
Proof.
  intros HP E. pose proof (matchGOr_consumed P r s HP) as K.
  unfold matchGOr in K. now rewrite E in K.
Qed.

Lemma exec_group_int r s m i :
  captureOnly isDigitP r -> exec r s = Some m ->
  intOrNaN (NumberOpt (grp m (S i))).
Proof.
  intros HG E. unfold exec in E.
  destruct (search r [] s) as [f|] eqn:Es; [|discriminate].
  inversion E; subst m. apply search_matchAt in Es as (c & Hc).
  destruct (grp (toArray r f) (S i)) as [t|] eqn:Eg; [|apply intOrNaN_NaN].
  apply Number_digits. eapply group_captured; eauto.
Qed.

Lemma matchAll_group_int r s i :
  captureOnly isDigitP r ->
  Forall intOrNaN (List.map (fun m => NumberOpt (grp m (S i))) (matchAll r s)).
Proof.
  intros HG. apply Forall_forall. intros v Hv.
  apply in_map_iff in Hv as (m & <- & Hm).
  unfold matchAll in Hm. apply in_map_iff in Hm as (f & <- & Hf).
  apply scan_matchAt in Hf as (c & Hc).
  destruct (grp (toArray r f) (S i)) as [t|] eqn:Eg; [|apply intOrNaN_NaN].
  apply Number_digits. eapply group_captured; eauto.
Qed.

Lemma idx_number_int (l : list jsstring) i :
  Forall (Forall noDot) l -> intOrNaN (NumberOpt (idx l i)).
Proof.
  intros H. unfold idx. destruct (nth_error l i) as [s|] eqn:E;
    [|apply intOrNaN_NaN].
  apply nth_error_In in E. rewrite Forall_forall in H.
  apply Number_noDot. now apply H.
Qed.

Lemma numAt_int l i : Forall intOrNaN l -> intOrNaN (numAt l i).
Proof.
  intros H. unfold numAt. destruct (nth_error l i) as [v|] eqn:E;
    [|apply intOrNaN_NaN].
  apply nth_error_In in E. rewrite Forall_forall in H. now apply H.
Qed.

Lemma filter_Forall {X} (P : X -> Prop) f l : Forall P l -> Forall P (filter f l).
Proof.
  intros H. apply Forall_forall. intros x Hx. apply filter_In in Hx as [Hx _].
  rewrite Forall_forall in H. now apply H.
Qed.

Lemma sortBy_Forall (P : number -> Prop) cmp l :
  Forall P l -> Forall P (sortBy cmp l).
Proof.
  intros H. apply Forall_forall. intros x Hx. apply sortBy_In in Hx.
  rewrite Forall_forall in H. now apply H.
Qed.

(** ** Patterns read digits *)

Ltac cap_digits := simpl; repeat split; auto.

Ltac no_dot :=
  simpl; repeat split;
  let x := fresh "x" in
  let Hx := fresh "Hx" in
  intros x Hx; unfold noDot; intros ->; vm_compute in Hx; discriminate Hx.

Lemma patterns_digitGroups :
  Forall (fun p => digitGroups (re p))
    (patterns.month ++ patterns.day ++ patterns.systolic
       ++ patterns.diastolic ++ patterns.pulse).
Proof. repeat constructor; cap_digits. Qed.

Lemma inline_digitGroups :
  Forall digitGroups
    (sysPatterns ++ diaPatterns ++ combinedPatterns
       ++ [monthDayPattern; percentagePattern; reNum23; reNum2]).
Proof. repeat constructor; cap_digits. Qed.

Lemma global_noDot :
  Forall (consumes noDot)
    (combinedDatePatterns ++ dateLikePatterns
       ++ [reNum12; reNum23; reNum23'; reNum3; reDateToken]).
Proof. repeat constructor; no_dot. Qed.

Lemma digitGroups_of (ps : list pattern) :
  incl ps (patterns.month ++ patterns.day ++ patterns.systolic
             ++ patterns.diastolic ++ patterns.pulse) ->
  Forall (fun p => digitGroups (re p)) ps.
Proof.
  intros Hi. apply Forall_forall. intros p Hp.
  pose proof patterns_digitGroups as K. rewrite Forall_forall in K.
  apply K, Hi, Hp.
Qed.

(** ** Every stage keeps the numeric variables integer-valued *)

Lemma In_app_l {X} (x : X) a b : In x a -> In x (a ++ b).
Proof. intros. apply in_or_app. now left. Qed.

Lemma In_app_r {X} (x : X) a b : In x b -> In x (a ++ b).
Proof. intros. apply in_or_app. now right. Qed.

Ltac in_pats := simpl; tauto.

Lemma inline_digit r :
  In r (sysPatterns ++ diaPatterns ++ combinedPatterns
          ++ [monthDayPattern; percentagePattern; reNum23; reNum2]) ->
  digitGroups r.
Proof.
  pose proof inline_digitGroups as K. rewrite Forall_forall in K. apply K.
Qed.

Lemma global_dot r :
  In r (combinedDatePatterns ++ dateLikePatterns
          ++ [reNum12; reNum23; reNum23'; reNum3; reDateToken]) ->
  consumes noDot r.
Proof.
  pose proof global_noDot as K. rewrite Forall_forall in K. apply K.
Qed.

Ltac table_ints :=
  repeat (apply Forall_cons; [apply intOrNaN_int|]); apply Forall_nil.

Section Stages.

Variable t : jsstring.

Lemma numbersOf_int r : consumes noDot r -> Forall intOrNaN (numbersOf t r).
Proof.
  intros Hr. unfold numbersOf. apply Forall_map.
  eapply Forall_impl; [|exact (matchGOr_consumed noDot r t Hr)].
  apply Number_noDot.
Qed.

Lemma monthLoop_int ps :
  Forall (fun p => digitGroups (re p)) ps ->
  forall month, intOrNaN month -> intOrNaN (monthLoop t ps month).
Proof.
  induction 1 as [|p ps Hp _ IH]; intros month Hm; simpl; [exact Hm|].
  destruct (exec (re p) t) as [m|] eqn:E; [|now apply IH].
  case_if; [apply intOrNaN_int|].
  pose proof (exec_group_int (re p) t m 0 Hp E) as K.
  case_if; [exact K | now apply IH].
Qed.

Lemma dayLoop_int ps :
  Forall (fun p => digitGroups (re p)) ps ->
  forall day, intOrNaN day -> intOrNaN (dayLoop t ps day).
Proof.
  induction 1 as [|p ps Hp _ IH]; intros day Hd; simpl; [exact Hd|].
  destruct (exec (re p) t) as [m|] eqn:E; [|now apply IH].
  pose proof (exec_group_int (re p) t m 0 Hp E) as K.
  case_if; [exact K | now apply IH].
Qed.

Lemma cascade_int lo hi ps :
  Forall digitGroups ps ->
  forall cur, intOrNaN cur -> intOrNaN (cascade t lo hi ps cur).
Proof.
  induction 1 as [|p ps Hp _ IH]; intros cur Hc; simpl; [exact Hc|].
  destruct (exec p t) as [m|] eqn:E; [|now apply IH].
  pose proof (exec_group_int p t m 0 Hp E) as K.
  case_if; [exact K | now apply IH].
Qed.

Lemma search_cursors (P : char -> Prop) r : forall rt l m,
  search r l rt = Some m -> Forall P l -> Forall P rt ->
  Forall P (before (mstart m)) /\ Forall P (after (mend m)).
Proof.
  assert (K : forall c m, matchAt r c = Some m ->
                Forall P (before c) -> Forall P (after c) ->
                Forall P (before (mstart m)) /\ Forall P (after (mend m))).
  { intros c m H Hb Ha.
    destruct (matchAt_steps (fun _ => True) (fun _ => True) r c m
                (consumes_True r) (captureOnly_True r) H)
      as (Es & w & [S1 _] & _).
    rewrite Es. split; [exact Hb|].
    rewrite S1 in Ha. now apply Forall_app in Ha as [_ Ha]. }
  induction rt as [|x rt IH]; intros l m H Hl Hr; simpl in H.
  - destruct (matchAt r (Cur l [])) eqn:E; [|discriminate].
    inversion H; subst. now apply (K _ _ E).
  - destruct (matchAt r (Cur l (x :: rt))) eqn:E.
    + inversion H; subst. now apply (K _ _ E).
    + inversion Hr; subst. apply (IH (x :: l) m H); auto.
Qed.

Lemma replace1_Forall (P : char -> Prop) r f s :
  (forall a, Forall P (f a)) -> Forall P s -> Forall P (replace1 r f s).
Proof.
  intros Hf Hs. unfold replace1.
  destruct (search r [] s) as [m|] eqn:E; [|exact Hs].
  destruct (search_cursors P r s [] m E (Forall_nil _) Hs) as [Hb Ha].
  apply Forall_app. split; [now apply Forall_rev|].
  apply Forall_app. split; [apply Hf | exact Ha].
Qed.

Lemma datePass1_int md : intPair md -> intPair (datePass1 t md).
Proof.
  intros Hmd. unfold datePass1.
  destruct (matchG reDateToken t) as [dateMatches|] eqn:E; [|exact Hmd].
  assert (Hd : Forall (Forall noDot) dateMatches).
  { apply (matchG_consumed noDot reDateToken t); [|exact E].
    apply global_dot. in_pats. }
  clear E. revert md Hmd.
  induction Hd as [|mt ms Hmt _ IH]; intros md Hmd; simpl; [exact Hmd|].
  apply IH. destruct md as [month day], Hmd as [Hm Hdy]. simpl in *.
  assert (Hv : intOrNaN (Number (replace1 reMD (constant "") mt))).
  { apply Number_noDot. apply replace1_Forall; [|exact Hmt].
    intros a. constructor. }
  repeat case_if; split; simpl; auto.
Qed.

Lemma datePass2Loop_int ps :
  Forall (consumes noDot) ps ->
  forall month day, intOrNaN month -> intOrNaN day ->
    intPair (datePass2Loop t ps month day).
Proof.
  induction 1 as [|p ps Hp _ IH]; intros month day Hm Hd; simpl;
    [split; assumption|].
  destruct (matchG p t) as [mt|] eqn:E; [|now apply IH].
  pose proof (matchG_consumed noDot p t mt Hp E) as Hmt.
  pose proof (idx_number_int mt 1 Hmt) as H1.
  pose proof (idx_number_int mt 2 Hmt) as H2.
  repeat case_if; try (now apply IH); split; simpl; auto.
Qed.

Lemma datePass4Loop_int ps :
  Forall (consumes noDot) ps ->
  forall month day, intOrNaN month -> intOrNaN day ->
    intPair (datePass4Loop t ps month day).
Proof.
  induction 1 as [|p ps Hp _ IH]; intros month day Hm Hd; simpl;
    [split; assumption|].
  destruct (matchG p t) as [mt|] eqn:E; [|now apply IH].
  pose proof (matchG_consumed noDot p t mt Hp E) as Hmt.
  pose proof (idx_number_int mt 1 Hmt) as H1.
  pose proof (idx_number_int mt 2 Hmt) as H2.
  repeat case_if; try (now apply IH); split; simpl; auto.
Qed.

Lemma noDot_sub (l : list regex) :
  incl l (combinedDatePatterns ++ dateLikePatterns
            ++ [reNum12; reNum23; reNum23'; reNum3; reDateToken]) ->
  Forall (consumes noDot) l.
Proof.
  intros Hi. apply Forall_forall. intros r Hr. apply global_dot, Hi, Hr.
Qed.

Lemma datePass2_int md : intPair md -> intPair (datePass2 t md).
Proof.
  destruct md as [month day]. intros [Hm Hd]. simpl in Hm, Hd.
  unfold datePass2.
  case_if; [|split; assumption].
  apply datePass2Loop_int; auto.
  apply noDot_sub. intros r Hr. now apply In_app_l.
Qed.

Lemma datePass4_int md : intPair md -> intPair (datePass4 t md).
Proof.
  destruct md as [month day]. intros [Hm Hd]. simpl in Hm, Hd.
  unfold datePass4.
  case_if; [|split; assumption].
  apply datePass4Loop_int; auto.
  apply noDot_sub. intros r Hr. now apply In_app_r, In_app_l.
Qed.

Lemma numbers12_int : Forall intOrNaN (numbersOf t reNum12).
Proof. apply numbersOf_int, global_dot. in_pats. Qed.

Lemma numbers23_int : Forall intOrNaN (numbersOf t reNum23).
Proof. apply numbersOf_int, global_dot. in_pats. Qed.

Lemma numbers23'_int : Forall intOrNaN (numbersOf t reNum23').
Proof. apply numbersOf_int, global_dot. in_pats. Qed.

Lemma numbers3_int : Forall intOrNaN (numbersOf t reNum3).
Proof. apply numbersOf_int, global_dot. in_pats. Qed.

Lemma dateFromNumbers_int excluded md :
  intPair md -> intPair (dateFromNumbers t excluded md).
Proof.
  destruct md as [month day]. intros [Hm Hd]. simpl in Hm, Hd.
  unfold dateFromNumbers.
  case_if; [|split; assumption].
  case_if; [|split; assumption].
  match goal with
  | |- context [sortBy dateCmp ?l] =>
      assert (Hs : Forall intOrNaN (sortBy dateCmp l))
        by (apply sortBy_Forall; repeat apply filter_Forall;
            apply numbers12_int)
  end.
  split; simpl; case_if; auto using numAt_int.
Qed.

Lemma misreadLoop_int table :
  Forall (fun e => intOrNaN (snd e)) table ->
  forall month, intOrNaN month -> intOrNaN (misreadLoop t table month).
Proof.
  induction 1 as [|[misread value] table Hv _ IH]; intros month Hm; simpl;
    [exact Hm|].
  case_if; [exact Hv | now apply IH].
Qed.

Lemma monthFrom4d_int month : intOrNaN month -> intOrNaN (monthFrom4d t month).
Proof.
  intros Hm. unfold monthFrom4d.
  case_if; [|exact Hm].
  case_if; [|apply intOrNaN_int].
  apply numAt_int, filter_Forall, numbers12_int.
Qed.

Lemma combinedLoop_int ps :
  Forall digitGroups ps ->
  forall month day, intOrNaN month -> intOrNaN day ->
    intPair (combinedLoop t ps month day).
Proof.
  induction 1 as [|p ps Hp _ IH]; intros month day Hm Hd; simpl;
    [split; assumption|].
  destruct (exec p t) as [m|] eqn:E; [|now apply IH].
  pose proof (exec_group_int p t m 0 Hp E) as H1.
  pose proof (exec_group_int p t m 1 Hp E) as H2.
  repeat case_if; try (apply IH; assumption); split; simpl; auto.
Qed.

Lemma digit_sub (l : list regex) :
  incl l (sysPatterns ++ diaPatterns ++ combinedPatterns
            ++ [monthDayPattern; percentagePattern; reNum23; reNum2]) ->
  Forall digitGroups l.
Proof.
  intros Hi. apply Forall_forall. intros r Hr. apply inline_digit, Hi, Hr.
Qed.

Lemma monthDayProximity_int md : intPair md -> intPair (monthDayProximity t md).
Proof.
  destruct md as [month day]. intros [Hm Hd]. simpl in Hm, Hd.
  unfold monthDayProximity.
  case_if; [|split; assumption].
  destruct (exec monthDayPattern t) as [m|] eqn:E; [|split; assumption].
  assert (Hp : digitGroups monthDayPattern) by (apply inline_digit; in_pats).
  pose proof (exec_group_int _ t m 0 Hp E) as H1.
  pose proof (exec_group_int _ t m 1 Hp E) as H2.
  split; simpl; case_if; auto.
Qed.

Lemma ocrDateLoop_int md : intPair md -> intPair (ocrDateLoop t md).
Proof.
  intros Hmd. unfold ocrDateLoop. destruct md as [month day].
  case_if; [|exact Hmd].
  assert (Ht : Forall (fun e : string * number => intOrNaN (snd e))
                 ocrDateCorrections)
    by table_ints.
  revert Hmd. generalize (month, day).
  induction Ht as [|[misread value] table Hv _ IH]; intros md Hmd; simpl;
    [exact Hmd|].
  apply IH. destruct md as [m d], Hmd as [Hm Hd]. simpl in *.
  repeat case_if; split; simpl; auto.
Qed.

Lemma datePass5_int md : intPair md -> intPair (datePass5 t md).
Proof.
  destruct md as [month day]. intros [Hm Hd]. simpl in Hm, Hd.
  unfold datePass5.
  case_if; [|split; assumption].
  assert (H1 : intOrNaN (monthFrom4d t (misreadLoop t monthMisreads month))).
  { apply monthFrom4d_int, misreadLoop_int; [|exact Hm].
    table_ints. }
  apply ocrDateLoop_int, monthDayProximity_int.
  case_if; [|split; assumption].
  apply combinedLoop_int; auto.
  apply digit_sub. intros r Hr. now apply In_app_r, In_app_r, In_app_l.
Qed.

Lemma dateRecovery_int s d p md :
  intPair md -> intPair (dateRecovery t s d p md).
Proof.
  intros Hmd. unfold dateRecovery, datePass6, datePass3.
  destruct md as [month day].
  case_if; [|exact Hmd].
  apply dateFromNumbers_int, datePass5_int, datePass4_int,
    dateFromNumbers_int, datePass2_int, datePass1_int, Hmd.
Qed.

Lemma nearby_int digits label len width :
  digitGroups digits -> Forall intOrNaN (nearby t digits label len width).
Proof.
  intros Hd. unfold nearby. rewrite map_app. apply Forall_app.
  split; apply (matchAll_group_int digits _ 0 Hd).
Qed.

Lemma sysCorrection_int sys : intOrNaN sys -> intOrNaN (sysCorrection t sys).
Proof.
  intros Hs. unfold sysCorrection.
  assert (Hc : intOrNaN (cascade t 100 250 sysPatterns sys)).
  { apply cascade_int; [|exact Hs]. apply digit_sub.
    intros r Hr. now apply In_app_l. }
  assert (Hn : Forall intOrNaN (filter (between 100 250)
                                  (nearby t reNum23 "sys" 3 10))).
  { apply filter_Forall, nearby_int, inline_digit. in_pats. }
  repeat case_if;
    auto using numAt_int, filter_Forall, numbers23_int, numbers3_int.
Qed.

Lemma diaCorrection_int dia : intOrNaN dia -> intOrNaN (diaCorrection t dia).
Proof.
  intros Hs. unfold diaCorrection.
  assert (Hc : intOrNaN (cascade t 40 150 diaPatterns dia)).
  { apply cascade_int; [|exact Hs]. apply digit_sub.
    intros r Hr. now apply In_app_r, In_app_l. }
  assert (Hn : Forall intOrNaN (filter (between 40 150)
                                  (nearby t reNum23 "dia" 3 10))).
  { apply filter_Forall, nearby_int, inline_digit. in_pats. }
  assert (Hp : forall m, exec percentagePattern t = Some m ->
                 intOrNaN (NumberOpt (grp m 1))).
  { intros m E. apply (exec_group_int percentagePattern t m 0); [|exact E].
    apply inline_digit. in_pats. }
  repeat case_if; auto using numAt_int;
    destruct (exec percentagePattern t) as [m|] eqn:E;
    repeat case_if; auto using numAt_int.
Qed.

Lemma standaloneNumbers_int lo hi : Forall intOrNaN (standaloneNumbers t lo hi).
Proof.
  unfold standaloneNumbers. repeat apply filter_Forall. apply numbers23'_int.
Qed.

Lemma unclaimed_int s d l : Forall intOrNaN l -> Forall intOrNaN (unclaimed s d l).
Proof. intros H. unfold unclaimed. now apply filter_Forall. Qed.

Lemma cocCorrection_int s d p : intOrNaN p -> intOrNaN (cocCorrection t s d p).
Proof.
  intros Hp. rewrite cocCorrection_table. case_if; [apply intOrNaN_int | exact Hp].
Qed.

Lemma cascades_int : intReading (cascades t).
Proof.
  unfold cascades, intReading. simpl.
  assert (Hs : intOrNaN (sysCorrection t (sysLoop t (int 0)))).
  { apply sysCorrection_int. unfold sysLoop. apply cascade_int;
      [|apply intOrNaN_int].
    apply Forall_map. apply digitGroups_of.
    intros p Hp. now apply In_app_r, In_app_r, In_app_l. }
  assert (Hd : intOrNaN (diaCorrection t (diaLoop t (int 0)))).
  { apply diaCorrection_int. unfold diaLoop. apply cascade_int;
      [|apply intOrNaN_int].
    apply Forall_map. apply digitGroups_of.
    intros p Hp. now apply In_app_r, In_app_r, In_app_r, In_app_l. }
  repeat split; auto.
  apply cocCorrection_int. unfold pulseLoop. apply cascade_int;
    [|apply intOrNaN_int].
  apply Forall_map. apply digitGroups_of.
  intros p Hp. now apply In_app_r, In_app_r, In_app_r, In_app_r.
Qed.

Lemma findNot_int x l v :
  findNot x l = Some v -> Forall intOrNaN l -> intOrNaN v.
Proof.
  intros E Hl. unfold findNot in E. apply find_some in E as [E _].
  rewrite Forall_forall in Hl. now apply Hl.
Qed.

Lemma layoutStage_int r : intReading r -> intReading (layoutStage t r).
Proof.
  destruct r as [[s d] p]. intros (Hs & Hd & Hp). simpl in *.
  unfold layoutStage.
  assert (Hbp : intReading (bpFallback t (s, d, p))).
  { unfold bpFallback.
    case_if; [|repeat split; assumption].
    case_if; [|repeat split; assumption].
    assert (Hl : forall c, Forall intOrNaN
                   (sortBy c (filter (between 70 250) (numbersOf t reNum23'))))
      by (intros c; apply sortBy_Forall, filter_Forall, numbers23'_int).
    repeat split; simpl; repeat case_if; auto using numAt_int.
    all: match goal with
         | |- context [findNot ?x ?l] =>
             destruct (findNot x l) eqn:Ef; [|assumption];
             apply findNot_int in Ef; [|apply Hl];
             case_if; assumption
         end. }
  case_if.
  - unfold lcdOverride. pose proof (standaloneNumbers_int 40 250) as Hl.
    case_if; [|repeat split; assumption].
    repeat split; simpl; try case_if; auto using numAt_int.
  - destruct (bpFallback t (s, d, p)) as [[s1 d1] p1].
    destruct Hbp as (Hs1 & Hd1 & Hp1). simpl in *.
    unfold pulseFallback.
    case_if; [|repeat split; assumption].
    case_if; [|repeat split; assumption].
    repeat split; simpl; auto.
    apply numAt_int, sortBy_Forall, unclaimed_int, filter_Forall,
      numbers23'_int.
Qed.

End Stages.

Lemma validated_int lo hi v : intOrNaN v -> isInt (inRangeOrZero lo hi v).
Proof.
  intros Hv. unfold inRangeOrZero.
  destruct (between lo hi v) eqn:E; [|now exists 0%N].
  destruct Hv as [-> | Hv]; [discriminate | exact Hv].
Qed.

(** The five numeric fields of every record hold integers. *)
Lemma record_integers (text : jsstring) :
  exists (d mo : N) (tm p : jsstring) (s di pu : N),
    extractDataFromText text
    = Result (int d) (int mo) tm p (int s) (int di) (int pu).
Proof.
  unfold extractDataFromText.
  set (t := preprocessText text).
  assert (Hmd : intPair (dateRecovery t (int 0) (int 0) (int 0)
                           (monthLoop t patterns.month (int 0),
                            dayLoop t patterns.day (int 0)))).
  { apply dateRecovery_int. unfold intPair. cbn [fst snd]. split.
    - apply monthLoop_int; [|apply intOrNaN_int]. apply digitGroups_of.
      intros p Hp. now apply In_app_l.
    - apply dayLoop_int; [|apply intOrNaN_int]. apply digitGroups_of.
      intros p Hp. now apply In_app_r, In_app_l. }
  destruct (dateRecovery _ _ _ _ _) as [mo d]. destruct Hmd as [Hmo Hd].
  simpl in Hmo, Hd.
  destruct (timeLoop _ _ _ _) as [tm p].
  pose proof (layoutStage_int t _ (cascades_int t)) as Hr.
  destruct (layoutStage t (cascades t)) as [[s di] pu].
  destruct Hr as (Hs & Hdi & Hpu). simpl in Hs, Hdi, Hpu.
  rewrite validate_fields.
  destruct (validated_int 1 31 d Hd) as [d' ->].
  destruct (validated_int 1 12 mo Hmo) as [mo' ->].
  destruct (validated_int 70 250 s Hs) as [s' ->].
  destruct (validated_int 40 150 di Hdi) as [di' ->].
  destruct (validated_int 40 200 pu Hpu) as [pu' ->].
  do 7 eexists. reflexivity.
Qed.


(** ** Totality (C1) *)

(** C1. For every input string, [extractDataFromText] returns a record
    with all seven fields: day, month, sys, dia and pulse hold integers
    (never [NaN], never a fraction) and time and period hold strings.  The
    function is defined by structural recursion only, with no fuel and no
    partial operation, so it returns on every input: a match that fails
    is [None], and every use of a match is guarded as in the source. *)
Theorem extractDataFromText_total (text : jsstring) :
  exists (d mo : N) (tm p : jsstring) (s di pu : N),
    extractDataFromText text
    = Result (int d) (int mo) tm p (int s) (int di) (int pu).
Proof. exact (record_integers text). Qed.

(** ** Range invariant (C2) *)

Lemma range_of_int (lo hi n : N) :
  int n = int 0 \/ InRange lo hi (int n) -> n = 0%N \/ (lo <= n <= hi)%N.
Proof.
  intros [H | H]; [left; now inversion H | right; now apply InRange_int].
Qed.

(** C2. For every input string, each numeric field of the record is an
    integer that is the sentinel 0 or lies in its final range: day in
    [1,31], month in [1,12], sys in [70,250], dia in [40,150], pulse in
    [40,200]. *)
Theorem extractDataFromText_ranges (text : jsstring) :
  exists d mo s di pu : N,
    day (extractDataFromText text) = int d
    /\ month (extractDataFromText text) = int mo
    /\ sys (extractDataFromText text) = int s
    /\ dia (extractDataFromText text) = int di
    /\ pulse (extractDataFromText text) = int pu
    /\ (d = 0 \/ 1 <= d <= 31)%N
    /\ (mo = 0 \/ 1 <= mo <= 12)%N
    /\ (s = 0 \/ 70 <= s <= 250)%N
    /\ (di = 0 \/ 40 <= di <= 150)%N
    /\ (pu = 0 \/ 40 <= pu <= 200)%N.
Proof.
  destruct (record_integers text) as (d & mo & tm & p & s & di & pu & E).
  pose proof (extract_ranges_num text _ (eq_sym E)) as R.
  cbn [day month sys dia pulse] in R.
  destruct R as (Rd & Rmo & Rs & Rdi & Rpu).
  exists d, mo, s, di, pu. rewrite E. cbn [day month sys dia pulse].
  repeat split; auto using range_of_int.
Qed.

(** * The record field by field *)

(** The record in terms of the stages that produce each field. *)
Lemma extract_fields (text : jsstring) :
  let t := preprocessText text in
  let md := dateRecovery t (int 0) (int 0) (int 0)
              (monthLoop t patterns.month (int 0),
               dayLoop t patterns.day (int 0)) in
  let tp := timeLoop t patterns.time [] [] in
  extractDataFromText text
  = validate (snd md) (fst md)
      (timeFromNumbers t (timeFallback t (fst tp)))
      (periodLoop t patterns.period (snd tp))
      (layoutStage t (cascades t)).
Proof.
  unfold extractDataFromText.
  destruct (dateRecovery _ _ _ _ _) as [mo d].
  destruct (timeLoop _ _ _ _) as [tm p].
  reflexivity.
Qed.

(** ** The date recovery only fills in what is missing *)

Lemma truthy_not_falsy (v : number) : truthy v = true -> falsy v = false.
Proof. unfold falsy. now intros ->. Qed.

Section Keeps.

Variable t : jsstring.

Lemma datePass1_keeps : keepsSet (datePass1 t).
Proof.
  intros month day. unfold datePass1.
  destruct (matchG reDateToken t) as [l|]; [|now split].
  revert month day.
  induction l as [|mt l IH]; intros month day; simpl; [now split|].
  split; intros H.
  - rewrite (truthy_not_falsy _ H), andb_false_r.
    destruct (_ && falsy day); now apply IH.
  - rewrite (truthy_not_falsy _ H), !andb_false_r.
    destruct (_ && falsy month); now apply IH.
Qed.

Lemma datePass2Loop_keeps ps : forall month day,
  (truthy month = true -> fst (datePass2Loop t ps month day) = month)
  /\ (truthy day = true -> snd (datePass2Loop t ps month day) = day).
Proof.
  induction ps as [|p ps IH]; intros month day; simpl; [now split|].
  destruct (matchG p t) as [mt|]; [|apply IH].
  destruct (_ && _).
  - split; intros H; simpl; now rewrite (truthy_not_falsy _ H).
  - destruct (_ && _); [|apply IH].
    split; intros H; simpl; now rewrite (truthy_not_falsy _ H).
Qed.

Lemma datePass2_keeps : keepsSet (datePass2 t).
Proof.
  intros month day. unfold datePass2.
  destruct (_ || _); [apply datePass2Loop_keeps | now split].
Qed.

Lemma dateFromNumbers_keeps excluded : keepsSet (dateFromNumbers t excluded).
Proof.
  intros month day. unfold dateFromNumbers.
  destruct (_ || _); [|now split].
  destruct (2 <=? _)%nat; [|now split].
  split; intros H; simpl; now rewrite (truthy_not_falsy _ H).
Qed.

Lemma datePass4Loop_keeps ps : forall month day,
  (truthy month = true -> fst (datePass4Loop t ps month day) = month)
  /\ (truthy day = true -> snd (datePass4Loop t ps month day) = day).
Proof.
  induction ps as [|p ps IH]; intros month day; simpl; [now split|].
  destruct (matchG p t) as [mt|]; [|apply IH].
  destruct (_ && _); [|apply IH].
  split; intros H; simpl; now rewrite (truthy_not_falsy _ H).
Qed.

Lemma datePass4_keeps : keepsSet (datePass4 t).
Proof.
  intros month day. unfold datePass4.
  destruct (_ || _); [apply datePass4Loop_keeps | now split].
Qed.

Lemma monthDayProximity_keeps : keepsSet (monthDayProximity t).
Proof.
  intros month day. unfold monthDayProximity.
  destruct (_ || _); [|now split].
  destruct (exec _ _); [|now split].
  split; intros H; simpl; now rewrite (truthy_not_falsy _ H).
Qed.

Lemma ocrDateLoop_keeps : keepsSet (ocrDateLoop t).
Proof.
  intros month day. unfold ocrDateLoop.
  destruct (_ || _); [|now split].
  generalize ocrDateCorrections as l. intros l. revert month day.
  induction l as [|[misread value] l IH]; intros month day; [now split|].
  cbn [fold_left].
  destruct (includes t (str misread)); [|apply IH].
  split; intros H.
  - rewrite (truthy_not_falsy _ H), andb_false_r.
    destruct (_ && falsy day); now apply IH.
  - rewrite (truthy_not_falsy _ H), andb_false_r.
    destruct (_ && falsy month); now apply IH.
Qed.

(** The fifth pass is entered only while the month is missing; its first
    three steps may then set the day as well, but only together with the
    month, when both are missing. *)
Lemma datePass5_keeps : keepsSet (datePass5 t).
Proof.
  intros month day. unfold datePass5.
  destruct (falsy month) eqn:Hm.
  2:{ now split. }
  split; intros H.
  - unfold falsy in Hm. now rewrite H in Hm.
  - rewrite (truthy_not_falsy _ H), andb_false_r.
    destruct (monthDayProximity_keeps (monthFrom4d t (misreadLoop t monthMisreads month)) day)
      as [_ K].
    destruct (monthDayProximity t _) as [m1 d1] eqn:E1.
    simpl in K. specialize (K H). subst d1.
    now apply ocrDateLoop_keeps.
Qed.

Lemma keepsSet_compose f g : keepsSet f -> keepsSet g -> keepsSet (fun md => g (f md)).
Proof.
  intros Hf Hg month day.
  destruct (Hf month day) as [F1 F2].
  destruct (f (month, day)) as [m1 d1]. simpl in F1, F2.
  destruct (Hg m1 d1) as [G1 G2].
  split; intros H.
  - specialize (F1 H). subst m1. now apply G1.
  - specialize (F2 H). subst d1. now apply G2.
Qed.

Lemma dateRecovery_keeps s d p : keepsSet (dateRecovery t s d p).
Proof.
  intros month day. unfold dateRecovery.
  destruct (_ || _); [|now split].
  unfold datePass6, datePass3.
  apply (keepsSet_compose
           (fun md => datePass5 t (datePass4 t (dateFromNumbers t [] (datePass2 t (datePass1 t md)))))
           (dateFromNumbers t _)); [|apply dateFromNumbers_keeps].
  apply (keepsSet_compose
           (fun md => datePass4 t (dateFromNumbers t [] (datePass2 t (datePass1 t md))))
           (datePass5 t)); [|apply datePass5_keeps].
  apply (keepsSet_compose
           (fun md => dateFromNumbers t [] (datePass2 t (datePass1 t md)))
           (datePass4 t)); [|apply datePass4_keeps].
  apply (keepsSet_compose
           (fun md => datePass2 t (datePass1 t md))
           (dateFromNumbers t [])); [|apply dateFromNumbers_keeps].
  apply (keepsSet_compose (datePass1 t) (datePass2 t));
    [apply datePass1_keeps | apply datePass2_keeps].
Qed.

End Keeps.

(** ** Validation of an integer *)

Lemma inRangeOrZero_int (lo hi n : N) :
  inRangeOrZero lo hi (int n)
  = if ((lo <=? n) && (n <=? hi))%N then int n else int 0.
Proof.
  unfold inRangeOrZero, between, geb, leb, int.
  change (pow10 0) with 1%N. now rewrite !N.mul_1_r.
Qed.

Lemma truthy_int (n : N) : truthy (int n) = negb (n =? 0)%N.
Proof. reflexivity. Qed.

Lemma truthy_pos (n : N) : (0 < n)%N -> truthy (int n) = true.
Proof.
  intros H. rewrite truthy_int. destruct (N.eqb_spec n 0); [lia | reflexivity].
Qed.

Lemma record_date (text : jsstring) (mo d : number) :
  let t := preprocessText text in
  dateRecovery t (int 0) (int 0) (int 0)
    (monthLoop t patterns.month (int 0), dayLoop t patterns.day (int 0))
  = (mo, d) ->
  month (extractDataFromText text) = inRangeOrZero 1 12 mo
  /\ day (extractDataFromText text) = inRangeOrZero 1 31 d.
Proof.
  intros t H. rewrite extract_fields. fold t. rewrite H.
  destruct (layoutStage t (cascades t)) as [[s di] pu].
  rewrite validate_fields. cbn [month day fst snd]. split; reflexivity.
Qed.

(** X1. Whatever month the label patterns leave is final: when the month
    loop ends with a non-zero value, no recovery pass replaces it; the
    record's month is that value if it is at most 12 and 0 otherwise. *)
Theorem month_label_final (text : jsstring) (n : N) :
  let t := preprocessText text in
  monthLoop t patterns.month (int 0) = int n ->
  (0 < n)%N ->
  month (extractDataFromText text) = if (n <=? 12)%N then int n else int 0.
Proof.
  intros t Hm Hn.
  destruct (dateRecovery t (int 0) (int 0) (int 0)
              (monthLoop t patterns.month (int 0),
               dayLoop t patterns.day (int 0))) as [mo d] eqn:E.
  destruct (record_date text mo d E) as [-> _].
  destruct (dateRecovery_keeps t (int 0) (int 0) (int 0)
              (monthLoop t patterns.month (int 0))
              (dayLoop t patterns.day (int 0))) as [K _].
  rewrite E, Hm in K. simpl in K. rewrite (K (truthy_pos n Hn)).
  rewrite inRangeOrZero_int.
  destruct (N.leb_spec 1 n); [reflexivity | lia].
Qed.

Lemma month_label_final_witness :
  month (extractDataFromText (str "13m 20 5")) = int 0
  /\ month (extractDataFromText (str "7m 20 5")) = int 7.
Proof.
  split.
  - apply (month_label_final (str "13m 20 5") 13); [vm_compute; reflexivity | lia].
  - apply (month_label_final (str "7m 20 5") 7); [vm_compute; reflexivity | lia].
Defined.

(** X2. Whatever day the label patterns leave is final: when the day loop
    ends with a non-zero value, no recovery pass replaces it; the record's
    day is that value if it is at most 31 and 0 otherwise. *)
Theorem day_label_final (text : jsstring) (n : N) :
  let t := preprocessText text in
  dayLoop t patterns.day (int 0) = int n ->
  (0 < n)%N ->
  day (extractDataFromText text) = if (n <=? 31)%N then int n else int 0.
Proof.
  intros t Hd Hn.
  destruct (dateRecovery t (int 0) (int 0) (int 0)
              (monthLoop t patterns.month (int 0),
               dayLoop t patterns.day (int 0))) as [mo d] eqn:E.
  destruct (record_date text mo d E) as [_ ->].
  destruct (dateRecovery_keeps t (int 0) (int 0) (int 0)
              (monthLoop t patterns.month (int 0))
              (dayLoop t patterns.day (int 0))) as [_ K].
  rewrite E, Hd in K. simpl in K. rewrite (K (truthy_pos n Hn)).
  rewrite inRangeOrZero_int.
  destruct (N.leb_spec 1 n); [reflexivity | lia].
Qed.

Lemma day_label_final_witness :
  day (extractDataFromText (str "45d 7 20")) = int 0
  /\ day (extractDataFromText (str "15d 7 20")) = int 15.
Proof.
  split.
  - apply (day_label_final (str "45d 7 20") 45); [vm_compute; reflexivity | lia].
  - apply (day_label_final (str "15d 7 20") 15); [vm_compute; reflexivity | lia].
Defined.

(** ** Labelled diastolic and pulse values *)

Lemma diaCorrection_keeps (t : jsstring) (v : number) :
  between 40 150 v = true -> diaCorrection t v = v.
Proof.
  intros H. unfold diaCorrection.
  now rewrite (needsCorrection_false 40 150 v).
Qed.

Lemma bpFallback_dia (t : jsstring) (s d p : number) :
  truthy d = true -> snd (fst (bpFallback t (s, d, p))) = d.
Proof.
  intros H. unfold bpFallback.
  rewrite (truthy_not_falsy _ H).
  destruct (_ || _); [|reflexivity].
  destruct (2 <=? _)%nat; reflexivity.
Qed.

Lemma pulseFallback_set (t : jsstring) (s d p : number) :
  truthy p = true -> pulseFallback t (s, d, p) = (s, d, p).
Proof.
  intros H. unfold pulseFallback. now rewrite (truthy_not_falsy _ H).
Qed.

Lemma cascades_dia (t : jsstring) :
  snd (fst (cascades t)) = diaCorrection t (diaLoop t (int 0)).
Proof. reflexivity. Qed.

Lemma cascades_pulse (t : jsstring) :
  snd (cascades t)
  = cocCorrection t (fst (fst (cascades t))) (snd (fst (cascades t)))
      (pulseLoop t (int 0)).
Proof. reflexivity. Qed.

(** X3. A labelled diastolic value is final outside the display layout:
    when the diastolic patterns find a value in [40,150] and the
    normalized text does not carry all three labels, the record's dia is
    that value. *)
Theorem dia_label_final (text : jsstring) (n : N) :
  let t := preprocessText text in
  diaLoop t (int 0) = int n ->
  (40 <= n <= 150)%N ->
  hasAllLabels t = false ->
  dia (extractDataFromText text) = int n.
Proof.
  intros t Hv Hn HL.
  assert (Hb : between 40 150 (int n) = true) by now apply between_int.
  assert (Hc : snd (fst (cascades t)) = int n).
  { rewrite cascades_dia, Hv. now apply diaCorrection_keeps. }
  destruct (cascades t) as [[s d] p] eqn:Ec. simpl in Hc. subst d.
  destruct (layoutStage t (s, int n, p)) as [[s' d'] p'] eqn:El.
  assert (Hd : d' = int n).
  { change d' with (snd (fst (s', d', p'))). rewrite <- El.
    unfold layoutStage. rewrite HL, pulseFallback_bp.
    apply bpFallback_dia. apply truthy_pos. lia. }
  subst d'.
  assert (E := El). rewrite <- Ec in E. apply extract_measurements in E.
  destruct E as (_ & E & _). rewrite E.
  now apply inRangeOrZero_keep.
Qed.

Lemma dia_label_final_witness :
  dia (extractDataFromText (str "dia 85 and 120 130")) = int 85.
Proof.
  apply (dia_label_final (str "dia 85 and 120 130") 85);
    [vm_compute; reflexivity | lia | vm_compute; reflexivity].
Defined.

(** X4. A labelled pulse value is final outside the display layout: when
    the pulse patterns find a value in [40,200] and the normalized text
    does not carry all three labels, the record's pulse is that value. *)
Theorem pulse_label_final (text : jsstring) (n : N) :
  let t := preprocessText text in
  pulseLoop t (int 0) = int n ->
  (40 <= n <= 200)%N ->
  hasAllLabels t = false ->
  pulse (extractDataFromText text) = int n.
Proof.
  intros t Hv Hn HL.
  assert (Hb : between 40 200 (int n) = true) by now apply between_int.
  assert (Ht : truthy (int n) = true) by (apply truthy_pos; lia).
  assert (Hc : snd (cascades t) = int n).
  { rewrite cascades_pulse, Hv, cocCorrection_table.
    now rewrite (truthy_not_falsy _ Ht). }
  destruct (cascades t) as [[s d] p] eqn:Ec. simpl in Hc. subst p.
  destruct (layoutStage t (s, d, int n)) as [[s' d'] p'] eqn:El.
  assert (Hp : p' = int n).
  { change p' with (snd (s', d', p')). rewrite <- El.
    unfold layoutStage. rewrite HL.
    pose proof (bpFallback_pulse t (s, d, int n)) as K.
    destruct (bpFallback t (s, d, int n)) as [[s1 d1] p1].
    simpl in K. subst p1. now rewrite pulseFallback_set. }
  subst p'.
  assert (E := El). rewrite <- Ec in E. apply extract_measurements in E.
  destruct E as (_ & _ & E). rewrite E.
  now apply inRangeOrZero_keep.
Qed.

Lemma pulse_label_final_witness :
  pulse (extractDataFromText (str "95 bpm 60 120")) = int 95.
Proof.
  apply (pulse_label_final (str "95 bpm 60 120") 95);
    [vm_compute; reflexivity | lia | vm_compute; reflexivity].
Defined.

(** ** The display layout in general *)

Lemma standaloneNumbers_range (t : jsstring) (lo hi : N) (v : number) :
  In v (standaloneNumbers t lo hi) -> between lo hi v = true.
Proof.
  unfold standaloneNumbers. intros H.
  apply filter_In in H. destruct H as [H _].
  apply filter_In in H. now destruct H.
Qed.

(** X5. With the three labels in the normalized text and at least three
    standalone numbers in [40,250], the measurements are read by position
    alone: sys, dia and pulse are the first, second and third standalone
    number, each replaced by 0 when it falls outside the range of its
    field.  What the label patterns found plays no part. *)
Theorem lcd_positions (text : jsstring) (x y z : N) (rest : list number) :
  let t := preprocessText text in
  hasAllLabels t = true ->
  standaloneNumbers t 40 250 = int x :: int y :: int z :: rest ->
  let r := extractDataFromText text in
  sys r = (if (70 <=? x)%N then int x else int 0)
  /\ dia r = (if (y <=? 150)%N then int y else int 0)
  /\ pulse r = (if (z <=? 200)%N then int z else int 0).
Proof.
  intros t HL HS r. subst r.
  assert (R : forall v, In (int v) (int x :: int y :: int z :: rest) ->
                        (40 <= v <= 250)%N).
  { intros v Hv. rewrite <- HS in Hv.
    apply standaloneNumbers_range, between_spec in Hv.
    now apply (proj1 (InRange_int 40 250 v)) in Hv. }
  assert (Rx := R x (or_introl eq_refl)).
  assert (Ry := R y (or_intror (or_introl eq_refl))).
  assert (Rz := R z (or_intror (or_intror (or_introl eq_refl)))).
  pose proof (layoutStage_override t (cascades t) _ _ _ _ HL HS) as E.
  apply extract_measurements in E. destruct E as (-> & -> & ->).
  rewrite !inRangeOrZero_int.
  repeat split.
  - destruct (N.leb_spec 70 x), (N.leb_spec x 250); simpl; try reflexivity; lia.
  - destruct (N.leb_spec 40 y), (N.leb_spec y 150); simpl; try reflexivity; lia.
  - destruct (N.leb_spec 40 z), (N.leb_spec z 200); simpl; try reflexivity; lia.
Qed.

Lemma lcd_positions_witness :
  let r := extractDataFromText (str "45 sys 120 dia 80 pulse 70") in
  sys r = int 0 /\ dia r = int 120 /\ pulse r = int 80.
Proof.
  apply (lcd_positions (str "45 sys 120 dia 80 pulse 70") 45 120 80 [int 70]);
    vm_compute; reflexivity.
Defined.

(** * The magnitude fallback *)

(** ** The head of a sorted array *)

Lemma subSign_int (p q : N) : subSign (int p) (int q) = (Z.of_N p - Z.of_N q)%Z.
Proof.
  unfold subSign, int. change (pow10 0) with 1%N. now rewrite !N.mul_1_r.
Qed.

Section SortHead.

Variable D : number -> Prop.
Variable cmp : number -> number -> Z.

Hypothesis cmp_total :
  forall a b, D a -> D b -> (0 < cmp a b)%Z -> (cmp b a <= 0)%Z.
Hypothesis cmp_trans :
  forall a b c, D a -> D b -> D c ->
    (cmp a b <= 0)%Z -> (cmp b c <= 0)%Z -> (cmp a c <= 0)%Z.
Hypothesis cmp_refl : forall a, D a -> (cmp a a <= 0)%Z.

(** The first element of the sorted array comes before every element. *)
Lemma sortBy_head (l : list number) :
  Forall D l ->
  forall h s, sortBy cmp l = h :: s ->
    In h l /\ forall y, In y l -> (cmp h y <= 0)%Z.
Proof.
  induction l as [|x l IH]; intros HD h s E; [discriminate|].
  simpl in E. inversion HD as [|? ? Hx Hl]; subst.
  destruct (sortBy cmp l) as [|h0 s0] eqn:Es.
  - assert (l = []).
    { apply length_zero_iff_nil. rewrite <- (sortBy_length cmp), Es.
      reflexivity. }
    subst l. simpl in E. inversion E; subst.
    split; [now left|]. intros y [<- | []]. now apply cmp_refl.
  - destruct (IH Hl h0 s0 eq_refl) as [Hin Hle].
    assert (Dh0 : D h0) by (rewrite Forall_forall in Hl; now apply Hl).
    simpl in E. destruct (0 <? cmp x h0)%Z eqn:C.
    + apply Z.ltb_lt in C. inversion E; subst.
      split; [now right|].
      intros y [<- | Hy]; [now apply cmp_total | now apply Hle].
    + apply Z.ltb_ge in C. inversion E; subst.
      split; [now left|].
      intros y [<- | Hy]; [now apply cmp_refl|].
      apply (cmp_trans h h0 y); auto.
      rewrite Forall_forall in Hl. now apply Hl.
Qed.

End SortHead.

Lemma isInt_filter (lo hi : N) (l : list number) :
  Forall intOrNaN l -> Forall isInt (filter (between lo hi) l).
Proof.
  intros H. apply Forall_forall. intros v Hv.
  apply filter_In in Hv. destruct Hv as [Hv Hb].
  rewrite Forall_forall in H. destruct (H v Hv) as [-> | Hi]; [discriminate | exact Hi].
Qed.

(** Largest first. *)
Lemma sortBy_desc_head (l : list number) (h : number) (s : list number) :
  Forall isInt l ->
  sortBy (fun a b => subSign b a) l = h :: s ->
  exists x, h = int x /\ In (int x) l
            /\ forall k, In (int k) l -> (k <= x)%N.
Proof.
  intros HD E.
  destruct (sortBy_head isInt (fun a b => subSign b a)) with (l := l) (h := h) (s := s)
    as [Hin Hle]; auto.
  - intros a b [p ->] [q ->]. rewrite !subSign_int. lia.
  - intros a b c [p ->] [q ->] [r ->]. rewrite !subSign_int. lia.
  - intros a [p ->]. rewrite subSign_int. lia.
  - rewrite Forall_forall in HD. destruct (HD h Hin) as [x ->].
    exists x. repeat split; [assumption|].
    intros k Hk. specialize (Hle _ Hk). rewrite subSign_int in Hle. lia.
Qed.

(** Smallest first. *)
Lemma sortBy_asc_head (l : list number) (h : number) (s : list number) :
  Forall isInt l ->
  sortBy subSign l = h :: s ->
  exists x, h = int x /\ In (int x) l
            /\ forall k, In (int k) l -> (x <= k)%N.
Proof.
  intros HD E.
  destruct (sortBy_head isInt subSign) with (l := l) (h := h) (s := s)
    as [Hin Hle]; auto.
  - intros a b [p ->] [q ->]. rewrite !subSign_int. lia.
  - intros a b c [p ->] [q ->] [r ->]. rewrite !subSign_int. lia.
  - intros a [p ->]. rewrite subSign_int. lia.
  - rewrite Forall_forall in HD. destruct (HD h Hin) as [x ->].
    exists x. repeat split; [assumption|].
    intros k Hk. specialize (Hle _ Hk). rewrite subSign_int in Hle. lia.
Qed.

Lemma numAt_head (h : number) (s : list number) : numAt (h :: s) 0 = h.
Proof. reflexivity. Qed.

Lemma strictEq_int (p q : N) : strictEq (int p) (int q) = (p =? q)%N.
Proof.
  unfold strictEq, int. change (pow10 0) with 1%N. now rewrite !N.mul_1_r.
Qed.

(** ** Systolic and diastolic by magnitude *)

(** The two- or three-digit numbers of the text between two bounds. *)
Lemma bpNumbers_ints (t : jsstring) (lo hi : N) :
  Forall isInt (filter (between lo hi) (numbersOf t reNum23')).
Proof. apply isInt_filter, numbers23'_int. Qed.

Lemma bpNumbers_range (t : jsstring) (lo hi x : N) :
  In (int x) (filter (between lo hi) (numbersOf t reNum23')) ->
  (lo <= x <= hi)%N.
Proof.
  intros H. apply filter_In in H. destruct H as [_ H].
  apply between_spec in H. apply (proj1 (InRange_int lo hi x)) in H.
  exact H.
Qed.

(** With both values missing, the fallback leaves them missing or takes
    the largest candidate as systolic and the largest candidate below it
    as diastolic. *)
Lemma bpFallback_both (t : jsstring) (s d p : number) :
  falsy s = true -> falsy d = true ->
  let nums := filter (between 70 250) (numbersOf t reNum23') in
  bpFallback t (s, d, p) = (s, d, p)
  \/ exists x,
       In (int x) nums /\ (forall k, In (int k) nums -> (k <= x)%N)
       /\ (bpFallback t (s, d, p) = (int x, d, p)
           \/ exists y, bpFallback t (s, d, p) = (int x, int y, p)
                        /\ In (int y) nums /\ (y < x)%N).
Proof.
  intros Hs Hd nums. unfold bpFallback. rewrite Hs, Hd. cbn [orb].
  fold nums.
  destruct (2 <=? List.length nums)%nat eqn:Hlen; [|now left].
  right.
  destruct (sortBy (fun a b => subSign b a) nums) as [|h rest] eqn:Es.
  { apply (f_equal (@List.length _)) in Es. rewrite sortBy_length in Es.
    apply Nat.leb_le in Hlen. simpl in Es. lia. }
  destruct (sortBy_desc_head nums h rest (bpNumbers_ints t 70 250) Es)
    as (x & -> & Hin & Hmax).
  exists x. split; [exact Hin|]. split; [exact Hmax|].
  rewrite numAt_head.
  destruct (findNot (int x) (int x :: rest)) as [v|] eqn:Ef; [|now left].
  unfold findNot in Ef. apply find_some in Ef. destruct Ef as [Hv Hne].
  assert (Hv' : In v nums).
  { apply (sortBy_In (fun a b => subSign b a)). now rewrite Es. }
  pose proof (bpNumbers_ints t 70 250) as Hi.
  rewrite Forall_forall in Hi. destruct (Hi v Hv') as [y ->].
  pose proof (bpNumbers_range t 70 250 y Hv') as Hy.
  rewrite (truthy_pos y) by lia.
  right. exists y. repeat split; [exact Hv'|].
  apply negb_true_iff in Hne. rewrite strictEq_int in Hne.
  apply N.eqb_neq in Hne. specialize (Hmax y Hv'). lia.
Qed.

(** ** A group does not change what a scan finds *)

Lemma rep_map (A B : Type) (f : A -> B) p (k : cursor -> option A) :
  forall r lo hi l,
    rep p lo hi l r (fun c => option_map f (k c))
    = option_map f (rep p lo hi l r k).
Proof.
  induction r as [|x r IH]; intros lo hi l; simpl.
  - destruct hi as [[|h]|]; destruct lo; reflexivity.
  - destruct hi as [[|h]|]; try (destruct lo; reflexivity).
    + destruct (p x); [|destruct lo; reflexivity].
      rewrite IH. destruct (rep p _ _ _ r k); [reflexivity|].
      destruct lo; reflexivity.
    + destruct (p x); [|destruct lo; reflexivity].
      rewrite IH. destruct (rep p _ _ _ r k); [reflexivity|].
      destruct lo; reflexivity.
Qed.

Lemma rep_ext (A : Type) p (k1 k2 : cursor -> option A) :
  (forall c, k1 c = k2 c) ->
  forall r lo hi l, rep p lo hi l r k1 = rep p lo hi l r k2.
Proof.
  intros H. induction r as [|x r IH]; intros lo hi l; simpl.
  - rewrite H. reflexivity.
  - rewrite H, IH. reflexivity.
Qed.

Lemma matchAt_reNum23 (c : cursor) :
  matchAt reNum23 c = option_map withGroup (matchAt reNum23' c).
Proof.
  unfold matchAt, reNum23, reNum23', d23. simpl.
  destruct (atBoundary c); [|reflexivity].
  rewrite <- rep_map. apply rep_ext.
  intros c'. unfold textBetween. simpl.
  destruct (atBoundary c'); reflexivity.
Qed.

Lemma scan_reNum23 : forall rt skip l,
  scan reNum23 skip l rt = List.map withGroup (scan reNum23' skip l rt).
Proof.
  induction rt as [|x rt IH]; intros skip l.
  - destruct skip; [|reflexivity].
    cbn [scan]. rewrite matchAt_reNum23.
    destruct (matchAt reNum23' (Cur l [])); reflexivity.
  - destruct skip; cbn [scan]; [|apply IH].
    rewrite matchAt_reNum23.
    destruct (matchAt reNum23' (Cur l (x :: rt))) as [m|]; cbn [option_map].
    + cbn [List.map]. f_equal. apply IH.
    + apply IH.
Qed.

Lemma matchGOr_reNum23 (t : jsstring) : matchGOr reNum23 t = matchGOr reNum23' t.
Proof.
  unfold matchGOr, matchG. rewrite scan_reNum23.
  destruct (scan reNum23' 0 [] t) as [|m ms]; [reflexivity|].
  cbn [List.map]. f_equal. rewrite map_map. reflexivity.
Qed.

Lemma numbersOf_reNum23 (t : jsstring) : numbersOf t reNum23 = numbersOf t reNum23'.
Proof. unfold numbersOf. now rewrite matchGOr_reNum23. Qed.

(** ** A systolic still missing after the correction *)

Lemma filter_head_In {X} (f : X -> bool) (l : list X) (x : X) (rest : list X) :
  filter f l = x :: rest -> f x = true.
Proof.
  intros H. assert (K : In x (filter f l)) by (rewrite H; now left).
  apply filter_In in K. now destruct K.
Qed.

Lemma numAt_filter_truthy (lo hi : N) (l : list number) :
  (0 < lo)%N ->
  (0 <? List.length (filter (between lo hi) l))%nat = true ->
  truthy (numAt (filter (between lo hi) l) 0) = true.
Proof.
  intros Hlo H. destruct (filter (between lo hi) l) as [|x rest] eqn:E;
    [discriminate|].
  rewrite numAt_head. apply (between_truthy lo hi); [assumption|].
  now apply (filter_head_In _ _ _ _ E).
Qed.

(** If the systolic is missing after the correction pass, the text has no
    standalone number in [100,250]. *)
Lemma sysCorrection_falsy (t : jsstring) (s : number) :
  falsy (sysCorrection t s) = true ->
  filter (between 100 250) (numbersOf t reNum23') = [].
Proof.
  unfold sysCorrection. rewrite numbersOf_reNum23.
  destruct (needsCorrection 100 s) eqn:Hn.
  - destruct (0 <? List.length
                     (filter (between 100 250) (numbersOf t reNum23')))%nat
      eqn:Hc.
    + intros H. exfalso.
      assert (K : forall v, truthy v = true -> falsy v = true -> False).
      { intros v Hv Hf. unfold falsy in Hf. now rewrite Hv in Hf. }
      destruct (0 <? List.length
                       (filter (between 100 250) (numbersOf t reNum3)))%nat
        eqn:Hl.
      * apply (K _ (numAt_filter_truthy 100 250 _ eq_refl Hl) H).
      * apply (K _ (numAt_filter_truthy 100 250 _ eq_refl Hc) H).
    + intros _. apply Nat.ltb_ge in Hc.
      apply length_zero_iff_nil. lia.
  - intros H. unfold needsCorrection in Hn. now rewrite H in Hn.
Qed.

(** X6. When the label patterns and the correction passes leave both
    systolic and diastolic missing and the text is not in display layout,
    the magnitude fallback decides: the record's sys is 0 or lies in
    [70,99], and its dia is 0 or lies in [70,98] and is smaller than sys. *)
Theorem bp_fallback_order (text : jsstring) :
  let t := preprocessText text in
  hasAllLabels t = false ->
  falsy (fst (fst (cascades t))) = true ->
  falsy (snd (fst (cascades t))) = true ->
  let r := extractDataFromText text in
  (sys r = int 0 /\ dia r = int 0)
  \/ exists x, sys r = int x /\ (70 <= x <= 99)%N
               /\ (dia r = int 0
                   \/ exists y, dia r = int y /\ (70 <= y < x)%N).
Proof.
  intros t HL Hs Hd r. subst r.
  pose proof (sysCorrection_falsy t (sysLoop t (int 0)) Hs) as Hnone.
  destruct (cascades t) as [[s d] p] eqn:Ec. simpl in Hs, Hd.
  assert (Hsmall : forall k,
            In (int k) (filter (between 70 250) (numbersOf t reNum23')) ->
            (70 <= k <= 99)%N).
  { intros k Hk. pose proof (bpNumbers_range t 70 250 k Hk) as Hr.
    destruct (N.le_gt_cases k 99) as [|Hbig]; [lia|]. exfalso.
    assert (Hin : In (int k) (filter (between 100 250) (numbersOf t reNum23'))).
    { apply filter_In. apply filter_In in Hk. split; [tauto|].
      apply between_int. lia. }
    now rewrite Hnone in Hin. }
  assert (Hz : forall lo hi v, (0 < lo)%N -> falsy v = true ->
                               inRangeOrZero lo hi v = int 0).
  { intros lo hi v Hlo Hv. unfold inRangeOrZero.
    now rewrite (falsy_not_between lo hi v Hlo Hv). }
  assert (El : layoutStage t (s, d, p)
               = pulseFallback t (bpFallback t (s, d, p)))
    by (unfold layoutStage; now rewrite HL).
  destruct (bpFallback_both t s d p Hs Hd)
    as [E | (x & Hx & Hmax & [E | (y & E & Hy & Hlt)])];
    rewrite E in El;
    match type of El with
    | _ = pulseFallback t (?a, ?b, ?c) =>
        destruct (pulseFallback_excludes t a b c) as (p' & Ep & _);
        rewrite Ep in El
    end;
    rewrite <- Ec in El; apply extract_measurements in El;
    destruct El as (-> & -> & _).
  - left. split; apply Hz; auto; reflexivity.
  - right. exists x. pose proof (Hsmall x Hx).
    split; [apply inRangeOrZero_keep, between_int; lia|].
    split; [assumption|]. left. apply Hz; auto; reflexivity.
  - right. exists x. pose proof (Hsmall x Hx). pose proof (Hsmall y Hy).
    split; [apply inRangeOrZero_keep, between_int; lia|].
    split; [assumption|]. right. exists y.
    split; [apply inRangeOrZero_keep, between_int; lia | lia].
Qed.

Lemma bp_fallback_order_witness :
  let r := extractDataFromText (str "85 90 78") in
  (sys r = int 0 /\ dia r = int 0)
  \/ exists x, sys r = int x /\ (70 <= x <= 99)%N
               /\ (dia r = int 0
                   \/ exists y, dia r = int y /\ (70 <= y < x)%N).
Proof.
  apply (bp_fallback_order (str "85 90 78")); vm_compute; reflexivity.
Defined.

(** ** The pulse by magnitude *)

Lemma bpFallback_int (t : jsstring) (r : reading) :
  intReading r -> intReading (bpFallback t r).
Proof.
  destruct r as [[s d] p]. intros (Hs & Hd & Hp). simpl in *.
  unfold bpFallback.
  case_if; [|repeat split; assumption].
  case_if; [|repeat split; assumption].
  assert (Hl : forall c, Forall intOrNaN
                 (sortBy c (filter (between 70 250) (numbersOf t reNum23'))))
    by (intros c; apply sortBy_Forall, filter_Forall, numbers23'_int).
  repeat split; simpl; repeat case_if; auto using numAt_int.
  all: match goal with
       | |- context [findNot ?x ?l] =>
           destruct (findNot x l) eqn:Ef; [|assumption];
           apply findNot_int in Ef; [|apply Hl];
           case_if; assumption
       end.
Qed.

Lemma sameValueZero_int (x : N) (v : number) :
  intOrNaN v -> int x <> v -> sameValueZero (int x) v = false.
Proof.
  intros [-> | [n ->]] H; [reflexivity|].
  change (sameValueZero (int x) (int n)) with (strictEq (int x) (int n)).
  rewrite strictEq_int. apply N.eqb_neq. congruence.
Qed.

Lemma unclaimed_In (s d : number) (l : list number) (x : N) :
  intOrNaN s -> intOrNaN d ->
  In (int x) l -> int x <> s -> int x <> d ->
  In (int x) (unclaimed s d l).
Proof.
  intros Hs Hd Hin Hxs Hxd. unfold unclaimed. apply filter_In.
  split; [assumption|]. apply negb_true_iff.
  unfold arrIncludes, positive. cbn [filter].
  destruct (gtb s (int 0)), (gtb d (int 0)); cbn [existsb];
    rewrite ?(sameValueZero_int x s Hs Hxs), ?(sameValueZero_int x d Hd Hxd);
    reflexivity.
Qed.

(** X7. Outside the display layout, a pulse still missing after the label
    patterns and the "coc" correction is taken by magnitude.  The
    candidates are the standalone two- or three-digit numbers of the text
    that lie in [40,200] and are neither the systolic nor the diastolic
    value at that point: the record's pulse is the least candidate, and 0
    when there is none. *)
Theorem pulse_fallback_least (text : jsstring) (s d : number) :
  let t := preprocessText text in
  let r := extractDataFromText text in
  let candidate (x : N) :=
    In (int x) (numbersOf t reNum23') /\ (40 <= x <= 200)%N
    /\ int x <> s /\ int x <> d in
  hasAllLabels t = false ->
  falsy (snd (cascades t)) = true ->
  fst (bpFallback t (cascades t)) = (s, d) ->
  ((forall x, ~ candidate x) /\ pulse r = int 0)
  \/ (exists q, candidate q /\ (forall x, candidate x -> (q <= x)%N)
                /\ pulse r = int q).
Proof.
  intros t r candidate HL Hp Hb. subst r.
  pose proof (cascades_int t) as Hci.
  destruct (cascades t) as [[s0 d0] p] eqn:Ecs. cbn [snd] in Hp.
  pose proof (bpFallback_int t _ Hci) as (Hs & Hd & _).
  pose proof (bpFallback_pulse t (s0, d0, p)) as K.
  destruct (bpFallback t (s0, d0, p)) as [[s1 d1] p1] eqn:Eb.
  cbn [fst snd] in Hb, Hs, Hd, K. inversion Hb; subst s1 d1. subst p1.
  set (cands := unclaimed s d
                  (filter (between 40 200) (numbersOf t reNum23'))).
  assert (Hin : forall x, candidate x -> In (int x) cands).
  { intros x (Hx & Hr & Hxs & Hxd). apply unclaimed_In; auto.
    apply filter_In. split; [assumption | now apply between_int]. }
  assert (Hout : forall x, In (int x) cands -> candidate x).
  { intros x Hx.
    assert (Hx' := Hx). unfold cands, unclaimed in Hx'.
    apply filter_In in Hx'. destruct Hx' as [Hx' _].
    assert (Hr : (40 <= x <= 200)%N) by now apply (bpNumbers_range t 40 200 x).
    apply filter_In in Hx'. destruct Hx' as [Hx' Hbt].
    destruct (unclaimed_distinct s d (int x) _ Hx) as [E1 E2].
    { now apply (between_truthy 40 200). }
    repeat split; try assumption; try lia;
      apply strictEq_false_neq; try assumption; discriminate. }
  assert (Hi : Forall isInt cands).
  { unfold cands, unclaimed. apply filter_Forall, bpNumbers_ints. }
  assert (Ef : pulseFallback t (s, d, p)
               = if (0 <? List.length cands)%nat
                 then (s, d, numAt (sortBy subSign cands) 0) else (s, d, p)).
  { unfold pulseFallback. now rewrite Hp. }
  destruct cands as [|c0 cs] eqn:Ec.
  - left. split; [intros x Hx; exact (Hin x Hx)|].
    assert (El : layoutStage t (cascades t) = (s, d, p)).
    { unfold layoutStage. now rewrite HL, Ecs, Eb, Ef. }
    apply extract_measurements in El. destruct El as (_ & _ & ->).
    unfold inRangeOrZero. now rewrite (falsy_not_between 40 200 p).
  - right.
    destruct (sortBy subSign (c0 :: cs)) as [|h rest] eqn:Es.
    { apply (f_equal (@List.length _)) in Es. rewrite sortBy_length in Es.
      discriminate. }
    destruct (sortBy_asc_head _ h rest Hi Es) as (q & -> & Hq & Hmin).
    exists q. split; [now apply Hout|].
    split; [intros x Hx; now apply Hmin, Hin|].
    assert (El : layoutStage t (cascades t) = (s, d, int q)).
    { unfold layoutStage. now rewrite HL, Ecs, Eb, Ef. }
    apply extract_measurements in El. destruct El as (_ & _ & ->).
    apply inRangeOrZero_keep, between_int.
    now destruct (Hout q Hq) as (_ & Hr & _).
Qed.

Lemma pulse_fallback_least_witness :
  let text := str "sys 120 dia 80 and 95 72 64 80" in
  let candidate (x : N) :=
    In (int x) (numbersOf (preprocessText text) reNum23')
    /\ (40 <= x <= 200)%N /\ int x <> int 120 /\ int x <> int 80 in
  ((forall x, ~ candidate x) /\ pulse (extractDataFromText text) = int 0)
  \/ (exists q, candidate q /\ (forall x, candidate x -> (q <= x)%N)
                /\ pulse (extractDataFromText text) = int q).
Proof.
  apply (pulse_fallback_least (str "sys 120 dia 80 and 95 72 64 80")
           (int 120) (int 80));
    vm_compute; reflexivity.
Defined.

(** * The time read from leftover numbers *)

Lemma upto_In (n : nat) (x : N) : (x < N.of_nat n)%N -> In x (upto n).
Proof.
  intros H. unfold upto. apply in_map_iff. exists (N.to_nat x).
  split; [apply N2Nat.id|]. apply in_seq. lia.
Qed.

(** Every pair of an hour below 24 and a minute below 60 prints as a
    valid clock time. *)
Lemma formatTime_valid (h m : N) :
  (h <= 23)%N -> (m <= 59)%N -> validClock (formatTime (int h) (int m)) = true.
Proof.
  intros Hh Hm.
  assert (K : forallb (fun h => forallb (fun m =>
                 validClock (formatTime (int h) (int m))) (upto 60)) (upto 24)
              = true) by (vm_compute; reflexivity).
  rewrite forallb_forall in K.
  specialize (K h (upto_In 24 h ltac:(lia))).
  rewrite forallb_forall in K.
  apply K, upto_In. lia.
Qed.

Lemma hourCandidates_ints (t : jsstring) :
  Forall (fun v => exists n, v = int n /\ (n <= 23)%N)
    (filter (fun n => geb n (int 0) && leb n (int 23)) (numbersOf t reNum12)).
Proof.
  apply Forall_forall. intros v Hv. apply filter_In in Hv.
  destruct Hv as [Hv Hb].
  pose proof (numbers12_int t) as Hi. rewrite Forall_forall in Hi.
  destruct (Hi v Hv) as [-> | [n ->]]; [discriminate|].
  exists n. split; [reflexivity|].
  change (between 0 23 (int n) = true) in Hb.
  apply between_spec in Hb. apply (proj1 (InRange_int 0 23 n)) in Hb. lia.
Qed.

(** The number-pair fallback prints the first two candidates, which always
    make a valid clock time, and leaves the time empty when there are
    fewer than two. *)
Lemma timeFromNumbers_pair (t : jsstring) :
  match filter (fun n => geb n (int 0) && leb n (int 23))
          (numbersOf t reNum12) with
  | hour :: minute :: _ =>
      timeFromNumbers t [] = formatTime hour minute
      /\ validClock (formatTime hour minute) = true
  | _ => timeFromNumbers t [] = []
  end.
Proof.
  unfold timeFromNumbers. cbn [nonEmpty].
  pose proof (hourCandidates_ints t) as Hc.
  destruct (filter _ (numbersOf t reNum12)) as [|a [|b rest]];
    try reflexivity.
  inversion Hc as [|? ? (h & -> & Hh) Hc']; subst.
  inversion Hc' as [|? ? (m & -> & Hm) _]; subst.
  split; [|apply formatTime_valid; lia].
  cbn [List.length Nat.leb pairLoop].
  assert (K : forall n, (n <= 23)%N ->
                geb (int n) (int 0) && leb (int n) (int 23) = true).
  { intros n Hn. change (between 0 23 (int n) = true).
    apply between_int. lia. }
  assert (K' : geb (int m) (int 0) && leb (int m) (int 59) = true).
  { change (between 0 59 (int m) = true). apply between_int. lia. }
  rewrite <- andb_assoc, (K h Hh), K'. reflexivity.
Qed.

Lemma record_time (text : jsstring) :
  let t := preprocessText text in
  time (extractDataFromText text)
  = timeFromNumbers t (timeFallback t (fst (timeLoop t patterns.time [] []))).
Proof.
  intros t. rewrite extract_fields. fold t.
  destruct (layoutStage t (cascades t)) as [[s di] pu].
  rewrite validate_fields. reflexivity.
Qed.

Lemma record_period (text : jsstring) :
  let t := preprocessText text in
  period (extractDataFromText text)
  = periodLoop t patterns.period (snd (timeLoop t patterns.time [] [])).
Proof.
  intros t. rewrite extract_fields. fold t.
  destruct (layoutStage t (cascades t)) as [[s di] pu].
  rewrite validate_fields. reflexivity.
Qed.

(** X8. When neither the time patterns nor the time-like fallback patterns
    produce a time, the time is read from the standalone one- or two-digit
    numbers of the text that are at most 23: the first of them is printed
    as the hour and the second as the minute, which is always a valid
    clock time "HH:MM"; with fewer than two such numbers the time is
    empty. *)
Theorem time_from_numbers (text : jsstring) :
  let t := preprocessText text in
  let r := extractDataFromText text in
  fst (timeLoop t patterns.time [] []) = [] ->
  timeFallback t [] = [] ->
  match filter (fun n => geb n (int 0) && leb n (int 23))
          (numbersOf t reNum12) with
  | hour :: minute :: _ =>
      time r = formatTime hour minute /\ validClock (time r) = true
  | _ => time r = []
  end.
Proof.
  intros t r H1 H2. subst r. rewrite record_time. fold t. rewrite H1, H2.
  pose proof (timeFromNumbers_pair t) as K.
  destruct (filter _ (numbersOf t reNum12)) as [|a [|b rest]]; try exact K.
  destruct K as [-> K]. now split.
Qed.

Lemma time_from_numbers_witness :
  time (extractDataFromText (str "7 21 9 30")) = str "07:21"
  /\ validClock (time (extractDataFromText (str "7 21 9 30"))) = true.
Proof.
  apply (time_from_numbers (str "7 21 9 30")); vm_compute; reflexivity.
Defined.

(** * The period *)

(** [reAmPm] is the first entry of the period table. *)
Lemma period_table_head :
  option_map re (hd_error patterns.period) = Some reAmPm.
Proof. reflexivity. Qed.

Lemma upper_of_lower (a x : char) :
  isLower a = true -> isCharI a x = true -> upperChar x = (a - 32)%N.
Proof.
  unfold isCharI, upperChar, lowerChar, isLower, isUpper.
  intros Ha H. apply N.eqb_eq in H.
  repeat match goal with
         | H : context [if ?b then _ else _] |- _ => destruct b eqn:?
         | |- context [if ?b then _ else _] => destruct b eqn:?
         end;
    rewrite ?andb_true_iff, ?andb_false_iff, ?N.leb_le, ?N.leb_gt in *; lia.
Qed.

(** What the first period pattern captures reads "AM" or "PM" in upper
    case. *)
Lemma amPm_capture (c : cursor) (m : found) :
  matchAt reAmPm c = Some m ->
  exists w, grp (toArray reAmPm m) 1 = Some w
            /\ (toUpperCase w = str "AM" \/ toUpperCase w = str "PM").
Proof.
  destruct c as [l rt]. unfold matchAt, reAmPm. cbn -[textBetween atBoundary].
  destruct (atBoundary (Cur l rt)); [|discriminate].
  destruct rt as [|x [|y rest]]; cbn -[textBetween atBoundary].
  - discriminate.
  - destruct (isCharI 97%N x), (isCharI 112%N x); discriminate.
  - assert (T : textBetween (Cur l (x :: y :: rest)) (Cur (y :: x :: l) rest)
                = [x; y]).
    { apply textBetween_steps. split; reflexivity. }
    rewrite T.
    assert (U : forall a b, isLower a = true -> isLower b = true ->
                  isCharI a x = true -> isCharI b y = true ->
                  toUpperCase [x; y] = [(a - 32)%N; (b - 32)%N]).
    { intros a b Ha Hb Hx Hy. cbn.
      now rewrite (upper_of_lower a x Ha Hx), (upper_of_lower b y Hb Hy). }
    destruct (isCharI 97%N x) eqn:Ea.
    + destruct (isCharI 109%N y) eqn:Em.
      * destruct (atBoundary (Cur (y :: x :: l) rest)).
        -- intros H. inversion H; subst. exists [x; y].
           split; [reflexivity|]. left.
           now rewrite (U 97%N 109%N).
        -- destruct (isCharI 112%N x) eqn:Ep; [|discriminate].
           cbn. discriminate.
      * destruct (isCharI 112%N x); cbn; discriminate.
    + destruct (isCharI 112%N x) eqn:Ep; [|discriminate].
      destruct (isCharI 109%N y) eqn:Em; [|discriminate].
      destruct (atBoundary (Cur (y :: x :: l) rest)); [|discriminate].
      intros H. inversion H; subst. exists [x; y].
      split; [reflexivity|]. right.
      now rewrite (U 112%N 109%N).
Qed.

(** X9. A standalone "am" or "pm" decides the period: when the normalized
    text matches [/\b(am|pm)\b/i], the period of the record is "AM" or
    "PM", whatever the time patterns captured before. *)
Theorem period_am_pm (text : jsstring) :
  exec reAmPm (preprocessText text) <> None ->
  period (extractDataFromText text) = str "AM"
  \/ period (extractDataFromText text) = str "PM".
Proof.
  intros H. rewrite record_period.
  set (t := preprocessText text) in *.
  set (p0 := snd (timeLoop t patterns.time [] [])).
  change (periodLoop t patterns.period p0)
    with (match exec reAmPm t with
          | Some m => orEmpty (option_map toUpperCase (grp m 1))
          | None => periodLoop t (tl patterns.period) p0
          end).
  unfold exec in *.
  destruct (search reAmPm [] t) as [m|] eqn:Es; [|now elim H].
  cbn [option_map].
  destruct (search_matchAt _ _ _ _ Es) as [c Hc].
  destruct (amPm_capture c m Hc) as (w & -> & Hw).
  exact Hw.
Qed.

Lemma period_am_pm_witness :
  period (extractDataFromText (str "taken 9:15 Pm today")) = str "AM"
  \/ period (extractDataFromText (str "taken 9:15 Pm today")) = str "PM".
Proof.
  apply (period_am_pm (str "taken 9:15 Pm today")).
  vm_compute. discriminate.
Defined.

(** * Text without digits *)

Section Needs.

Variable q : char -> bool.

Lemma lacks_app_r (a b : jsstring) : lacks q (a ++ b) -> lacks q b.
Proof. unfold lacks. rewrite Forall_app. tauto. Qed.

Lemma lacks_tail (x : char) (s : jsstring) : lacks q (x :: s) -> lacks q s.
Proof. intros H. now inversion H. Qed.

Lemma run_needs (A : Type) (r : regex) :
  needs q r ->
  forall (c : cursor) (cs : captures) (k : cursor -> captures -> option A),
    lacks q (after c) -> run r c cs k = None.
Proof.
  induction r as [|p|r1 IH1 r2 IH2|r1 IH1 r2 IH2|lo hi p|i r1 IH1|];
    simpl; intros Hn c cs k Hl; try contradiction.
  - destruct (after c) as [|x xs]; [reflexivity|].
    destruct (p x) eqn:E; [|reflexivity].
    apply Hn in E. inversion Hl; subst. congruence.
  - destruct Hn as [Hn | Hn]; [now apply IH1|].
    destruct (run r1 c cs _) as [a|] eqn:E; [|reflexivity].
    apply (run_steps A (fun _ => True) r1 (fun _ => True)
             (consumes_True r1) (captureOnly_True r1)) in E.
    destruct E as (w & c' & cs' & [S1 S2] & _ & _ & _ & _ & Hk).
    rewrite IH2 in Hk; [discriminate | assumption|].
    rewrite S1 in Hl. now apply lacks_app_r in Hl.
  - destruct Hn as [Hn1 Hn2]. now rewrite IH1, IH2.
  - destruct Hn as [Hlo Hp]. destruct lo as [|lo]; [lia|].
    destruct (after c) as [|x xs]; simpl.
    + destruct hi as [[|h]|]; reflexivity.
    + destruct (p x) eqn:E.
      * apply Hp in E. inversion Hl; subst. congruence.
      * destruct hi as [[|h]|]; reflexivity.
  - now apply IH1.
Qed.

Lemma matchAt_needs (r : regex) (c : cursor) :
  needs q r -> lacks q (after c) -> matchAt r c = None.
Proof. intros Hn Hl. unfold matchAt. now apply run_needs. Qed.

Lemma search_needs (r : regex) :
  needs q r -> forall rt l, lacks q rt -> search r l rt = None.
Proof.
  intros Hn. induction rt as [|x rt IH]; intros l Hl; simpl.
  - now rewrite matchAt_needs.
  - rewrite matchAt_needs by assumption. apply IH. now apply lacks_tail in Hl.
Qed.

Lemma exec_needs (r : regex) (s : jsstring) :
  needs q r -> lacks q s -> exec r s = None.
Proof. intros Hn Hl. unfold exec. now rewrite search_needs. Qed.

Lemma scan_needs (r : regex) :
  needs q r -> forall rt skip l, lacks q rt -> scan r skip l rt = [].
Proof.
  intros Hn. induction rt as [|x rt IH]; intros skip l Hl.
  - destruct skip; [|reflexivity]. cbn [scan]. now rewrite matchAt_needs.
  - destruct skip; cbn [scan].
    + rewrite matchAt_needs by assumption. apply IH. now apply lacks_tail in Hl.
    + apply IH. now apply lacks_tail in Hl.
Qed.

Lemma matchG_needs (r : regex) (s : jsstring) :
  needs q r -> lacks q s -> matchG r s = None.
Proof. intros Hn Hl. unfold matchG. now rewrite scan_needs. Qed.

Lemma matchGOr_needs (r : regex) (s : jsstring) :
  needs q r -> lacks q s -> matchGOr r s = [].
Proof. intros Hn Hl. unfold matchGOr. now rewrite matchG_needs. Qed.

Lemma matchAll_needs (r : regex) (s : jsstring) :
  needs q r -> lacks q s -> matchAll r s = [].
Proof. intros Hn Hl. unfold matchAll. now rewrite scan_needs. Qed.

Lemma lacks_substring (s : jsstring) (a b : Z) :
  lacks q s -> lacks q (substring s a b).
Proof.
  intros H. unfold substring, lacks in *.
  set (lo := Nat.min _ _). set (n := (_ - _)%nat).
  assert (H1 : Forall (fun x => q x = false) (skipn lo s)).
  { rewrite <- (firstn_skipn lo s) in H. now apply Forall_app in H. }
  rewrite <- (firstn_skipn n (skipn lo s)) in H1.
  now apply Forall_app in H1.
Qed.

Lemma startsWith_lacks (s p : jsstring) (x : char) :
  lacks q s -> In x p -> q x = true -> startsWith s p = false.
Proof.
  revert s. induction p as [|y p IH]; intros s Hl Hin Hq; [destruct Hin|].
  destruct s as [|z s]; [reflexivity|]. simpl.
  inversion Hl as [|? ? Hz Hs]; subst.
  destruct (N.eqb_spec z y) as [->|]; [|reflexivity]. simpl.
  destruct Hin as [-> | Hin]; [congruence|].
  now apply IH.
Qed.

(** A text cannot include a text with a character it lacks. *)
Lemma includes_lacks (s p : jsstring) (x : char) :
  lacks q s -> In x p -> q x = true -> includes s p = false.
Proof.
  intros Hl Hin Hq. induction s as [|z s IH]; cbn [includes].
  - rewrite (startsWith_lacks [] p x); auto.
  - rewrite (startsWith_lacks (z :: s) p x); auto. cbn [orb].
    apply IH. now apply lacks_tail in Hl.
Qed.

End Needs.

(** ** Patterns that need a digit *)

Ltac digit_leaf :=
  first [ exact (fun x H => H)
        | split; [lia | exact (fun x H => H)] ].

Ltac find_digit :=
  first [ digit_leaf | left; find_digit | right; find_digit ].

Ltac all_need_digit :=
  repeat (apply Forall_cons; [simpl; find_digit|]); apply Forall_nil.

Lemma table_needsDigit :
  Forall (fun p => needsDigit (re p))
    (patterns.day ++ patterns.time ++ patterns.systolic
       ++ patterns.diastolic ++ patterns.pulse).
Proof. unfold needsDigit. all_need_digit. Qed.

Lemma month_needsDigit :
  Forall (fun p => needsDigit (re p)
                   \/ includes (str (source p)) (str "cm|7m|mid") = true)
    patterns.month.
Proof.
  unfold needsDigit.
  repeat (apply Forall_cons;
          [first [ left; simpl; find_digit | right; vm_compute; reflexivity ]|]).
  apply Forall_nil.
Qed.

Lemma inline_needsDigit :
  Forall needsDigit
    (combinedDatePatterns ++ dateLikePatterns ++ combinedPatterns
       ++ timeLikePatterns ++ sysPatterns ++ diaPatterns
       ++ [reDateToken; monthDayPattern; percentagePattern; reClock;
           reNum12; reNum23; reNum23'; reNum3; reNum2]).
Proof. unfold needsDigit. all_need_digit. Qed.

Lemma needsDigit_table (ps : list pattern) :
  incl ps (patterns.day ++ patterns.time ++ patterns.systolic
             ++ patterns.diastolic ++ patterns.pulse) ->
  Forall (fun p => needsDigit (re p)) ps.
Proof.
  intros H. apply Forall_forall. intros p Hp.
  pose proof table_needsDigit as K. rewrite Forall_forall in K.
  now apply K, H.
Qed.

Lemma needsDigit_inline (r : regex) :
  In r (combinedDatePatterns ++ dateLikePatterns ++ combinedPatterns
          ++ timeLikePatterns ++ sysPatterns ++ diaPatterns
          ++ [reDateToken; monthDayPattern; percentagePattern; reClock;
              reNum12; reNum23; reNum23'; reNum3; reNum2]) ->
  needsDigit r.
Proof.
  pose proof inline_needsDigit as K. rewrite Forall_forall in K. apply K.
Qed.

Lemma needsDigit_sub (l : list regex) :
  incl l (combinedDatePatterns ++ dateLikePatterns ++ combinedPatterns
            ++ timeLikePatterns ++ sysPatterns ++ diaPatterns
            ++ [reDateToken; monthDayPattern; percentagePattern; reClock;
                reNum12; reNum23; reNum23'; reNum3; reNum2]) ->
  Forall needsDigit l.
Proof.
  intros H. apply Forall_forall. intros r Hr. now apply needsDigit_inline, H.
Qed.

(** ** The stages on a text without digits *)

Ltac in_inline := simpl; tauto.

Section NoDigits.

Variable t : jsstring.
Hypothesis Ht : lacks isDigit t.

Lemma exec_nodigit (r : regex) : needsDigit r -> exec r t = None.
Proof. intros H. now apply (exec_needs isDigit). Qed.

Lemma matchG_nodigit (r : regex) : needsDigit r -> matchG r t = None.
Proof. intros H. now apply (matchG_needs isDigit). Qed.

Lemma numbersOf_nodigit (r : regex) : needsDigit r -> numbersOf t r = [].
Proof.
  intros H. unfold numbersOf. now rewrite (matchGOr_needs isDigit).
Qed.

Lemma timeValues_nodigit : timeValues t = [].
Proof.
  unfold timeValues. rewrite (matchGOr_needs isDigit); auto.
  apply needsDigit_inline. in_inline.
Qed.

Lemma nearby_nodigit (digits : regex) (label : string) (len width : Z) :
  needsDigit digits -> nearby t digits label len width = [].
Proof.
  intros H. unfold nearby.
  rewrite !(matchAll_needs isDigit); auto using lacks_substring.
Qed.

Lemma includes_nodigit (p : string) (x : char) :
  In x (str p) -> isDigit x = true -> includes t (str p) = false.
Proof. intros Hin Hx. now apply (includes_lacks isDigit t (str p) x). Qed.

Lemma monthLoop_nodigit (ps : list pattern) :
  Forall (fun p => needsDigit (re p)
                   \/ includes (str (source p)) (str "cm|7m|mid") = true) ps ->
  forall month, monthLoop t ps month = month \/ monthLoop t ps month = int 7.
Proof.
  induction 1 as [|p ps [Hp | Hp] _ IH]; intros month; simpl; [now left| |].
  - rewrite (exec_nodigit _ Hp). apply IH.
  - destruct (exec (re p) t); [|apply IH]. rewrite Hp. now right.
Qed.

Lemma dayLoop_nodigit (ps : list pattern) :
  Forall (fun p => needsDigit (re p)) ps ->
  forall day, dayLoop t ps day = day.
Proof.
  induction 1 as [|p ps Hp _ IH]; intros day; simpl; [reflexivity|].
  rewrite (exec_nodigit _ Hp). apply IH.
Qed.

Lemma cascade_nodigit (lo hi : N) (ps : list regex) :
  Forall needsDigit ps -> forall cur, cascade t lo hi ps cur = cur.
Proof.
  induction 1 as [|p ps Hp _ IH]; intros cur; simpl; [reflexivity|].
  rewrite (exec_nodigit _ Hp). apply IH.
Qed.

Lemma timeLoop_nodigit (ps : list pattern) :
  Forall (fun p => needsDigit (re p)) ps ->
  forall time period, timeLoop t ps time period = (time, period).
Proof.
  induction 1 as [|p ps Hp _ IH]; intros time period; simpl; [reflexivity|].
  rewrite (exec_nodigit _ Hp). apply IH.
Qed.

Lemma timeLikeLoop_nodigit (ps : list regex) :
  Forall needsDigit ps -> forall time, timeLikeLoop t ps time = time.
Proof.
  induction 1 as [|p ps Hp _ IH]; intros time; simpl; [reflexivity|].
  rewrite (matchG_nodigit _ Hp). apply IH.
Qed.

Lemma datePass1_nodigit md : datePass1 t md = md.
Proof.
  unfold datePass1. rewrite matchG_nodigit; [reflexivity|].
  apply needsDigit_inline. in_inline.
Qed.

Lemma datePass2Loop_nodigit (ps : list regex) :
  Forall needsDigit ps ->
  forall month day, datePass2Loop t ps month day = (month, day).
Proof.
  induction 1 as [|p ps Hp _ IH]; intros month day; simpl; [reflexivity|].
  rewrite (matchG_nodigit _ Hp). apply IH.
Qed.

Lemma datePass4Loop_nodigit (ps : list regex) :
  Forall needsDigit ps ->
  forall month day, datePass4Loop t ps month day = (month, day).
Proof.
  induction 1 as [|p ps Hp _ IH]; intros month day; simpl; [reflexivity|].
  rewrite (matchG_nodigit _ Hp). apply IH.
Qed.

Lemma combinedLoop_nodigit (ps : list regex) :
  Forall needsDigit ps ->
  forall month day, combinedLoop t ps month day = (month, day).
Proof.
  induction 1 as [|p ps Hp _ IH]; intros month day; simpl; [reflexivity|].
  rewrite (exec_nodigit _ Hp). apply IH.
Qed.

Lemma datePass2_nodigit md : datePass2 t md = md.
Proof.
  destruct md as [month day]. unfold datePass2.
  rewrite datePass2Loop_nodigit; [now destruct (_ || _)|].
  apply needsDigit_sub. intros r Hr. now apply In_app_l.
Qed.

Lemma datePass4_nodigit md : datePass4 t md = md.
Proof.
  destruct md as [month day]. unfold datePass4.
  rewrite datePass4Loop_nodigit; [now destruct (_ || _)|].
  apply needsDigit_sub. intros r Hr. now apply In_app_r, In_app_l.
Qed.

Lemma dateFromNumbers_nodigit excluded md : dateFromNumbers t excluded md = md.
Proof.
  destruct md as [month day]. unfold dateFromNumbers.
  rewrite numbersOf_nodigit by (apply needsDigit_inline; in_inline).
  cbn. now destruct (_ || _).
Qed.

Lemma monthDayProximity_nodigit md : monthDayProximity t md = md.
Proof.
  destruct md as [month day]. unfold monthDayProximity.
  rewrite exec_nodigit by (apply needsDigit_inline; in_inline).
  now destruct (_ || _).
Qed.

Lemma ocrDateLoop_nodigit (month day : number) :
  zeroOrSeven month -> zeroOrSeven day ->
  zeroOrSeven (fst (ocrDateLoop t (month, day)))
  /\ zeroOrSeven (snd (ocrDateLoop t (month, day))).
Proof.
  intros Hm Hd. unfold ocrDateLoop, ocrDateCorrections.
  cbn [fold_left].
  rewrite (includes_nodigit "c1" 49%N), (includes_nodigit "c9" 57%N),
    (includes_nodigit "1d" 49%N), (includes_nodigit "9d" 57%N),
    (includes_nodigit "13d" 49%N);
    try (vm_compute; tauto); try reflexivity.
  generalize (includes t (str "cm")), (includes t (str "mid")).
  intros b1 b2. unfold zeroOrSeven in *.
  destruct Hm as [-> | ->], Hd as [-> | ->], b1, b2; vm_compute; tauto.
Qed.

Lemma misreadLoop_nodigit (month : number) :
  zeroOrSeven month -> zeroOrSeven (misreadLoop t monthMisreads month).
Proof.
  intros Hm. unfold monthMisreads. cbn [misreadLoop].
  rewrite (includes_nodigit "t1" 49%N), (includes_nodigit "t2" 50%N);
    try (vm_compute; tauto); try reflexivity.
  destruct (includes t (str "tm")); [right; reflexivity | exact Hm].
Qed.

Lemma monthFrom4d_nodigit (month : number) : monthFrom4d t month = month.
Proof.
  unfold monthFrom4d.
  rewrite (includes_nodigit "4d" 52%N); try (vm_compute; tauto); try reflexivity.
  now rewrite andb_false_r.
Qed.

Lemma datePass5_nodigit (month day : number) :
  zeroOrSeven month -> zeroOrSeven day ->
  zeroOrSeven (fst (datePass5 t (month, day)))
  /\ zeroOrSeven (snd (datePass5 t (month, day))).
Proof.
  intros Hm Hd. unfold datePass5.
  destruct (falsy month); [|now split].
  rewrite monthFrom4d_nodigit.
  pose proof (misreadLoop_nodigit month Hm) as Hm'.
  set (m' := misreadLoop t monthMisreads month) in *.
  rewrite combinedLoop_nodigit
    by (apply needsDigit_sub; intros r Hr;
        now apply In_app_r, In_app_r, In_app_l).
  assert (E : (if falsy m' && falsy day then (m', day) else (m', day))
              = (m', day)) by now destruct (_ && _).
  rewrite E, monthDayProximity_nodigit.
  now apply ocrDateLoop_nodigit.
Qed.

Lemma dateRecovery_nodigit (s d p month day : number) :
  zeroOrSeven month -> zeroOrSeven day ->
  zeroOrSeven (fst (dateRecovery t s d p (month, day)))
  /\ zeroOrSeven (snd (dateRecovery t s d p (month, day))).
Proof.
  intros Hm Hd. unfold dateRecovery.
  destruct (_ || _); [|now split].
  unfold datePass6, datePass3.
  rewrite datePass1_nodigit, datePass2_nodigit, dateFromNumbers_nodigit,
    datePass4_nodigit, dateFromNumbers_nodigit.
  now apply datePass5_nodigit.
Qed.

Lemma timeFallback_nodigit : timeFallback t [] = [].
Proof.
  unfold timeFallback. cbn [nonEmpty]. apply timeLikeLoop_nodigit.
  apply needsDigit_sub. intros r Hr.
  now apply In_app_r, In_app_r, In_app_r, In_app_l.
Qed.

Lemma timeFromNumbers_nodigit : timeFromNumbers t [] = [].
Proof.
  unfold timeFromNumbers. cbn [nonEmpty].
  now rewrite numbersOf_nodigit by (apply needsDigit_inline; in_inline).
Qed.

Lemma sysCorrection_nodigit (s : number) : sysCorrection t s = s.
Proof.
  unfold sysCorrection.
  rewrite cascade_nodigit
    by (apply needsDigit_sub; intros r Hr;
        now apply In_app_r, In_app_r, In_app_r, In_app_r, In_app_l).
  rewrite nearby_nodigit by (apply needsDigit_inline; in_inline).
  rewrite !numbersOf_nodigit by (apply needsDigit_inline; in_inline).
  cbn. destruct (needsCorrection 100 s); [|reflexivity].
  destruct (includes t _); reflexivity.
Qed.

Lemma diaCorrection_nodigit (d : number) : diaCorrection t d = d.
Proof.
  unfold diaCorrection.
  rewrite cascade_nodigit
    by (apply needsDigit_sub; intros r Hr;
        now apply In_app_r, In_app_r, In_app_r, In_app_r, In_app_r, In_app_l).
  rewrite nearby_nodigit by (apply needsDigit_inline; in_inline).
  rewrite exec_nodigit by (apply needsDigit_inline; in_inline).
  cbn. destruct (needsCorrection 40 d); [|reflexivity].
  destruct (includes t _); reflexivity.
Qed.

Lemma cascades_nodigit :
  cascades t
  = (int 0, int 0, if includes t (str "coc") then int 71 else int 0).
Proof.
  unfold cascades, sysLoop, diaLoop, pulseLoop.
  rewrite !cascade_nodigit;
    try (apply Forall_map, needsDigit_table; intros p Hp).
  - rewrite sysCorrection_nodigit, diaCorrection_nodigit, cocCorrection_table.
    reflexivity.
  - now apply In_app_r, In_app_r, In_app_r, In_app_r.
  - now apply In_app_r, In_app_r, In_app_r, In_app_l.
  - now apply In_app_r, In_app_r, In_app_l.
Qed.

Lemma layoutStage_nodigit (r : reading) : layoutStage t r = r.
Proof.
  destruct r as [[s d] p].
  unfold layoutStage, lcdOverride, bpFallback, pulseFallback, standaloneNumbers,
    unclaimed.
  rewrite !numbersOf_nodigit by (apply needsDigit_inline; in_inline).
  cbn. destruct (hasAllLabels t); [reflexivity|].
  destruct (falsy s || falsy d), (falsy p); reflexivity.
Qed.

End NoDigits.

(** X10. From a normalized text without any digit the extractor reads no
    measurement and no time: sys and dia are 0, the time is empty, and the
    pulse is 0 unless the text contains "coc", which the misread table
    turns into 71.  Day and month are 0 or the 7 of the misread tables. *)
Theorem no_digits_no_reading (text : jsstring) :
  let t := preprocessText text in
  Forall (fun x => isDigit x = false) t ->
  let r := extractDataFromText text in
  sys r = int 0 /\ dia r = int 0
  /\ pulse r = (if includes t (str "coc") then int 71 else int 0)
  /\ time r = []
  /\ (day r = int 0 \/ day r = int 7)
  /\ (month r = int 0 \/ month r = int 7).
Proof.
  intros t Ht r. subst r. fold (lacks isDigit t) in Ht.
  rewrite extract_fields. fold t.
  rewrite (timeLoop_nodigit t Ht)
    by (apply needsDigit_table; intros p Hp; now apply In_app_r, In_app_l).
  cbn [fst snd].
  rewrite (timeFallback_nodigit t Ht), (timeFromNumbers_nodigit t Ht).
  rewrite (layoutStage_nodigit t Ht), (cascades_nodigit t Ht).
  rewrite (dayLoop_nodigit t Ht)
    by (apply needsDigit_table; intros p Hp; now apply In_app_l).
  assert (Hm : zeroOrSeven (monthLoop t patterns.month (int 0))).
  { destruct (monthLoop_nodigit t Ht _ month_needsDigit (int 0)) as [-> | ->];
      [now left | now right]. }
  destruct (dateRecovery_nodigit t Ht (int 0) (int 0) (int 0) _ (int 0) Hm
              (or_introl eq_refl)) as [Hmo Hd].
  destruct (dateRecovery t (int 0) (int 0) (int 0) _) as [mo d].
  rewrite validate_fields. cbn [sys dia pulse time day month fst snd] in *.
  repeat split.
  - destruct (includes t (str "coc")); reflexivity.
  - destruct Hd as [-> | ->]; [now left | now right].
  - destruct Hmo as [-> | ->]; [now left | now right].
Qed.

Lemma no_digits_no_reading_witness :
  let r := extractDataFromText (str "acme humid COC, no reading!") in
  sys r = int 0 /\ dia r = int 0
  /\ pulse r = int 71
  /\ time r = []
  /\ (day r = int 0 \/ day r = int 7)
  /\ (month r = int 0 \/ month r = int 7).
Proof.
  apply (no_digits_no_reading (str "acme humid COC, no reading!")).
  vm_compute. repeat constructor.
Defined.

(** * The normalized text *)

Lemma lower_normal (x : char) : allowed x -> normalChar (lowerChar x) = true.
Proof.
  unfold allowed, allowedChar, normalChar, oneOf, isWordChar, lowerChar,
    isLower, isUpper, isDigit.
  cbn [existsb str List.map list_ascii_of_string N_of_ascii N_of_digits].
  intros H.
  repeat match goal with
         | |- context [if ?b then _ else _] => destruct b eqn:?
         end;
    repeat rewrite ?orb_true_iff, ?andb_true_iff, ?andb_false_iff,
      ?N.leb_le, ?N.leb_gt, ?N.eqb_eq in *; lia.
Qed.

(** X11. The normalized text is written in a small alphabet: every
    character is a lower-case letter, a digit, an underscore, a plain
    space, or one of [/ - : .].  Upper-case letters, punctuation, tabs,
    line breaks and all non-ASCII characters are gone. *)
Theorem preprocessText_charset (s : jsstring) :
  Forall (fun c => normalChar c = true) (preprocessText s).
Proof.
  unfold preprocessText, toLowerCase.
  apply Forall_map.
  pose proof (preprocessText_alphabet s) as H.
  revert H. apply Forall_impl. apply lower_normal.
Qed.

(** ** Tokens that do not survive normalization *)

Lemma settled_rule (w : jsstring) (r : regex) :
  settled w -> In r labelRules -> matchAt r (Cur [] w) = None.
Proof.
  unfold settled, noMatch. rewrite Forall_forall. auto.
Qed.

Lemma digit_is_word (x : char) : isDigit x = true -> isWordChar x = true.
Proof. unfold isWordChar. now intros ->. Qed.

(** A label glued to two or three digits is matched by its rule. *)
Lemma glued_matches (lbl : string) (r : regex) (ds : jsstring) :
  (lbl = "sys" /\ r = reSysNum) \/ (lbl = "dia" /\ r = reDiaNum)
  \/ (lbl = "s" /\ r = reSNum) \/ (lbl = "d" /\ r = reDNum) ->
  Forall (fun x => isDigit x = true) ds ->
  (2 <= List.length ds <= 3)%nat ->
  matchAt r (Cur [] (str lbl ++ ds)) <> None.
Proof.
  intros Hin Hd Hlen.
  destruct ds as [|a [|b [|c [|e ds]]]]; simpl in Hlen; try lia.
  - inversion Hd as [|? ? Ha Hd1]; subst. inversion Hd1 as [|? ? Hb _]; subst.
    pose proof (digit_is_word _ Ha) as Wa. pose proof (digit_is_word _ Hb) as Wb.
    destruct Hin as [[-> ->] | [[-> ->] | [[-> ->] | [-> ->]]]];
      unfold matchAt;
      repeat (cbn -[textBetween isWordChar isDigit];
              unfold digit, atBoundary;
              progress rewrite ?Ha, ?Hb, ?Wa, ?Wb);
      cbn -[textBetween]; discriminate.
  - inversion Hd as [|? ? Ha Hd1]; subst. inversion Hd1 as [|? ? Hb Hd2]; subst.
    inversion Hd2 as [|? ? Hc _]; subst.
    pose proof (digit_is_word _ Ha) as Wa. pose proof (digit_is_word _ Hb) as Wb.
    pose proof (digit_is_word _ Hc) as Wc.
    destruct Hin as [[-> ->] | [[-> ->] | [[-> ->] | [-> ->]]]];
      unfold matchAt;
      repeat (cbn -[textBetween isWordChar isDigit];
              unfold digit, atBoundary;
              progress rewrite ?Ha, ?Hb, ?Hc, ?Wa, ?Wb, ?Wc);
      cbn -[textBetween]; discriminate.
Qed.

(** X12. The misreads the normalizer repairs do not survive it: no token of
    the normalized text (a maximal run of letters, digits and
    underscores) is "cm", "c1", "c9", "mid" or "minig", and none is "sys",
    "dia", "s" or "d" directly followed by two or three digits. *)
Theorem normalized_tokens_clean (s w : jsstring) :
  In w (tokens (preprocessText s)) ->
  ~ In w [str "cm"; str "c1"; str "c9"; str "mid"; str "minig"]
  /\ forall lbl ds,
       In lbl ["sys"; "dia"; "s"; "d"] ->
       Forall (fun x => isDigit x = true) ds ->
       (2 <= List.length ds <= 3)%nat ->
       w <> str lbl ++ ds.
Proof.
  intros Hw. apply normalized_settled in Hw. split.
  - intros Hin.
    assert (K : forall r, In r labelRules -> matchAt r (Cur [] w) = None)
      by (intros r; now apply settled_rule).
    simpl in Hin.
    destruct Hin as [<- | [<- | [<- | [<- | [<- | []]]]]];
      [ assert (E : matchAt reCm (Cur [] (str "cm")) = None)
      | assert (E : matchAt reC1 (Cur [] (str "c1")) = None)
      | assert (E : matchAt reC9 (Cur [] (str "c9")) = None)
      | assert (E : matchAt reMid (Cur [] (str "mid")) = None)
      | assert (E : matchAt reMinig (Cur [] (str "minig")) = None) ];
      try (apply K; simpl; tauto);
      vm_compute in E; discriminate.
  - intros lbl ds Hl Hd Hlen ->.
    simpl in Hl.
    destruct Hl as [<- | [<- | [<- | [<- | []]]]].
    + apply (glued_matches "sys" reSysNum ds); [tauto | assumption..|].
      apply settled_rule; [assumption | simpl; tauto].
    + apply (glued_matches "dia" reDiaNum ds); [tauto | assumption..|].
      apply settled_rule; [assumption | simpl; tauto].
    + apply (glued_matches "s" reSNum ds); [tauto | assumption..|].
      apply settled_rule; [assumption | simpl; tauto].
    + apply (glued_matches "d" reDNum ds); [tauto | assumption..|].
      apply settled_rule; [assumption | simpl; tauto].
Qed.

Lemma normalized_tokens_clean_witness :
  ~ In (str "7m") [str "cm"; str "c1"; str "c9"; str "mid"; str "minig"]
  /\ forall lbl ds,
       In lbl ["sys"; "dia"; "s"; "d"] ->
       Forall (fun x => isDigit x = true) ds ->
       (2 <= List.length ds <= 3)%nat ->
       str "7m" <> str lbl ++ ds.
Proof.
  apply (normalized_tokens_clean (str "Cm SYS120 mid") (str "7m")).
  vm_compute. tauto.
Defined.

(** * What a scan for numbers finds *)

Section ScanTokens.

Variable r : regex.
Hypothesis Hrule : tokenRule r.

Lemma scan_skip n : forall a l b,
  List.length a = n -> scan r n l (a ++ b) = scan r 0 (rev a ++ l) b.
Proof.
  induction n as [|n IH]; intros a l b Ha.
  - destruct a; [reflexivity | discriminate].
  - destruct a as [|x a]; [discriminate|]. simpl in Ha.
    cbn [app scan]. rewrite IH by lia. simpl. now rewrite <- app_assoc.
Qed.

Lemma scan_inside w : Forall isWord w ->
  forall l rest, wordAt l = true ->
    scan r 0 l (w ++ rest) = scan r 0 (rev w ++ l) rest.
Proof.
  induction 1 as [|x w Hx _ IH]; intros l rest Hl; [reflexivity|].
  cbn [app scan]. rewrite (matchAt_inside r Hrule _ _ Hl).
  rewrite IH by (simpl; exact Hx).
  simpl. now rewrite <- app_assoc.
Qed.

Lemma scan_tokens_aux n : forall rt l,
  (List.length rt <= n)%nat -> wordAt l = false ->
  List.map mtext (scan r 0 l rt) = filter (accepts r) (tokens rt).
Proof.
  induction n as [|n IH]; intros rt l Hn Hl.
  - destruct rt; [|simpl in Hn; lia]. cbn [scan].
    now rewrite (matchAt_nonword r Hrule).
  - assert (Hafter : forall l' rest,
              (List.length rest <= S n)%nat -> wordAt rest = false ->
              List.map mtext (scan r 0 l' rest) = filter (accepts r) (tokens rest)).
    { intros l' [|y rest'] Hlen Hr.
      - cbn [scan]. now rewrite (matchAt_nonword r Hrule).
      - cbn [scan]. rewrite (matchAt_nonword r Hrule _ _ Hr).
        simpl in Hr. rewrite (tokens_sep _ _ Hr).
        apply IH; [simpl in Hlen; lia | exact Hr]. }
    destruct (word_prefix rt) as (w & rest & -> & Hw & Hr).
    destruct w as [|x w]; [now apply Hafter|].
    assert (Hlen : (List.length rest <= S n)%nat)
      by (rewrite length_app in Hn; simpl in Hn; lia).
    rewrite (tokens_token (x :: w) rest Hw); [|discriminate|exact Hr].
    cbn [filter].
    pose proof (tokenRule_framed r Hrule l (x :: w) rest Hl Hr) as Hf.
    unfold accepts at 1.
    change ((x :: w) ++ rest) with (x :: (w ++ rest)) in *.
    cbn [scan].
    inversion Hf as [E1 E2 | m1 m2 Hm E1 E2].
    + inversion Hw; subst.
      rewrite scan_inside by (auto; simpl; assumption).
      now apply Hafter.
    + symmetry in E2.
      destruct (tokenRule_match r Hrule _ _ _ E2)
        as (_ & w2 & rest2 & E & Hne & Hw2 & Hr2 & Em).
      destruct (word_prefix_unique (x :: w) rest w2 rest2 E Hw Hr Hw2 Hr2)
        as [<- <-].
      assert (Ht : mtext m2 = x :: w).
      { rewrite Em. unfold mtext. simpl.
        apply (textBetween_steps (Cur l (x :: w ++ rest)) (x :: w)).
        split; simpl; [reflexivity|]. now rewrite <- app_assoc. }
      unfold mlen. rewrite Ht. cbn [List.map List.length Nat.pred].
      rewrite Ht. f_equal.
      rewrite (scan_skip (List.length w) w (x :: l) rest eq_refl).
      now apply Hafter.
Qed.

(** The texts a token rule matches in a scan are the tokens it accepts,
    in text order. *)
Lemma matchGOr_tokens (s : jsstring) :
  matchGOr r s = filter (accepts r) (tokens s).
Proof.
  unfold matchGOr, matchG.
  rewrite <- (scan_tokens_aux (List.length s) s []); auto.
  now destruct (scan r 0 [] s).
Qed.

End ScanTokens.

(** ** Number rules *)

Lemma rep_steps_hi (A : Type) (p : char -> bool) (k : cursor -> option A) (a : A) :
  forall r lo hi l,
    rep p lo (Some hi) l r k = Some a ->
    exists w c', steps (Cur l r) w c' /\ forallb p w = true
                 /\ (lo <= List.length w <= hi)%nat /\ k c' = Some a.
Proof.
  assert (Stop : forall lo hi l r,
            match lo with O => k (Cur l r) | S _ => None end = Some a ->
            exists w c', steps (Cur l r) w c' /\ forallb p w = true
                         /\ (lo <= List.length w <= hi)%nat /\ k c' = Some a).
  { intros lo hi l r H. destruct lo; [|discriminate].
    exists [], (Cur l r). repeat split; auto using steps_refl; simpl; lia. }
  induction r as [|x r IH]; intros lo hi l H; simpl in H.
  - destruct hi; now apply Stop.
  - destruct hi as [|h]; [now apply Stop|].
    destruct (p x) eqn:Ex; [|now apply Stop].
    cbn [option_map Nat.pred] in H.
    destruct (rep p (Nat.pred lo) (Some h) (x :: l) r k) as [a'|] eqn:E;
      [|now apply Stop].
    inversion H; subst a'.
    apply IH in E. destruct E as (w & c' & [S1 S2] & Hp & Hlen & Hk).
    exists (x :: w), c'. simpl in S1, S2. repeat split.
    + simpl. now rewrite S1.
    + simpl. now rewrite S2, <- app_assoc.
    + simpl. now rewrite Ex.
    + simpl. lia.
    + simpl. lia.
    + exact Hk.
Qed.

Lemma rep_complete (A : Type) (p : char -> bool) (k : cursor -> option A) :
  forall w lo hi l rest,
    forallb p w = true -> (lo <= List.length w <= hi)%nat ->
    k (Cur (rev w ++ l) rest) <> None ->
    rep p lo (Some hi) l (w ++ rest) k <> None.
Proof.
  assert (Stop : forall l r' (o : option A),
            k (Cur l r') <> None ->
            match o with Some a => Some a | None => k (Cur l r') end <> None).
  { intros l r' [a|] H; [discriminate | exact H]. }
  induction w as [|x w IH]; intros lo hi l rest Hp Hlen Hk.
  - simpl in Hlen. assert (lo = 0%nat) by lia. subst lo.
    simpl in Hk. destruct rest as [|y rest]; simpl.
    + destruct hi; exact Hk.
    + destruct hi as [|h]; [exact Hk|].
      destruct (p y); [|exact Hk]. now apply Stop.
  - simpl in Hp. apply andb_true_iff in Hp. destruct Hp as [Hx Hp].
    simpl in Hlen. destruct hi as [|h]; [lia|].
    cbn [app rep]. rewrite Hx. cbn [option_map Nat.pred].
    assert (K : rep p (Nat.pred lo) (Some h) (x :: l) (w ++ rest) k <> None).
    { apply IH; [assumption | lia|].
      simpl in Hk. now rewrite <- app_assoc in Hk. }
    destruct (rep p (Nat.pred lo) (Some h) (x :: l) (w ++ rest) k);
      [discriminate | now elim K].
Qed.

Lemma numRule_token (lo hi : nat) : (1 <= lo)%nat -> tokenRule (numRule lo hi).
Proof.
  intros H. repeat split; simpl; auto using digit_word. lia.
Qed.

Lemma numRuleG_token (lo hi : nat) : (1 <= lo)%nat -> tokenRule (numRuleG lo hi).
Proof.
  intros H. repeat split; simpl; auto using digit_word. lia.
Qed.

Lemma matchAt_numRuleG (lo hi : nat) (c : cursor) :
  matchAt (numRuleG lo hi) c = option_map withGroup (matchAt (numRule lo hi) c).
Proof.
  unfold matchAt, numRuleG, numRule. simpl.
  destruct (atBoundary c); [|reflexivity].
  rewrite <- rep_map. apply rep_ext.
  intros c'. unfold textBetween. simpl.
  destruct (atBoundary c'); reflexivity.
Qed.

Lemma accepts_numRuleG (lo hi : nat) (w : jsstring) :
  accepts (numRuleG lo hi) w = accepts (numRule lo hi) w.
Proof.
  unfold accepts. rewrite matchAt_numRuleG.
  now destruct (matchAt (numRule lo hi) (Cur [] w)).
Qed.

Lemma wordAt_rev (w : jsstring) :
  Forall isWord w -> w <> [] -> wordAt (rev w) = true.
Proof.
  intros Hw Hne. rewrite <- (app_nil_r (rev w)). now apply wordAt_rev_word.
Qed.

Lemma wordAt_word (w : jsstring) :
  Forall isWord w -> w <> [] -> wordAt w = true.
Proof.
  intros Hw Hne. destruct w as [|x w]; [congruence|]. now inversion Hw.
Qed.

(** A number rule accepts exactly the tokens made of [lo] to [hi]
    digits. *)
Lemma accepts_numRule (lo hi : nat) (w : jsstring) :
  (1 <= lo)%nat -> Forall isWord w -> w <> [] ->
  accepts (numRule lo hi) w = numTok lo hi w.
Proof.
  intros Hlo Hw Hne.
  unfold accepts.
  destruct (matchAt (numRule lo hi) (Cur [] w)) as [m|] eqn:E.
  - symmetry.
    destruct (tokenRule_match _ (numRule_token lo hi Hlo) _ _ _ E)
      as (_ & w0 & rest0 & Ew & _ & Hw0 & Hr0 & Em).
    assert (rest0 = []).
    { destruct rest0 as [|y rest0]; [reflexivity|]. exfalso.
      assert (Hy : In y w) by (rewrite Ew; apply in_or_app; right; now left).
      rewrite Forall_forall in Hw. apply Hw in Hy. unfold isWord in Hy.
      simpl in Hr0. congruence. }
    subst rest0. rewrite app_nil_r in Ew. subst w0.
    unfold matchAt, numRule in E. simpl in E.
    destruct (atBoundary (Cur [] w)); [|discriminate].
    apply rep_steps_hi in E.
    destruct E as (w1 & c' & [S1 S2] & Hp & Hlen & Hk).
    destruct (atBoundary c'); [|discriminate].
    inversion Hk as [Hm]. rewrite Em in Hm. inversion Hm as [[Hc]].
    rewrite Hc in S1. simpl in S1. rewrite app_nil_r in S1. subst w1.
    unfold numTok. unfold digit in Hp. rewrite Hp. simpl.
    apply andb_true_iff. split; apply Nat.leb_le; lia.
  - symmetry. apply not_true_is_false. intros Hn.
    unfold numTok in Hn. rewrite !andb_true_iff, !Nat.leb_le in Hn.
    destruct Hn as [[Hd Hl1] Hl2].
    unfold matchAt, numRule in E. simpl in E.
    assert (B : atBoundary (Cur [] w) = true).
    { unfold atBoundary. simpl. now rewrite wordAt_word. }
    rewrite B in E.
    rewrite <- (app_nil_r w) in E at 1.
    revert E. apply rep_complete; [exact Hd | lia|].
    rewrite app_nil_r.
    assert (B' : atBoundary (Cur (rev w) []) = true).
    { unfold atBoundary. simpl. now rewrite wordAt_rev. }
    rewrite B'. discriminate.
Qed.

Lemma numRule_scan (lo hi : nat) (t : jsstring) :
  (1 <= lo)%nat ->
  matchGOr (numRule lo hi) t = filter (numTok lo hi) (tokens t)
  /\ matchGOr (numRuleG lo hi) t = filter (numTok lo hi) (tokens t).
Proof.
  intros Hlo.
  rewrite (matchGOr_tokens _ (numRule_token lo hi Hlo)),
    (matchGOr_tokens _ (numRuleG_token lo hi Hlo)).
  split; apply filter_ext_in; intros w Hw; apply tokens_words in Hw;
    destruct Hw as [Hw Hne]; rewrite ?accepts_numRuleG;
    now apply accepts_numRule.
Qed.

(** X13. The scans for standalone numbers find exactly the tokens of the
    text (maximal runs of letters, digits and underscores) that consist
    of digits only and have the length the pattern asks for, in text
    order: one or two digits for [/\b(\d{1,2})\b/g], two or three for
    [/\b(\d{2,3})\b/g] and [/\b\d{2,3}\b/g], three for [/\b(\d{3})\b/g]. *)
Theorem standalone_numbers (t : jsstring) :
  matchGOr reNum12 t = filter (numTok 1 2) (tokens t)
  /\ matchGOr reNum23 t = filter (numTok 2 3) (tokens t)
  /\ matchGOr reNum23' t = filter (numTok 2 3) (tokens t)
  /\ matchGOr reNum3 t = filter (numTok 3 3) (tokens t).
Proof.
  repeat split.
  - apply (numRule_scan 1 2 t). lia.
  - apply (numRule_scan 2 3 t). lia.
  - apply (numRule_scan 2 3 t). lia.
  - apply (numRule_scan 3 3 t). lia.
Qed.

(** * Around the extractor *)

(** ** The payload of a data URL *)

Lemma splitOn_whole (sep : char) (a : jsstring) :
  Forall (fun x => x <> sep) a -> splitOn sep a = [a].
Proof.
  induction 1 as [|x a Hx _ IH]; [reflexivity|].
  simpl. destruct (N.eqb_spec x sep); [contradiction|]. now rewrite IH.
Qed.

Lemma splitOn_first (sep : char) (a b : jsstring) :
  Forall (fun x => x <> sep) a ->
  splitOn sep (a ++ sep :: b) = a :: splitOn sep b.
Proof.
  induction 1 as [|x a Hx _ IH]; simpl.
  - now rewrite N.eqb_refl.
  - destruct (N.eqb_spec x sep); [contradiction|]. now rewrite IH.
Qed.

Lemma splitOn_cons (sep : char) (s : jsstring) :
  exists w ws, splitOn sep s = w :: ws.
Proof.
  induction s as [|x s (w & ws & IH)]; simpl; [eauto|].
  destruct (x =? sep)%N; [eauto|]. rewrite IH. eauto.
Qed.

(** X14. [fileToBase64] resolves with the payload of a data URL: for a
    reader result "<header>,<payload>" whose header holds no comma it
    yields the text after the first comma up to the next one (all of it
    for a base64 payload, which holds none), and it yields [undefined]
    when the result holds no comma at all. *)
Theorem fileToBase64_payload (header payload rest : jsstring) :
  Forall (fun x => x <> 44%N) header ->
  Forall (fun x => x <> 44%N) payload ->
  fileToBase64 header = None
  /\ fileToBase64 (header ++ str "," ++ payload) = Some payload
  /\ fileToBase64 (header ++ str "," ++ payload ++ str "," ++ rest)
     = Some payload.
Proof.
  intros Hh Hp. unfold fileToBase64. repeat split.
  - now rewrite splitOn_whole.
  - change (str "," ++ payload) with (44%N :: payload).
    now rewrite splitOn_first, splitOn_whole.
  - change (str "," ++ payload ++ str "," ++ rest)
      with (44%N :: (payload ++ 44%N :: rest)).
    now rewrite splitOn_first, splitOn_first.
Qed.

Lemma fileToBase64_payload_witness :
  fileToBase64 (str "data:image/png;base64") = None
  /\ fileToBase64 (str "data:image/png;base64" ++ str "," ++ str "iVBORw0KGgo=")
     = Some (str "iVBORw0KGgo=")
  /\ fileToBase64 (str "data:image/png;base64" ++ str "," ++ str "iVBORw0KGgo="
                     ++ str "," ++ str "tail")
     = Some (str "iVBORw0KGgo=").
Proof.
  apply fileToBase64_payload;
    repeat (apply Forall_cons; [discriminate|]); apply Forall_nil.
Defined.

(** ** The blood-pressure badge *)

Lemma ltb_int (p q : N) : ltb (int p) (int q) = (p <? q)%N.
Proof.
  unfold ltb, int. change (pow10 0) with 1%N. now rewrite !N.mul_1_r.
Qed.

(** The badge of an integer reading, by thresholds. *)
Lemma getBPCategory_int (s d : N) :
  severity (getBPCategory (int s) (int d))
  = if ((s <? 120) && (d <? 80))%N then 0%nat
    else if ((s <? 130) && (d <? 80))%N then 1%nat
    else if ((s <? 140) || (d <? 90))%N then 2%nat
    else if ((s <? 180) || (d <? 120))%N then 3%nat
    else 4%nat.
Proof.
  unfold getBPCategory. rewrite !ltb_int.
  repeat match goal with
         | |- context [if ?b then _ else _] => destruct b
         end; reflexivity.
Qed.

(** The severity of an integer reading, level by level. *)
Lemma severity_levels (s d : N) :
  let v := severity (getBPCategory (int s) (int d)) in
  (1 <= v <-> (120 <= s \/ 80 <= d)%N)%nat
  /\ (2 <= v <-> (130 <= s \/ 80 <= d)%N)%nat
  /\ (3 <= v <-> (140 <= s /\ 90 <= d)%N)%nat
  /\ (4 <= v <-> (180 <= s /\ 120 <= d)%N)%nat
  /\ (v <= 4)%nat.
Proof.
  intros v. subst v. rewrite getBPCategory_int.
  destruct (N.ltb_spec s 120), (N.ltb_spec d 80), (N.ltb_spec s 130),
    (N.ltb_spec s 140), (N.ltb_spec d 90), (N.ltb_spec s 180),
    (N.ltb_spec d 120); cbn [andb orb]; lia.
Qed.

(** X15. The badge never gets milder when the reading gets higher: raising
    the systolic or the diastolic value (or both) keeps the category or
    moves it up the scale Normal, Elevated, High Stage 1, High Stage 2,
    Crisis. *)
Theorem getBPCategory_monotone (s d s' d' : N) :
  (s <= s')%N -> (d <= d')%N ->
  (severity (getBPCategory (int s) (int d))
   <= severity (getBPCategory (int s') (int d')))%nat.
Proof.
  intros Hs Hd.
  pose proof (severity_levels s d) as A.
  pose proof (severity_levels s' d') as B.
  cbv zeta in A, B. lia.
Qed.

Lemma getBPCategory_monotone_witness :
  (severity (getBPCategory (int 118) (int 76))
   <= severity (getBPCategory (int 150) (int 95)))%nat.
Proof. apply getBPCategory_monotone; lia. Defined.

Lemma category_severity (b : badge) (n : nat) (name : string) :
  In (n, name) [(0%nat, "Normal"); (1%nat, "Elevated"); (2%nat, "High Stage 1");
                (3%nat, "High Stage 2"); (4%nat, "Crisis")] ->
  In (category b)
     [str "Normal"; str "Elevated"; str "High Stage 1"; str "High Stage 2";
      str "Crisis"] ->
  (category b = str name <-> severity b = n).
Proof.
  intros Hn Hc. unfold severity.
  simpl in Hn, Hc.
  destruct Hc as [E | [E | [E | [E | [E | []]]]]]; rewrite <- E;
    destruct Hn as [X | [X | [X | [X | [X | []]]]]]; inversion X; subst;
    vm_compute; split; intros H; try reflexivity; discriminate.
Qed.

Lemma getBPCategory_names (sys dia : number) :
  In (category (getBPCategory sys dia))
     [str "Normal"; str "Elevated"; str "High Stage 1"; str "High Stage 2";
      str "Crisis"].
Proof.
  unfold getBPCategory.
  repeat match goal with
         | |- context [if ?b then _ else _] => destruct b
         end; simpl; tauto.
Qed.

(** X16. The two highest categories need both values high: an integer
    reading is labelled "High Stage 2" or "Crisis" exactly when the
    systolic is at least 140 and the diastolic at least 90, and "Crisis"
    exactly when they are at least 180 and 120.  A reading whose diastolic
    is below 90 is never above "High Stage 1", however high the
    systolic. *)
Theorem getBPCategory_thresholds (s d : N) :
  let c := category (getBPCategory (int s) (int d)) in
  ((c = str "High Stage 2" \/ c = str "Crisis") <-> (140 <= s /\ 90 <= d)%N)
  /\ (c = str "Crisis" <-> (180 <= s /\ 120 <= d)%N).
Proof.
  intros c. subst c.
  pose proof (getBPCategory_names (int s) (int d)) as Hc.
  rewrite (category_severity _ 3 "High Stage 2"), (category_severity _ 4 "Crisis");
    try assumption; try (simpl; tauto).
  pose proof (severity_levels s d) as A. cbv zeta in A. lia.
Qed.

(** * The text fields of the record *)

Lemma word_field (x : char) : isWord x -> fieldChar x.
Proof. unfold isWord, fieldChar. now intros ->. Qed.

Lemma digit_field (x : char) : isDigitP x -> fieldChar x.
Proof. intros H. now apply word_field, digit_word. Qed.

Lemma uintChars_digits (u : Decimal.uint) : Forall isDigitP (uintChars u).
Proof.
  induction u; simpl; constructor; auto; reflexivity.
Qed.

Lemma natString_field (n : N) : Forall fieldChar (natString n).
Proof.
  unfold natString. generalize (uintChars_digits (N.to_uint n)).
  apply Forall_impl, digit_field.
Qed.

Lemma padStart0_field (n : nat) (s : jsstring) :
  Forall fieldChar s -> Forall fieldChar (padStart0 n s).
Proof.
  intros H. unfold padStart0. apply Forall_app. split; [|exact H].
  apply Forall_forall. intros x Hx. apply repeat_spec in Hx. now subst x.
Qed.

Lemma toString_field (v : number) : Forall fieldChar (toString v).
Proof.
  destruct v as [|m [|e]]; simpl.
  - repeat constructor.
  - apply natString_field.
  - apply Forall_app. split; [apply natString_field|].
    constructor; [reflexivity|].
    apply (padStart0_field (S e)), natString_field.
Qed.

Lemma formatTime_field (hour minute : number) :
  Forall fieldChar (formatTime hour minute).
Proof.
  unfold formatTime. apply Forall_app. split.
  - apply padStart0_field, toString_field.
  - apply Forall_app. split; [repeat constructor|].
    apply padStart0_field, toString_field.
Qed.

Lemma upperChar_word (x : char) : isWord x -> isWord (upperChar x).
Proof.
  unfold isWord, upperChar, isWordChar, isDigit, isUpper, isLower.
  intros H.
  repeat match goal with
         | |- context [if ?b then _ else _] => destruct b eqn:?
         end;
    repeat rewrite ?orb_true_iff, ?andb_true_iff, ?andb_false_iff,
      ?N.leb_le, ?N.leb_gt, ?N.eqb_eq in *; lia.
Qed.

Lemma toUpperCase_word (s : jsstring) :
  Forall isWord s -> Forall isWord (toUpperCase s).
Proof.
  intros H. unfold toUpperCase. apply Forall_map.
  revert H. apply Forall_impl, upperChar_word.
Qed.

Lemma toLowerCase_word (s : jsstring) :
  Forall isWord s -> Forall isWord (toLowerCase s).
Proof.
  intros H. unfold toLowerCase. apply Forall_map.
  revert H. apply Forall_impl. intros x Hx. unfold isWord.
  now rewrite lowerChar_word.
Qed.

(** ** Groups that capture word characters *)

Ltac cap_words :=
  simpl; repeat split; try exact digit_word;
  try (let x := fresh "x" in intros x; apply isCharI_word; reflexivity).

Lemma time_wordGroups :
  Forall (fun p => wordGroups (re p)) (patterns.time ++ patterns.period).
Proof.
  unfold wordGroups.
  repeat (apply Forall_cons; [cap_words|]). apply Forall_nil.
Qed.

Lemma exec_matchAt (r : regex) (s : jsstring) (m : marray) :
  exec r s = Some m ->
  exists c m0, matchAt r c = Some m0 /\ m = toArray r m0.
Proof.
  unfold exec. destruct (search r [] s) as [m0|] eqn:E; [|discriminate].
  intros H. inversion H; subst.
  destruct (search_matchAt _ _ _ _ E) as [c Hc]. eauto.
Qed.

Lemma exec_group_word (r : regex) (s : jsstring) (m : marray) (i : nat)
    (w : jsstring) :
  wordGroups r -> exec r s = Some m -> grp m (S i) = Some w -> Forall isWord w.
Proof.
  intros Hr He Hg. destruct (exec_matchAt r s m He) as (c & m0 & Hm & ->).
  exact (group_captured isWord r c m0 i w Hr Hm Hg).
Qed.

Lemma orEmpty_upper_field (o : option jsstring) :
  (forall w, o = Some w -> Forall isWord w) ->
  Forall fieldChar (orEmpty (option_map toUpperCase o)).
Proof.
  intros H. destruct o as [w|]; simpl; [|constructor].
  generalize (toUpperCase_word w (H w eq_refl)).
  apply Forall_impl, word_field.
Qed.

Section TextFields.

Variable t : jsstring.

Lemma timeLoop_field (ps : list pattern) :
  Forall (fun p => wordGroups (re p)) ps ->
  forall time period,
    Forall fieldChar time -> Forall fieldChar period ->
    Forall fieldChar (fst (timeLoop t ps time period))
    /\ Forall fieldChar (snd (timeLoop t ps time period)).
Proof.
  induction 1 as [|p ps Hp _ IH]; intros time period Ht Hpd; cbn [timeLoop];
    [now split|].
  destruct (exec (re p) t) as [m|] eqn:E; [|now apply IH].
  destruct (4 <=? List.length m)%nat.
  - cbn [fst snd]. split; [apply formatTime_field|].
    apply orEmpty_upper_field. intros w Hw.
    destruct (grp m 3) as [w0|] eqn:Eg; [|discriminate].
    inversion Hw; subst. apply toLowerCase_word.
    exact (exec_group_word _ _ _ 2 _ Hp E Eg).
  - destruct (3 <=? List.length m)%nat; cbn [fst snd]; [|now split].
    split; [apply formatTime_field | assumption].
Qed.

Lemma timeLikeLoop_field (ps : list regex) (time : jsstring) :
  Forall fieldChar time -> Forall fieldChar (timeLikeLoop t ps time).
Proof.
  intros Ht. induction ps as [|p ps IH]; cbn [timeLikeLoop]; [assumption|].
  destruct (matchG p t); [|assumption].
  destruct (_ && _); [apply formatTime_field | assumption].
Qed.

Lemma pairLoop_field (l : list number) (time : jsstring) :
  Forall fieldChar time -> Forall fieldChar (pairLoop l time).
Proof.
  intros Ht. induction l as [|h l IH]; cbn [pairLoop]; [assumption|].
  destruct l as [|m l]; [assumption|].
  destruct (_ && _); [apply formatTime_field | exact IH].
Qed.

Lemma time_field (time : jsstring) :
  Forall fieldChar time ->
  Forall fieldChar (timeFromNumbers t (timeFallback t time)).
Proof.
  intros Ht.
  assert (H1 : Forall fieldChar (timeFallback t time)).
  { unfold timeFallback. destruct (nonEmpty time); [assumption|].
    now apply timeLikeLoop_field. }
  unfold timeFromNumbers. destruct (nonEmpty _); [assumption|].
  destruct (2 <=? _)%nat; [|assumption].
  now apply pairLoop_field.
Qed.

Lemma periodLoop_field (ps : list pattern) :
  Forall (fun p => wordGroups (re p)) ps ->
  forall period, Forall fieldChar period ->
                 Forall fieldChar (periodLoop t ps period).
Proof.
  induction 1 as [|p ps Hp _ IH]; intros period Hpd; cbn [periodLoop];
    [assumption|].
  destruct (exec (re p) t) as [m|] eqn:E; [|now apply IH].
  apply orEmpty_upper_field. intros w Hw.
  exact (exec_group_word _ _ _ 0 _ Hp E Hw).
Qed.

End TextFields.

(** The time and the period of a record are made of field characters. *)
Lemma record_text_fields (text : jsstring) :
  Forall fieldChar (time (extractDataFromText text))
  /\ Forall fieldChar (period (extractDataFromText text)).
Proof.
  rewrite record_time, record_period.
  set (t := preprocessText text).
  pose proof time_wordGroups as W. apply Forall_app in W. destruct W as [Wt Wp].
  destruct (timeLoop_field t patterns.time Wt [] [] (Forall_nil _) (Forall_nil _))
    as [H1 H2].
  split; [now apply time_field | now apply periodLoop_field].
Qed.

(** X17. Whatever the text, the time and the period of the record consist
    of letters, digits, underscores, colons and points only: no comma,
    quote, space or line break can reach these two fields. *)
Theorem time_period_alphabet (text : jsstring) :
  Forall fieldChar (time (extractDataFromText text))
  /\ Forall fieldChar (period (extractDataFromText text)).
Proof. exact (record_text_fields text). Qed.

(** * The exported table *)

Lemma field_plain (s : jsstring) : Forall fieldChar s -> plainCell s.
Proof.
  apply Forall_impl. intros x Hx. unfold fieldChar in Hx.
  split; intros ->; vm_compute in Hx; discriminate.
Qed.

Lemma toString_plain (v : number) : plainCell (toString v).
Proof. apply field_plain, toString_field. Qed.

Lemma join_nil_sep (sep x : jsstring) (a : list jsstring) :
  join sep (x :: a)
  = match a with
    | [] => x
    | _ => x ++ sep ++ join sep a
    end.
Proof. destruct a; reflexivity. Qed.

(** Splitting a joined array of cells gives the cells back. *)
Lemma splitOn_join (sep : N) (a : list jsstring) :
  a <> [] -> Forall (Forall (fun x => x <> sep)) a ->
  splitOn sep (join [sep] a) = a.
Proof.
  induction a as [|x a IH]; intros Hne H; [congruence|].
  inversion H as [|? ? Hx Ha]; subst.
  rewrite join_nil_sep. destruct a as [|y a].
  - now apply splitOn_whole.
  - change (x ++ [sep] ++ join [sep] (y :: a))
      with (x ++ sep :: join [sep] (y :: a)).
    rewrite splitOn_first by assumption.
    f_equal. apply IH; [discriminate | assumption].
Qed.

Lemma join_Forall (P : char -> Prop) (sep : jsstring) (a : list jsstring) :
  Forall P sep -> Forall (Forall P) a -> Forall P (join sep a).
Proof.
  intros Hs H. induction H as [|x a Hx Ha IH]; [constructor|].
  rewrite join_nil_sep. destruct a; [assumption|].
  repeat (apply Forall_app; split); assumption.
Qed.

Lemma uploaded_cells (item : Index.BloodPressureData) :
  uploaded item -> Forall plainCell (Index.cells item).
Proof.
  intros [(id & text & url & ->) | (id & url & ->)].
  - destruct (record_text_fields text) as [Ht Hp].
    destruct (extractDataFromText text) as [d mo tm p s di pu].
    cbn [time period] in Ht, Hp.
    unfold Index.cells, Index.processedEntry.
    cbn [Index.day Index.month Index.time Index.period Index.sys Index.dia
         Index.pulse].
    repeat (apply Forall_cons;
            [first [apply toString_plain | now apply field_plain]|]).
    apply Forall_nil.
  - unfold Index.cells, Index.failedEntry.
    cbn [Index.day Index.month Index.time Index.period Index.sys Index.dia
         Index.pulse].
    repeat (apply Forall_cons;
            [first [apply toString_plain | apply Forall_nil]|]).
    apply Forall_nil.
Qed.

Lemma plain_no_comma (s : jsstring) :
  plainCell s -> Forall (fun x => x <> 44%N) s.
Proof. apply Forall_impl. tauto. Qed.

Lemma plain_no_break (s : jsstring) :
  plainCell s -> Forall (fun x => x <> 10%N) s.
Proof. apply Forall_impl. tauto. Qed.

Lemma row_roundtrip (cells : list jsstring) :
  cells <> [] -> Forall plainCell cells ->
  Forall (fun x => x <> 10%N) (join (str ",") cells)
  /\ splitOn 44%N (join (str ",") cells) = cells.
Proof.
  intros Hne H. split.
  - apply join_Forall; [repeat constructor; discriminate|].
    revert H. apply Forall_impl, plain_no_break.
  - apply (splitOn_join 44%N); [assumption|].
    revert H. apply Forall_impl, plain_no_comma.
Qed.

Lemma headers_plain : Forall plainCell Index.headers.
Proof.
  unfold Index.headers.
  repeat (apply Forall_cons;
          [repeat (apply Forall_cons; [split; discriminate|]); apply Forall_nil|]).
  apply Forall_nil.
Qed.

(** X18. Exporting a table of uploaded readings and reading the file back
    gives the table: nothing is exported while the table is empty, and
    otherwise the text splits at line breaks and commas into the header
    row followed by one row of exactly the seven cells of each entry. *)
Theorem exportData_roundtrip (data : list Index.BloodPressureData) :
  data <> [] ->
  Forall uploaded data ->
  Index.exportData [] = None
  /\ exists csv,
       Index.exportData data = Some csv
       /\ List.map (splitOn 44%N) (splitOn 10%N csv)
          = Index.headers :: List.map Index.cells data.
Proof.
  intros Hne Hd. split; [reflexivity|].
  unfold Index.exportData.
  destruct data as [|item data]; [congruence|]. cbn [List.length Nat.eqb].
  eexists. split; [reflexivity|].
  unfold Index.csvContent.
  set (rows := join (str ",") Index.headers
               :: List.map (fun i => join (str ",") (Index.cells i)) (item :: data)).
  assert (Hh : Index.headers <> []) by discriminate.
  assert (Hc : forall i, Index.cells i <> []) by discriminate.
  assert (Hrows : Forall (fun row => Forall (fun x => x <> 10%N) row) rows
                  /\ List.map (splitOn 44%N) rows
                     = Index.headers :: List.map Index.cells (item :: data)).
  { unfold rows. split.
    - constructor;
        [exact (proj1 (row_roundtrip _ Hh headers_plain))|].
      apply Forall_map. revert Hd. apply Forall_impl. intros i Hi.
      exact (proj1 (row_roundtrip _ (Hc i) (uploaded_cells i Hi))).
    - rewrite map_cons, map_map.
      rewrite (proj2 (row_roundtrip _ Hh headers_plain)). f_equal.
      apply map_ext_in. intros i Hi.
      rewrite Forall_forall in Hd.
      exact (proj2 (row_roundtrip _ (Hc i) (uploaded_cells i (Hd i Hi)))). }
  destruct Hrows as [H1 H2].
  rewrite (splitOn_join 10%N rows); [exact H2 | discriminate | exact H1].
Qed.

Lemma exportData_roundtrip_witness :
  Index.exportData [] = None
  /\ exists csv,
       Index.exportData
         [Index.processedEntry (str "a")
            (extractDataFromText (str "7m 15d 12:30 pm sys 130 dia 85 pulse 70"))
            (str "blob:1");
          Index.failedEntry (str "b") (str "blob:2")] = Some csv
       /\ List.map (splitOn 44%N) (splitOn 10%N csv)
          = Index.headers
            :: List.map Index.cells
                 [Index.processedEntry (str "a")
                    (extractDataFromText
                       (str "7m 15d 12:30 pm sys 130 dia 85 pulse 70"))
                    (str "blob:1");
                  Index.failedEntry (str "b") (str "blob:2")].
Proof.
  apply exportData_roundtrip; [discriminate|].
  apply Forall_cons; [left; eauto|].
  apply Forall_cons; [right; eauto | apply Forall_nil].
Defined.

(** * The value of a run of digits *)

Lemma digit_not_space (x : char) : isDigit x = true -> isSpace x = false.
Proof.
  unfold isDigit. intros H.
  apply andb_true_iff in H. destruct H as [H1 H2].
  apply N.leb_le in H1. apply N.leb_le in H2.
  unfold isSpace.
  rewrite !orb_false_iff, !andb_false_iff, !N.leb_gt, !N.eqb_neq.
  repeat split; lia.
Qed.

Lemma dropWhile_head (p : char -> bool) (x : char) (s : jsstring) :
  p x = false -> dropWhile p (x :: s) = x :: s.
Proof. intros H. simpl. now rewrite H. Qed.

Lemma trim_digits (w : jsstring) : Forall isDigitP w -> trim w = w.
Proof.
  intros H. unfold trim.
  assert (K : forall v, Forall isDigitP v -> dropWhile isSpace v = v).
  { intros [|x v] Hv; [reflexivity|]. inversion Hv; subst.
    apply dropWhile_head. now apply digit_not_space. }
  rewrite (K w H), K; [apply rev_involutive|].
  now apply Forall_rev.
Qed.

Lemma span_digits (w : jsstring) : Forall isDigitP w -> span isDigit w = (w, []).
Proof.
  induction 1 as [|x w Hx _ IH]; [reflexivity|].
  simpl. unfold isDigitP in Hx. now rewrite Hx, IH.
Qed.

(** [Number] of a non-empty run of digits is its decimal value. *)
Lemma Number_run (w : jsstring) :
  Forall isDigitP w -> w <> [] -> Number w = int (digitsValue w).
Proof.
  intros H Hne. unfold Number. rewrite (trim_digits w H).
  destruct w as [|x w]; [congruence|].
  now rewrite (span_digits (x :: w) H).
Qed.

Lemma digitsValue_snoc (w : jsstring) (x : char) :
  digitsValue (w ++ [x]) = (digitsValue w * 10 + (x - 48))%N.
Proof. unfold digitsValue. now rewrite fold_left_app. Qed.

(** A run of [n] digits is worth less than [10^n]. *)
Lemma digitsValue_bound (w : jsstring) :
  Forall isDigitP w -> (digitsValue w < 10 ^ N.of_nat (List.length w))%N.
Proof.
  induction w as [|x w IH] using rev_ind; intros H; [reflexivity|].
  apply Forall_app in H. destruct H as [Hw Hx]. inversion Hx as [|? ? Hd _]; subst.
  rewrite digitsValue_snoc, length_app. simpl List.length.
  replace (N.of_nat (List.length w + 1)) with (N.succ (N.of_nat (List.length w)))
    by lia.
  rewrite N.pow_succ_r'. specialize (IH Hw).
  unfold isDigitP, isDigit in Hd. apply andb_true_iff in Hd.
  destruct Hd as [H1 H2]. apply N.leb_le in H1. apply N.leb_le in H2. lia.
Qed.

(** * A systolic below 100 *)

Lemma numTok_digits (lo hi : nat) (w : jsstring) :
  numTok lo hi w = true ->
  Forall isDigitP w /\ (lo <= List.length w <= hi)%nat.
Proof.
  unfold numTok. rewrite !andb_true_iff, !Nat.leb_le, forallb_forall.
  intros [[H1 H2] H3]. split; [|lia]. now apply Forall_forall.
Qed.

(** Among the standalone numbers, those in [100,250] are the same whether
    two-digit numbers are scanned too or not. *)
Lemma large_candidates (toks : list jsstring) :
  filter (between 100 250) (List.map Number (filter (numTok 3 3) toks))
  = filter (between 100 250) (List.map Number (filter (numTok 2 3) toks)).
Proof.
  induction toks as [|w toks IH]; [reflexivity|].
  cbn [filter].
  destruct (numTok 3 3 w) eqn:E3, (numTok 2 3 w) eqn:E2; cbn [List.map filter].
  - now rewrite IH.
  - exfalso. apply numTok_digits in E3. destruct E3 as [Hd Hl].
    unfold numTok in E2. rewrite !andb_false_iff, !Nat.leb_gt in E2.
    destruct E2 as [[E2 | E2] | E2]; try lia.
    apply not_true_iff_false in E2. apply E2.
    apply forallb_forall. now apply Forall_forall.
  - apply numTok_digits in E2. destruct E2 as [Hd Hl].
    assert (Hlen : List.length w = 2%nat).
    { unfold numTok in E3. rewrite !andb_false_iff, !Nat.leb_gt in E3.
      destruct E3 as [[E3 | E3] | E3]; try lia.
      apply not_true_iff_false in E3. exfalso. apply E3.
      apply forallb_forall. now apply Forall_forall. }
    assert (Hne : w <> []) by (intros ->; discriminate).
    rewrite (Number_run w Hd Hne).
    pose proof (digitsValue_bound w Hd) as Hb. rewrite Hlen in Hb.
    change (10 ^ N.of_nat 2)%N with 100%N in Hb.
    assert (Hf : between 100 250 (int (digitsValue w)) = false).
    { apply not_true_iff_false. intros Ht. apply between_spec in Ht.
      apply (proj1 (InRange_int 100 250 _)) in Ht. lia. }
    now rewrite Hf.
  - exact IH.
Qed.

Lemma numbersOf_tokens (t : jsstring) :
  numbersOf t reNum3 = List.map Number (filter (numTok 3 3) (tokens t))
  /\ numbersOf t reNum23 = List.map Number (filter (numTok 2 3) (tokens t))
  /\ numbersOf t reNum23' = List.map Number (filter (numTok 2 3) (tokens t)).
Proof.
  unfold numbersOf. repeat split; f_equal.
  - apply (numRule_scan 3 3 t). lia.
  - apply (numRule_scan 2 3 t). lia.
  - apply (numRule_scan 2 3 t). lia.
Qed.

(** A systolic in need of correction is replaced by the first standalone
    number in [100,250], if there is one. *)
Lemma sysCorrection_first (t : jsstring) (s x : number) (rest : list number) :
  needsCorrection 100 s = true ->
  filter (between 100 250) (numbersOf t reNum23') = x :: rest ->
  sysCorrection t s = x.
Proof.
  intros Hn Hc. unfold sysCorrection. rewrite Hn.
  destruct (numbersOf_tokens t) as (E3 & E23 & E23').
  rewrite E3, E23, large_candidates, <- E23', Hc.
  reflexivity.
Qed.

(** X19. A labelled systolic below 100 does not stand: when the systolic
    patterns leave a value below 100 (or none) and the text, not in
    display layout, holds a standalone two- or three-digit number in
    [100,250], the record's sys is the first such number of the text. *)
Theorem sys_below_100_replaced (text : jsstring) (n x : N) (rest : list number) :
  let t := preprocessText text in
  hasAllLabels t = false ->
  sysLoop t (int 0) = int n ->
  (n < 100)%N ->
  filter (between 100 250) (numbersOf t reNum23') = int x :: rest ->
  sys (extractDataFromText text) = int x.
Proof.
  intros t HL Hs Hn Hc.
  assert (Hx : between 100 250 (int x) = true)
    by exact (filter_head_In _ _ _ _ Hc).
  assert (Hneed : needsCorrection 100 (int n) = true).
  { unfold needsCorrection. rewrite ltb_int.
    destruct (N.ltb_spec n 100); [apply orb_true_r | lia]. }
  assert (Ec : fst (fst (cascades t)) = int x).
  { unfold cascades. cbn [fst]. rewrite Hs.
    now apply (sysCorrection_first t (int n) (int x) rest). }
  destruct (cascades t) as [[s d] p] eqn:Ecs. cbn [fst] in Ec. subst s.
  destruct (layoutStage t (int x, d, p)) as [[s' d'] p'] eqn:El.
  assert (Hs' : s' = int x).
  { change s' with (fst (fst (s', d', p'))). rewrite <- El.
    unfold layoutStage. rewrite HL, pulseFallback_bp.
    apply bpFallback_sys. now apply (between_truthy 100 250). }
  subst s'.
  assert (E := El). rewrite <- Ecs in E. apply extract_measurements in E.
  destruct E as [E _]. rewrite E.
  apply inRangeOrZero_keep.
  now apply (between_weaken 100 70 250 250); [lia | lia |].
Qed.

Lemma sys_below_100_replaced_witness :
  sys (extractDataFromText (str "sys 85 and 120 then 140")) = int 120.
Proof.
  apply (sys_below_100_replaced (str "sys 85 and 120 then 140") 85 120 [int 140]);
    try (vm_compute; reflexivity).
Defined.

(** * Letter case *)

Lemma lowered_cur (l rt : jsstring) :
  lowered (Cur l rt) (Cur (toLowerCase l) (toLowerCase rt)).
Proof. reflexivity. Qed.

Lemma matchAt_lowered (r : regex) (l rt : jsstring) :
  lowerInv r ->
  optRel loweredMatch (matchAt r (Cur l rt))
    (matchAt r (Cur (toLowerCase l) (toLowerCase rt))).
Proof.
  intros Hr. unfold matchAt.
  apply (run_sim found found lowered toLowerCase loweredMatch
           lowered_boundary lowered_text r (lowered_preds r Hr)).
  - apply lowered_cur.
  - reflexivity.
  - intros c1' c2' cs1' cs2' HR HC. constructor.
    repeat split; auto.
Qed.

Lemma lookupCap_lower (i : nat) (cs : captures) :
  lookupCap i (List.map (fun e => (fst e, toLowerCase (snd e))) cs)
  = option_map toLowerCase (lookupCap i cs).
Proof.
  induction cs as [|[j s] cs IH]; [reflexivity|].
  simpl. destruct (Nat.eqb i j); [reflexivity | exact IH].
Qed.

Lemma loweredMatch_text (m1 m2 : found) :
  loweredMatch m1 m2 -> mtext m2 = toLowerCase (mtext m1).
Proof.
  intros (Hs & He & _). unfold mtext. now apply lowered_text.
Qed.

Lemma loweredMatch_len (m1 m2 : found) :
  loweredMatch m1 m2 -> mlen m2 = mlen m1.
Proof.
  intros H. unfold mlen. rewrite (loweredMatch_text _ _ H).
  unfold toLowerCase. apply length_map.
Qed.

Lemma loweredMatch_array (r : regex) (m1 m2 : found) :
  loweredMatch m1 m2 -> toArray r m2 = lowerArray (toArray r m1).
Proof.
  intros H. unfold toArray, lowerArray. cbn [List.map option_map].
  rewrite (loweredMatch_text _ _ H). f_equal.
  destruct H as (_ & _ & Hc). unfold capRel in Hc. rewrite Hc.
  rewrite map_map. apply map_ext. intros i. apply lookupCap_lower.
Qed.

Section ReplaceLower.

Variable r : regex.
Variable f : marray -> jsstring.
Hypothesis Hr : lowerInv r.
Hypothesis Hf : lowerStable f.

Lemma replaceFrom_lower : forall rt skip l,
  replaceFrom r f skip (toLowerCase l) (toLowerCase rt)
  = toLowerCase (replaceFrom r f skip l rt).
Proof.
  induction rt as [|x rt IH]; intros skip l.
  - destruct skip; [|reflexivity]. cbn [toLowerCase List.map replaceFrom].
    pose proof (matchAt_lowered r l [] Hr) as K.
    cbn [toLowerCase List.map] in K.
    inversion K as [E1 E2 | m1 m2 Hm E1 E2]; [reflexivity|].
    rewrite (loweredMatch_array r _ _ Hm), Hf.
    unfold toLowerCase. now rewrite !app_nil_r.
  - destruct skip.
    + cbn [replaceFrom].
      pose proof (matchAt_lowered r l (x :: rt) Hr) as K.
      change (toLowerCase (x :: rt)) with (lowerChar x :: toLowerCase rt) in *.
      cbn [replaceFrom].
      inversion K as [E1 E2 | m1 m2 Hm E1 E2].
      * change (lowerChar x :: toLowerCase l) with (toLowerCase (x :: l)).
        rewrite IH. reflexivity.
      * rewrite (loweredMatch_array r _ _ Hm), Hf, (loweredMatch_len _ _ Hm).
        change (lowerChar x :: toLowerCase l) with (toLowerCase (x :: l)).
        rewrite IH. unfold toLowerCase. rewrite !map_app.
        destruct (Nat.eqb (mlen m1) 0); reflexivity.
    + change (toLowerCase (x :: rt)) with (lowerChar x :: toLowerCase rt).
      cbn [replaceFrom].
      change (lowerChar x :: toLowerCase l) with (toLowerCase (x :: l)).
      apply IH.
Qed.

Lemma replaceG_lower (s : jsstring) :
  replaceG r f (toLowerCase s) = toLowerCase (replaceG r f s).
Proof. unfold replaceG. apply (replaceFrom_lower s 0 []). Qed.

End ReplaceLower.

Lemma letter_not_space (y : char) : (65 <= y <= 122)%N -> isSpace y = false.
Proof.
  intros Hy. unfold isSpace.
  rewrite !orb_false_iff, !andb_false_iff, !N.leb_gt, !N.eqb_neq.
  repeat split; lia.
Qed.

Lemma lowerChar_space (x : char) : isSpace (lowerChar x) = isSpace x.
Proof.
  unfold lowerChar, isUpper. destruct ((65 <=? x) && (x <=? 90))%N eqn:E;
    [|reflexivity].
  apply andb_true_iff in E. destruct E as [E1 E2].
  apply N.leb_le in E1. apply N.leb_le in E2.
  rewrite !letter_not_space; [reflexivity | lia | lia].
Qed.

(** A character that is not a letter is matched whatever the case of the
    subject. *)
Lemma isChar_lower (a x : char) :
  isUpper a = false -> isLower a = false ->
  isChar a (lowerChar x) = isChar a x.
Proof.
  unfold isChar, lowerChar, isUpper, isLower. intros Hu Hl.
  destruct ((65 <=? x) && (x <=? 90))%N eqn:E; [|reflexivity].
  apply andb_true_iff in E. destruct E as [E1 E2].
  apply N.leb_le in E1. apply N.leb_le in E2.
  apply andb_false_iff in Hu. apply andb_false_iff in Hl.
  rewrite !N.leb_gt in Hu, Hl.
  destruct (N.eqb_spec (x + 32) a), (N.eqb_spec x a); try reflexivity; lia.
Qed.

Lemma noiseChar_lower (x : char) : noiseChar (lowerChar x) = noiseChar x.
Proof.
  unfold noiseChar. rewrite lowerChar_word, lowerChar_space. f_equal. f_equal.
  unfold oneOf. cbn [existsb str List.map list_ascii_of_string N_of_ascii N_of_digits].
  unfold lowerChar, isUpper.
  destruct ((65 <=? x) && (x <=? 90))%N eqn:E; [|reflexivity].
  apply andb_true_iff in E. destruct E as [E1 E2].
  apply N.leb_le in E1. apply N.leb_le in E2.
  repeat match goal with
         | |- context [(?a =? ?b)%N] => destruct (N.eqb_spec a b)
         end; simpl; try reflexivity; lia.
Qed.

Lemma rules_lowerInv : Forall (fun rule => lowerInv (fst rule)) rewriteRules.
Proof.
  unfold rewriteRules.
  repeat (apply Forall_cons;
          [simpl; repeat split; intros x;
           first [ apply isCharI_lower | apply lowerChar_digit
                 | apply lowerChar_space | apply noiseChar_lower
                 | apply isChar_lower; reflexivity ]|]).
  apply Forall_nil.
Qed.

Lemma dollar1_lower (a : marray) : dollar1 (lowerArray a) = toLowerCase (dollar1 a).
Proof.
  unfold dollar1, grp, lowerArray.
  destruct a as [|w [|[g|] a]]; reflexivity.
Qed.

Lemma rules_lowerStable : Forall (fun rule => lowerStable (snd rule)) rewriteRules.
Proof.
  unfold rewriteRules, lowerStable.
  repeat (apply Forall_cons;
          [cbn [snd]; intros a;
           first [ reflexivity
                 | apply dollar1_lower
                 | rewrite dollar1_lower; unfold toLowerCase;
                   rewrite map_app; reflexivity ]|]).
  apply Forall_nil.
Qed.

Lemma applyRules_lower (rules : list (regex * (marray -> jsstring))) :
  Forall (fun rule => lowerInv (fst rule)) rules ->
  Forall (fun rule => lowerStable (snd rule)) rules ->
  forall s, applyRules rules (toLowerCase s) = toLowerCase (applyRules rules s).
Proof.
  induction rules as [|[r f] rules IH]; intros H1 H2 s; [reflexivity|].
  inversion H1 as [|? ? Hr H1']; subst. inversion H2 as [|? ? Hf H2']; subst.
  cbn [fst snd] in Hr, Hf.
  rewrite !applyRules_cons. cbn [fst snd].
  rewrite replaceG_lower by assumption. now apply IH.
Qed.

(** The normalizer does not see the case of the letters. *)
Lemma preprocessText_lower (s : jsstring) :
  preprocessText (toLowerCase s) = preprocessText s.
Proof.
  unfold preprocessText.
  rewrite (applyRules_lower _ rules_lowerInv rules_lowerStable).
  apply toLowerCase_idem.
Qed.

Lemma extract_normalized (s1 s2 : jsstring) :
  preprocessText s1 = preprocessText s2 ->
  extractDataFromText s1 = extractDataFromText s2.
Proof. intros H. unfold extractDataFromText. now rewrite H. Qed.

(** X20. The extractor does not see the case of the letters: two texts that
    become equal when their upper-case ASCII letters are replaced by
    lower-case ones give the same record. *)
Theorem case_insensitive (s1 s2 : jsstring) :
  toLowerCase s1 = toLowerCase s2 ->
  extractDataFromText s1 = extractDataFromText s2.
Proof.
  intros H. apply extract_normalized.
  rewrite <- (preprocessText_lower s1), <- (preprocessText_lower s2).
  now rewrite H.
Qed.

Lemma case_insensitive_witness :
  extractDataFromText (str "SYS 130 Dia 85 PULSE 70 at 9:15 PM")
  = extractDataFromText (str "sys 130 dia 85 pulse 70 At 9:15 pm").
Proof.
  apply case_insensitive. vm_compute. reflexivity.
Defined.

(** * The time of a clock token *)

(** [reClockPeriod] and [reClockToken] are the first two entries of the
    time table. *)
Lemma time_table_head :
  firstn 2 (List.map re patterns.time) = [reClockPeriod; reClockToken].
Proof. reflexivity. Qed.

Lemma forallb_digits (w : jsstring) : forallb digit w = true -> Forall isDigitP w.
Proof. intros H. apply Forall_forall. now apply forallb_forall. Qed.

Lemma reClockToken_groups (c : cursor) (m : found) :
  matchAt reClockToken c = Some m ->
  List.length (toArray reClockToken m) = 3%nat
  /\ clockGroups (toArray reClockToken m).
Proof.
  destruct c as [l rt].
  unfold matchAt, reClockToken, d12, d2, colon. cbn -[textBetween atBoundary rep].
  destruct (atBoundary (Cur l rt)); [|discriminate].
  intros H. apply rep_steps_hi in H.
  destruct H as (w1 & c1 & S1 & D1 & L1 & H).
  destruct (after c1) as [|x xs] eqn:Ea; [discriminate|].
  destruct (isChar 58%N x); [|discriminate].
  apply rep_steps_hi in H.
  destruct H as (w2 & c2 & S2 & D2 & L2 & H).
  destruct (atBoundary c2); [|discriminate].
  inversion H; subst m. split; [reflexivity|].
  exists w1, w2. unfold toArray, grp. cbn -[textBetween].
  rewrite (textBetween_steps _ _ _ S1), (textBetween_steps _ _ _ S2).
  repeat split; auto using forallb_digits; lia.
Qed.

Lemma periodTail_caps (c0 c3 : cursor) (cs : captures) (m : found) :
  run periodTail c3 cs (fun c' cs' => Some (Found c0 c' cs')) = Some m ->
  exists c4 w4, m = Found c0 c4 ((3%nat, w4) :: cs).
Proof.
  unfold periodTail. cbn -[textBetween atBoundary].
  destruct (after c3) as [|x0 [|x1 xs1]].
  - discriminate.
  - destruct (isCharI 97%N x0), (isCharI 112%N x0); discriminate.
  - destruct (isCharI 97%N x0), (isCharI 112%N x0), (isCharI 109%N x1),
      (atBoundary (Cur (x1 :: x0 :: before c3) xs1));
      intros E; try discriminate; inversion E; eauto.
Qed.

Lemma reClockPeriod_groups (c : cursor) (m : found) :
  matchAt reClockPeriod c = Some m ->
  List.length (toArray reClockPeriod m) = 4%nat
  /\ clockGroups (toArray reClockPeriod m).
Proof.
  destruct c as [l rt].
  unfold matchAt, reClockPeriod, d12, d2, colon, ws.
  cbn -[textBetween atBoundary rep periodTail].
  destruct (atBoundary (Cur l rt)); [|discriminate].
  intros H. apply rep_steps_hi in H.
  destruct H as (w1 & c1 & S1 & D1 & L1 & H).
  destruct (after c1) as [|x xs] eqn:Ea; [discriminate|].
  destruct (isChar 58%N x); [|discriminate].
  apply rep_steps_hi in H.
  destruct H as (w2 & c2 & S2 & D2 & L2 & H).
  apply (rep_steps _ (fun _ => True)) in H; [|auto].
  destruct H as (w3 & c3 & _ & _ & _ & H).
  apply periodTail_caps in H. destruct H as (c4 & w4 & ->).
  split; [reflexivity|].
  exists w1, w2. unfold toArray, grp. cbn -[textBetween].
  rewrite (textBetween_steps _ _ _ S1), (textBetween_steps _ _ _ S2).
  repeat split; auto using forallb_digits; lia.
Qed.

Lemma clockGroups_numbers (a : marray) :
  clockGroups a ->
  exists h m, (h <= 99)%N /\ (m <= 99)%N
              /\ NumberOpt (grp a 1) = int h /\ NumberOpt (grp a 2) = int m.
Proof.
  intros (w1 & w2 & -> & -> & D1 & D2 & L1 & L2).
  assert (N1 : w1 <> []) by (intros ->; simpl in L1; lia).
  assert (N2 : w2 <> []) by (intros ->; discriminate).
  exists (digitsValue w1), (digitsValue w2). cbn [NumberOpt].
  rewrite (Number_run w1 D1 N1), (Number_run w2 D2 N2).
  pose proof (digitsValue_bound w1 D1) as B1.
  pose proof (digitsValue_bound w2 D2) as B2.
  rewrite L2 in B2. change (10 ^ N.of_nat 2)%N with 100%N in B2.
  assert (B1' : (digitsValue w1 < 100)%N).
  { destruct L1 as [La Lb].
    assert (E : List.length w1 = 1%nat \/ List.length w1 = 2%nat) by lia.
    destruct E as [E | E]; rewrite E in B1.
    - change (10 ^ N.of_nat 1)%N with 10%N in B1. lia.
    - change (10 ^ N.of_nat 2)%N with 100%N in B1. lia. }
  repeat split; try reflexivity; lia.
Qed.

(** For numbers below 100, the printed time is a valid clock time exactly
    when the hour is at most 23 and the minute at most 59. *)
Lemma formatTime_valid_iff (h m : N) :
  (h <= 99)%N -> (m <= 99)%N ->
  (validClock (formatTime (int h) (int m)) = true
   <-> (h <= 23 /\ m <= 59)%N).
Proof.
  intros Hh Hm.
  assert (K : forallb (fun h => forallb (fun m =>
                 Bool.eqb (validClock (formatTime (int h) (int m)))
                          ((h <=? 23) && (m <=? 59))%N)
                 (upto 100)) (upto 100) = true) by (vm_compute; reflexivity).
  rewrite forallb_forall in K.
  specialize (K h (upto_In 100 h ltac:(lia))).
  rewrite forallb_forall in K.
  specialize (K m (upto_In 100 m ltac:(lia))).
  apply eqb_prop in K. rewrite K, andb_true_iff, !N.leb_le. reflexivity.
Qed.

Lemma formatTime_nonEmpty (h m : number) : nonEmpty (formatTime h m) = true.
Proof.
  unfold formatTime. destruct (padStart0 2 (toString h)); reflexivity.
Qed.

Lemma time_kept (t time : jsstring) :
  nonEmpty time = true -> timeFromNumbers t (timeFallback t time) = time.
Proof.
  intros H. unfold timeFromNumbers, timeFallback. now rewrite H, H.
Qed.

Lemma exec_found (r : regex) (s : jsstring) :
  exec r s <> None ->
  exists a c m, exec r s = Some a /\ matchAt r c = Some m /\ a = toArray r m.
Proof.
  intros H. destruct (exec r s) as [a|] eqn:E; [|congruence].
  destruct (exec_matchAt r s a E) as (c & m & Hm & ->). eauto 6.
Qed.

(** The time loop on a text that holds a clock token. *)
Lemma timeLoop_clock (t : jsstring) :
  exec reClockPeriod t <> None \/ exec reClockToken t <> None ->
  exists h m, (h <= 99)%N /\ (m <= 99)%N
              /\ fst (timeLoop t patterns.time [] []) = formatTime (int h) (int m).
Proof.
  intros H.
  change (timeLoop t patterns.time [] [])
    with (match exec reClockPeriod t with
          | Some m =>
              if (4 <=? List.length m)%nat then
                (formatTime (NumberOpt (grp m 1)) (NumberOpt (grp m 2)),
                 orEmpty (option_map toUpperCase
                            (option_map toLowerCase (grp m 3))))
              else if (3 <=? List.length m)%nat then
                (formatTime (NumberOpt (grp m 1)) (NumberOpt (grp m 2)), [])
              else ([], [])
          | None =>
              match exec reClockToken t with
              | Some m =>
                  if (4 <=? List.length m)%nat then
                    (formatTime (NumberOpt (grp m 1)) (NumberOpt (grp m 2)),
                     orEmpty (option_map toUpperCase
                                (option_map toLowerCase (grp m 3))))
                  else if (3 <=? List.length m)%nat then
                    (formatTime (NumberOpt (grp m 1)) (NumberOpt (grp m 2)), [])
                  else ([], [])
              | None => timeLoop t (tl (tl patterns.time)) [] []
              end
          end).
  destruct (exec reClockPeriod t) as [a|] eqn:E1.
  - destruct (exec_matchAt _ _ _ E1) as (c & m & Hm & ->).
    destruct (reClockPeriod_groups c m Hm) as [Hl Hg].
    rewrite Hl. cbn [Nat.leb fst].
    destruct (clockGroups_numbers _ Hg) as (h & mi & Hh & Hmi & -> & ->).
    eauto.
  - destruct H as [H | H]; [congruence|].
    destruct (exec_found _ _ H) as (a & c & m & -> & Hm & ->).
    destruct (reClockToken_groups c m Hm) as [Hl Hg].
    rewrite Hl. cbn [Nat.leb fst].
    destruct (clockGroups_numbers _ Hg) as (h & mi & Hh & Hmi & -> & ->).
    eauto.
Qed.

(** X21. A clock token gives a well-formed time whose only defect can be
    its range: when the normalized text matches one of the first two time
    patterns, the time of the record is "HH:MM" printed from an hour and
    a minute below 100, and it is a valid clock time exactly when the
    hour is at most 23 and the minute at most 59. *)
Theorem clock_token_time (text : jsstring) :
  let t := preprocessText text in
  exec reClockPeriod t <> None \/ exec reClockToken t <> None ->
  exists h m,
    (h <= 99)%N /\ (m <= 99)%N
    /\ time (extractDataFromText text) = formatTime (int h) (int m)
    /\ (validClock (time (extractDataFromText text)) = true
        <-> (h <= 23 /\ m <= 59)%N).
Proof.
  intros t H.
  destruct (timeLoop_clock t H) as (h & m & Hh & Hm & E).
  exists h, m. rewrite record_time. fold t. rewrite E.
  rewrite (time_kept t _ (formatTime_nonEmpty _ _)).
  split; [assumption|]. split; [assumption|]. split; [reflexivity|].
  now apply formatTime_valid_iff.
Qed.

Lemma clock_token_time_witness :
  exists h m,
    (h <= 99)%N /\ (m <= 99)%N
    /\ time (extractDataFromText (str "at 25:61 sys 120")) = formatTime (int h) (int m)
    /\ (validClock (time (extractDataFromText (str "at 25:61 sys 120"))) = true
        <-> (h <= 23 /\ m <= 59)%N).
Proof.
  apply (clock_token_time (str "at 25:61 sys 120")).
  right. vm_compute. discriminate.
Defined.
